(** * A guitar tuner: tuning catalog, frequency matcher, pitch estimator
      and tuning session

    Shallow embedding of the TypeScript sources

      - [src/types/index.ts]            constants and record types
      - [src/tuning/tunings.ts]         the tuning catalog
      - [src/tuning/note-mapper.ts]     the frequency matcher
      - [src/audio/pitch-detector.ts]   the pitch estimator
      - [src/tuning/session-manager.ts] the tuning session

    Numbers.  A JavaScript [number] that carries a frequency, a cents value
    or an audio sample is modelled as a real number ([R]): IEEE-754 doubles
    are idealised as exact reals, so [Math.log2], [Math.pow] and [Math.sqrt]
    are the exact functions and no rounding error, NaN or infinity occurs.
    The inputs on which JavaScript would produce NaN or an infinity (the
    logarithm of a non-positive ratio, a mean over no samples) are outside
    this model; they do not arise from the catalog, whose target
    frequencies are positive ([catalog_frequencies_positive]), nor from the
    estimator, whose windows hold 4096 samples.  Where the code decides by
    comparing two rounded doubles that can be arbitrarily close (the
    100-cent bound of the matcher, the order of two distances), the
    properties leave a slack, [centsTolerance].
    A [number] that carries a string position, an octave, a MIDI index or a
    millisecond time stamp is an integer ([Z]).  [null] and [undefined] are
    [None]. *)

From Stdlib Require Import Reals Lra Lia ZArith List Bool Ascii String.
From Stdlib Require Import Zfloor DecimalString Sorting.Sorted Permutation.
From stdpp Require Import base gmap sorting.
Import ListNotations.

Local Open Scope Z_scope.
Local Open Scope string_scope.

(* ================================================================== *)
(** ** JavaScript primitives *)
(* ================================================================== *)

(** Comparison of two numbers, as a boolean. *)
Definition Rltb (x y : R) : bool := if Rlt_dec x y then true else false.
Definition Rleb (x y : R) : bool := if Rle_dec x y then true else false.

(** [Math.round]: the nearest integer, ties towards plus infinity. *)
Definition Math_round (x : R) : Z := Zfloor (x + / 2)%R.

(** [Math.abs] on reals is [Rabs]; [Math.log2] and [Math.pow]: *)
Definition Math_log2 (x : R) : R := (ln x / ln 2)%R.
Definition Math_pow (b e : R) : R := Rpower b e.

(** Template-literal conversion of an integral number to its decimal text,
    for magnitudes below 10^21, where JavaScript prints all the digits. *)
Definition string_of_Z (z : Z) : string := NilZero.string_of_int (Z.to_int z).

(** [String.prototype.includes]. *)
Definition includes (s sub : string) : bool :=
  match String.index 0 sub s with Some _ => true | None => false end.

(** [Array.prototype.slice(-n)] for [n] of at least 1: the last [n]
    elements (all when shorter).  For [n = 0] JavaScript's [slice(-0)] is
    the whole array; the code slices by 4096 and by 2048 only. *)
Definition slice_last {A} (n : nat) (l : list A) : list A :=
  skipn (length l - n)%nat l.

(* ================================================================== *)
(** ** types/index.ts *)
(* ================================================================== *)

Definition A4_FREQUENCY : R := 440.
Definition A4_MIDI : Z := 69.

Record Note := mkNote {
  name : string;
  octave : Z;
  frequency : R;
  midiNumber : Z
}.

Record GuitarString := mkGuitarString {
  stringNumber : Z;
  note_of : Note
}.

Record TuningPreset := mkTuningPreset {
  id : string;
  tuning_name : string;
  description : string;
  strings : list GuitarString
}.

Inductive TuningStatus := flat | sharp | in_tune.

Record PitchResult := mkPitchResult {
  pr_frequency : option R;
  noteName : option string;
  centsDeviation : R;
  closestString : option Z;
  inTune : bool;
  tuningStatus : TuningStatus;
  advice : string
}.

Record TuningSession := mkTuningSession {
  active : bool;
  tuningId : string;
  tuningName : string;
  startedAt : Z
}.

Definition IN_TUNE_THRESHOLD : R := 5.
Definition GUITAR_FREQ_MIN : R := 70.
Definition GUITAR_FREQ_MAX : R := 1500.
Definition DEFAULT_sampleRate : R := 44100.

(* ================================================================== *)
(** ** tuning/tunings.ts *)
(* ================================================================== *)

Definition midiToFrequency (midi : Z) : R :=
  (A4_FREQUENCY * Math_pow 2 ((IZR midi - IZR A4_MIDI) / 12))%R.

Definition note (nm : string) (oct : Z) (midi : Z) : Note :=
  {| name := nm;
     octave := oct;
     midiNumber := midi;
     frequency := (IZR (Math_round (midiToFrequency midi * 100)) / 100)%R |}.

Definition gs (n : Z) (nt : Note) : GuitarString :=
  {| stringNumber := n; note_of := nt |}.

(** The six entries of [TUNING_PRESETS], named after their ids. *)
Definition standard : TuningPreset :=
  {| id := "standard"; tuning_name := "Standard";
     description := "Standard tuning (E A D G B E)";
     strings :=
       [ gs 6 (note "E" 2 40); gs 5 (note "A" 2 45); gs 4 (note "D" 3 50);
         gs 3 (note "G" 3 55); gs 2 (note "B" 3 59); gs 1 (note "E" 4 64) ] |}.

Definition drop_d : TuningPreset :=
  {| id := "drop-d"; tuning_name := "Drop D";
     description := "Drop D tuning (D A D G B E) - 6th string lowered to D";
     strings :=
       [ gs 6 (note "D" 2 38); gs 5 (note "A" 2 45); gs 4 (note "D" 3 50);
         gs 3 (note "G" 3 55); gs 2 (note "B" 3 59); gs 1 (note "E" 4 64) ] |}.

Definition half_step_down : TuningPreset :=
  {| id := "half-step-down"; tuning_name := "Half Step Down";
     description := "Eb tuning (Eb Ab Db Gb Bb Eb) - all strings down 1 semitone";
     strings :=
       [ gs 6 (note "Eb" 2 39); gs 5 (note "Ab" 2 44); gs 4 (note "Db" 3 49);
         gs 3 (note "Gb" 3 54); gs 2 (note "Bb" 3 58); gs 1 (note "Eb" 4 63) ] |}.

Definition open_g : TuningPreset :=
  {| id := "open-g"; tuning_name := "Open G";
     description := "Open G tuning (D G D G B D) - strums a G major chord";
     strings :=
       [ gs 6 (note "D" 2 38); gs 5 (note "G" 2 43); gs 4 (note "D" 3 50);
         gs 3 (note "G" 3 55); gs 2 (note "B" 3 59); gs 1 (note "D" 4 62) ] |}.

Definition open_d : TuningPreset :=
  {| id := "open-d"; tuning_name := "Open D";
     description := "Open D tuning (D A D F# A D) - strums a D major chord";
     strings :=
       [ gs 6 (note "D" 2 38); gs 5 (note "A" 2 45); gs 4 (note "D" 3 50);
         gs 3 (note "F#" 3 54); gs 2 (note "A" 3 57); gs 1 (note "D" 4 62) ] |}.

Definition dadgad : TuningPreset :=
  {| id := "dadgad"; tuning_name := "DADGAD";
     description := "DADGAD tuning (D A D G A D) - popular for Celtic music";
     strings :=
       [ gs 6 (note "D" 2 38); gs 5 (note "A" 2 45); gs 4 (note "D" 3 50);
         gs 3 (note "G" 3 55); gs 2 (note "A" 3 57); gs 1 (note "D" 4 62) ] |}.

Definition TUNING_PRESETS : list TuningPreset :=
  [ standard; drop_d; half_step_down; open_g; open_d; dadgad ].

Definition getTuningById (i : string) : option TuningPreset :=
  List.find (fun t => String.eqb (id t) i) TUNING_PRESETS.

Definition getTuningIds : list string := List.map id TUNING_PRESETS.

(* ================================================================== *)
(** ** tuning/note-mapper.ts *)
(* ================================================================== *)

(** [cents = 1200 * log2(detectedFreq / targetFreq)], for positive
    frequencies.  On a frequency that is zero or negative JavaScript gives
    an infinity or NaN, which no comparison of the matcher accepts; the
    real logarithm has no such value, so the properties of the matcher
    that depend on it are stated for positive targets.  The code compares
    rounded doubles: the properties that depend on the 100-cent bound or on
    the order of two distances are stated up to [centsTolerance]. *)
Definition calculateCents (detectedFreq targetFreq : R) : R :=
  (1200 * Math_log2 (detectedFreq / targetFreq))%R.

(** The value of [smallestCentsDiff]: [Infinity] until a string qualifies. *)
Inductive CentsDiff := Infinity | Finite (c : R).

Definition lt_CentsDiff (x : R) (d : CentsDiff) : bool :=
  match d with Infinity => true | Finite c => Rltb x c end.

(** The three loop variables of [findClosestString]. *)
Record ClosestAcc := mkAcc {
  acc_closestString : option Z;
  acc_smallestCentsDiff : CentsDiff;
  acc_closestNoteName : string
}.

Record Closest := mkClosest {
  cl_stringNumber : Z;
  centsOff : R;
  cl_noteName : string
}.

Definition noteLabel (n : Note) : string := name n ++ string_of_Z (octave n).

(** One iteration of the [for ... of tuning.strings] loop. *)
Definition closest_step (freq : R) (acc : ClosestAcc) (guitarString : GuitarString)
  : ClosestAcc :=
  let cents := calculateCents freq (frequency (note_of guitarString)) in
  let absCents := Rabs cents in
  if lt_CentsDiff absCents (acc_smallestCentsDiff acc) && Rleb absCents 100
  then {| acc_smallestCentsDiff := Finite absCents;
          acc_closestString := Some (stringNumber guitarString);
          acc_closestNoteName := noteLabel (note_of guitarString) |}
  else acc.

Definition closest_loop (freq : R) (l : list GuitarString) : ClosestAcc :=
  fold_left (closest_step freq) l
    {| acc_closestString := None;
       acc_smallestCentsDiff := Infinity;
       acc_closestNoteName := "" |}.

(** [findClosestString].  The lookup [tuning.strings.find(...)!] cannot miss,
    since [closestString] is the number of a string of the tuning (lemma
    [findClosestString_target_found] below); its [None] branch is dead. *)
Definition findClosestString (freq : R) (tuning : TuningPreset) : option Closest :=
  if Rltb freq GUITAR_FREQ_MIN || Rltb GUITAR_FREQ_MAX freq then None
  else
    let acc := closest_loop freq (strings tuning) in
    match acc_closestString acc with
    | None => None
    | Some closestString =>
        match List.find (fun s => Z.eqb (stringNumber s) closestString)
                        (strings tuning) with
        | Some targetString =>
            let actualCents :=
              calculateCents freq (frequency (note_of targetString)) in
            Some {| cl_stringNumber := closestString;
                    centsOff := (IZR (Math_round (actualCents * 10)) / 10)%R;
                    cl_noteName := acc_closestNoteName acc |}
        | None => None
        end
    end.

Definition getTuningStatus (cents : R) : TuningStatus :=
  if Rleb (Rabs cents) IN_TUNE_THRESHOLD then in_tune
  else if Rltb cents 0 then flat else sharp.

Definition generateAdvice (status : TuningStatus) (cents : R)
    (stringNum : option Z) (noteNm : option string) : string :=
  match stringNum, noteNm with
  | Some sn, Some nn =>
      let stringLabel := "String " ++ string_of_Z sn ++ " (" ++ nn ++ ")" in
      let centsAbs := Z.abs (Math_round cents) in
      match status with
      | in_tune => stringLabel ++ " is in tune!"
      | flat => stringLabel ++ " is " ++ string_of_Z centsAbs
                  ++ " cents flat. Tune UP (tighten)."
      | sharp => stringLabel ++ " is " ++ string_of_Z centsAbs
                  ++ " cents sharp. Tune DOWN (loosen)."
      end
  | _, _ => "No pitch detected. Play a string and hold the note."
  end.

Definition is_in_tune (s : TuningStatus) : bool :=
  match s with in_tune => true | _ => false end.

Definition createPitchResult (freq : option R) (tuning : TuningPreset) : PitchResult :=
  match freq with
  | None =>
      {| pr_frequency := None; noteName := None; centsDeviation := 0;
         closestString := None; inTune := false; tuningStatus := flat;
         advice := "No pitch detected. Play a string and hold the note." |}
  | Some f =>
      match findClosestString f tuning with
      | None =>
          {| pr_frequency := Some (IZR (Math_round (f * 10)) / 10)%R;
             noteName := None; centsDeviation := 0;
             closestString := None; inTune := false; tuningStatus := flat;
             advice := "Detected " ++ string_of_Z (Math_round f)
                         ++ " Hz - not close to any target string." |}
      | Some closest =>
          let status := getTuningStatus (centsOff closest) in
          {| pr_frequency := Some (IZR (Math_round (f * 10)) / 10)%R;
             noteName := Some (cl_noteName closest);
             centsDeviation := centsOff closest;
             closestString := Some (cl_stringNumber closest);
             inTune := is_in_tune status;
             tuningStatus := status;
             advice := generateAdvice status (centsOff closest)
                         (Some (cl_stringNumber closest))
                         (Some (cl_noteName closest)) |}
      end
  end.

(* ================================================================== *)
(** ** audio/pitch-detector.ts *)
(* ================================================================== *)

(** A call either returns normally or throws an [Error] with a message. *)
Inductive completion (A : Type) :=
| Normal (a : A)
| Throw (msg : string).
Arguments Normal {A} a.
Arguments Throw {A} msg.

(** pitchfinder's detector function: a window of samples to a frequency. *)
Definition PitchDetector := list R -> option R.

Record PitchDetectorProcessor := mkPDP {
  detectPitch : option PitchDetector;
  sampleRate : R;
  accumulatedSamples : list R;
  bufferSize : nat;
  rmsThreshold : R;
  lastFrequency : option R
}.

Definition new_PitchDetectorProcessor (rate : R) : PitchDetectorProcessor :=
  {| detectPitch := None;
     sampleRate := rate;
     bufferSize := 4096;
     accumulatedSamples := [];
     rmsThreshold := (1 / 100)%R;
     lastFrequency := None |}.

(** [initialize]: [algorithm] is the pitchfinder factory ([ACF2PLUS] with
    its [sampleRate] option); a failed dynamic import is the caller's [Throw]. *)
Definition initialize (algorithm : R -> PitchDetector) (p : PitchDetectorProcessor)
  : PitchDetectorProcessor :=
  {| detectPitch := Some (algorithm (sampleRate p));
     sampleRate := sampleRate p;
     accumulatedSamples := accumulatedSamples p;
     bufferSize := bufferSize p;
     rmsThreshold := rmsThreshold p;
     lastFrequency := lastFrequency p |}.

Definition calculateRMS (samples : list R) : R :=
  sqrt (fold_left (fun sum x => (sum + x * x)%R) samples 0%R
        / INR (length samples)).

Definition set_buffer (p : PitchDetectorProcessor) (buf : list R) :=
  {| detectPitch := detectPitch p; sampleRate := sampleRate p;
     accumulatedSamples := buf; bufferSize := bufferSize p;
     rmsThreshold := rmsThreshold p; lastFrequency := lastFrequency p |}.

Definition set_lastFrequency (p : PitchDetectorProcessor) (f : option R) :=
  {| detectPitch := detectPitch p; sampleRate := sampleRate p;
     accumulatedSamples := accumulatedSamples p; bufferSize := bufferSize p;
     rmsThreshold := rmsThreshold p; lastFrequency := f |}.

(** [process]: the detector after the call, and the value returned. *)
Definition process (p : PitchDetectorProcessor) (samples : list R)
  : completion (PitchDetectorProcessor * option R) :=
  match detectPitch p with
  | None => Throw "PitchDetector not initialized. Call initialize() first."
  | Some detect =>
      let p1 := set_buffer p (accumulatedSamples p ++ samples) in
      if Nat.ltb (length (accumulatedSamples p1)) (bufferSize p1)
      then Normal (p1, lastFrequency p1)
      else
        let analysisBuffer := slice_last (bufferSize p1) (accumulatedSamples p1) in
        let overlap := (bufferSize p1 / 2)%nat in
        let p2 := set_buffer p1 (slice_last overlap (accumulatedSamples p1)) in
        let rms := calculateRMS analysisBuffer in
        if Rltb rms (rmsThreshold p2)
        then Normal (set_lastFrequency p2 None, None)
        else
          match detect analysisBuffer with
          | Some f =>
              if Rleb GUITAR_FREQ_MIN f && Rleb f GUITAR_FREQ_MAX
              then Normal (set_lastFrequency p2 (Some f), Some f)
              else Normal (p2, lastFrequency p2)
          | None => Normal (p2, lastFrequency p2)
          end
  end.

Definition getLastFrequency (p : PitchDetectorProcessor) : option R :=
  lastFrequency p.

Definition reset (p : PitchDetectorProcessor) : PitchDetectorProcessor :=
  set_lastFrequency (set_buffer p []) None.

(* ================================================================== *)
(** ** audio/mic-capture.ts, as far as the session drives it *)
(* ================================================================== *)

(** The capture object: whether the recorder runs, and how many listeners
    are registered for its ['audio'] and ['error'] events. *)
Record MicrophoneCapture := mkMic {
  isRunning : bool;
  audioListeners : nat;
  errorListeners : nat
}.

Definition new_MicrophoneCapture : MicrophoneCapture :=
  {| isRunning := false; audioListeners := 0; errorListeners := 0 |}.

Definition soxMissingMessage : string :=
  "sox is not installed. Install it with: brew install sox"
  ++ String (ascii_of_nat 10) "sox is required for microphone access on macOS.".

(** What the outside world answers while a session starts. *)
Record StartEnv := mkStartEnv {
  soxInstalled : bool;                          (* [which sox] succeeds *)
  pitchfinder : completion (R -> PitchDetector); (* [import('pitchfinder')] *)
  micFailure : option string;    (* the recorder refuses to start, with a message *)
  startClock : Z                                (* [new Date()] *)
}.

Definition checkSoxInstalled (env : StartEnv) : completion unit :=
  if soxInstalled env then Normal tt else Throw soxMissingMessage.

Definition mic_on_audio (m : MicrophoneCapture) : MicrophoneCapture :=
  {| isRunning := isRunning m; audioListeners := S (audioListeners m);
     errorListeners := errorListeners m |}.

Definition mic_on_error (m : MicrophoneCapture) : MicrophoneCapture :=
  {| isRunning := isRunning m; audioListeners := audioListeners m;
     errorListeners := S (errorListeners m) |}.

Definition mic_start (env : StartEnv) (m : MicrophoneCapture)
  : completion MicrophoneCapture :=
  if isRunning m then Throw "Microphone is already running"
  else match checkSoxInstalled env with
       | Throw msg => Throw msg
       | Normal _ =>
           match micFailure env with
           | Some msg => Throw msg
           | None => Normal {| isRunning := true;
                               audioListeners := audioListeners m;
                               errorListeners := errorListeners m |}
           end
       end.

Definition mic_stop (m : MicrophoneCapture) : MicrophoneCapture :=
  if isRunning m
  then {| isRunning := false; audioListeners := audioListeners m;
          errorListeners := errorListeners m |}
  else m.

Definition removeAllListeners (m : MicrophoneCapture) : MicrophoneCapture :=
  {| isRunning := isRunning m; audioListeners := 0; errorListeners := 0 |}.

(* ================================================================== *)
(** ** tuning/session-manager.ts *)
(* ================================================================== *)

Record TuningInfo := mkTuningInfo {
  ti_id : string;
  ti_name : string;
  ti_description : string;
  ti_strings : list (Z * string * R)
}.

Record StartResult := mkStartResult {
  start_success : bool;
  start_message : string;
  start_tuning : option TuningInfo;
  start_error : option string
}.

Record StopResult := mkStopResult {
  stop_success : bool;
  stop_message : string;
  stop_error : option string
}.

(** The fields of [TuningSessionManager].  [tunedStrings] is a JavaScript
    [Set]; the code only adds to it, clears it, reads its size and sorts its
    elements, so its insertion order is not observable and a finite set
    models it. *)
Record TuningSessionManager := mkManager {
  session : option TuningSession;
  mic : option MicrophoneCapture;
  pitchDetector : option PitchDetectorProcessor;
  currentTuning : option TuningPreset;
  lastPitchResult : option PitchResult;
  stableString : option Z;
  stableStartTime : Z;
  tunedStrings : gset Z
}.

Definition STABLE_DURATION_MS : Z := 400.

(** [new TuningSessionManager()] *)
Definition tuningManager : TuningSessionManager :=
  {| session := None; mic := None; pitchDetector := None;
     currentTuning := None; lastPitchResult := None;
     stableString := None; stableStartTime := 0; tunedStrings := ∅ |}.

(** [this.session?.active] as a condition. *)
Definition isActive (st : TuningSessionManager) : bool :=
  match session st with Some s => active s | None => false end.

Definition getCurrentTuning (st : TuningSessionManager) : option TuningPreset :=
  currentTuning st.

(** The collaborators [cleanup] lets go of, in the state the calls
    [stop(); removeAllListeners()] and [reset()] leave them in. *)
Record Released := mkReleased {
  released_mic : option MicrophoneCapture;
  released_detector : option PitchDetectorProcessor
}.

Definition nothing_released : Released :=
  {| released_mic := None; released_detector := None |}.

Definition cleanup (st : TuningSessionManager) : TuningSessionManager * Released :=
  ({| mic := None;
      pitchDetector := None;
      currentTuning := None;
      session := None;
      lastPitchResult := None;
      tunedStrings := ∅;
      stableString := stableString st;
      stableStartTime := stableStartTime st |},
   {| released_mic :=
        option_map (fun m => removeAllListeners (mic_stop m)) (mic st);
      released_detector := option_map reset (pitchDetector st) |}).

Definition set_mic (st : TuningSessionManager) (m : option MicrophoneCapture) :=
  {| session := session st; mic := m; pitchDetector := pitchDetector st;
     currentTuning := currentTuning st; lastPitchResult := lastPitchResult st;
     stableString := stableString st; stableStartTime := stableStartTime st;
     tunedStrings := tunedStrings st |}.

Definition set_pitchDetector (st : TuningSessionManager)
    (p : option PitchDetectorProcessor) :=
  {| session := session st; mic := mic st; pitchDetector := p;
     currentTuning := currentTuning st; lastPitchResult := lastPitchResult st;
     stableString := stableString st; stableStartTime := stableStartTime st;
     tunedStrings := tunedStrings st |}.

Definition set_stable (st : TuningSessionManager) (s : option Z) (t : Z) :=
  {| session := session st; mic := mic st; pitchDetector := pitchDetector st;
     currentTuning := currentTuning st; lastPitchResult := lastPitchResult st;
     stableString := s; stableStartTime := t;
     tunedStrings := tunedStrings st |}.

Definition tuningInfo (tuning : TuningPreset) : TuningInfo :=
  {| ti_id := id tuning;
     ti_name := tuning_name tuning;
     ti_description := description tuning;
     ti_strings :=
       List.map (fun s => (stringNumber s, noteLabel (note_of s),
                           frequency (note_of s)))
                (strings tuning) |}.

(** The [catch] branch of [startSession]. *)
Definition startFailure (st : TuningSessionManager) (message : string)
  : StartResult * TuningSessionManager :=
  let st' := fst (cleanup st) in
  if includes message "sox"
  then ({| start_success := false; start_message := "sox is not installed";
           start_tuning := None;
           start_error := Some "Install sox with: brew install sox" |}, st')
  else if includes message "permission" || includes message "access"
  then ({| start_success := false; start_message := "Microphone access denied";
           start_tuning := None;
           start_error :=
             Some ("Grant microphone permission in System Settings > "
                   ++ "Privacy & Security > Microphone") |}, st')
  else ({| start_success := false;
           start_message := "Failed to start tuning session";
           start_tuning := None; start_error := Some message |}, st').

Definition startSession (env : StartEnv) (tuningId : string)
    (st : TuningSessionManager) : StartResult * TuningSessionManager :=
  if isActive st
  then ({| start_success := false;
           start_message := "A tuning session is already active.";
           start_tuning := None;
           start_error :=
             Some ("Stop the current session first. Currently tuning to: "
                   ++ match session st with
                      | Some s => tuningName s
                      | None => ""
                      end) |}, st)
  else
  match getTuningById tuningId with
  | None =>
      ({| start_success := false;
          start_message := "Unknown tuning: " ++ tuningId;
          start_tuning := None;
          start_error :=
            Some ("Available tunings: " ++ String.concat ", " getTuningIds) |},
       st)
  | Some tuning =>
      let st1 := set_mic st (Some new_MicrophoneCapture) in
      match checkSoxInstalled env with
      | Throw msg => startFailure st1 msg
      | Normal _ =>
      let st2 := set_pitchDetector st1
                   (Some (new_PitchDetectorProcessor DEFAULT_sampleRate)) in
      match pitchfinder env with
      | Throw msg => startFailure st2 msg
      | Normal algorithm =>
      let st3 := set_pitchDetector st2
                   (Some (initialize algorithm
                            (new_PitchDetectorProcessor DEFAULT_sampleRate))) in
      let m := mic_on_error (mic_on_audio new_MicrophoneCapture) in
      let st4 := set_mic st3 (Some m) in
      match mic_start env m with
      | Throw msg => startFailure st4 msg
      | Normal m' =>
          ({| start_success := true;
              start_message := "Started tuning session for " ++ tuning_name tuning;
              start_tuning := Some (tuningInfo tuning);
              start_error := None |},
           {| session := Some {| active := true; tuningId := id tuning;
                                 tuningName := tuning_name tuning;
                                 startedAt := startClock env |};
              mic := Some m';
              pitchDetector := pitchDetector st4;
              currentTuning := Some tuning;
              lastPitchResult := lastPitchResult st4;
              stableString := stableString st4;
              stableStartTime := stableStartTime st4;
              tunedStrings := tunedStrings st4 |})
      end end end
  end.

Definition stopSession (st : TuningSessionManager)
  : StopResult * TuningSessionManager * Released :=
  if negb (isActive st)
  then ({| stop_success := false;
           stop_message := "No active tuning session";
           stop_error := Some "Call start_tuning first to begin a session." |},
        st, nothing_released)
  else
    let tuningName :=
      match session st with Some s => tuningName s | None => "" end in
    let '(st', rel) := cleanup st in
    ({| stop_success := true;
        stop_message := "Stopped tuning session for " ++ tuningName
                          ++ ". Microphone released.";
        stop_error := None |}, st', rel).

(** The ['audio'] listener registered by [startSession]; [now] is the value
    of [Date.now()].  A [process] that throws leaves the manager as it was. *)
Definition onAudio (now : Z) (samples : list R) (st : TuningSessionManager)
  : TuningSessionManager :=
  match pitchDetector st, currentTuning st with
  | Some pd, Some tuning =>
      match process pd samples with
      | Throw _ => st
      | Normal (pd', freq) =>
          let result := createPitchResult freq tuning in
          let currentString := closestString result in
          let '(stable, since) :=
            match currentString with
            | Some c =>
                if bool_decide (stableString st = Some c)
                then (stableString st, stableStartTime st)
                else (Some c, now)
            | None => (None, 0)
            end in
          {| session := session st; mic := mic st;
             pitchDetector := Some pd';
             currentTuning := currentTuning st;
             lastPitchResult := Some result;
             stableString := stable; stableStartTime := since;
             tunedStrings := tunedStrings st |}
      end
  | _, _ => st
  end.

(** The object [waitForPitch] resolves with when a reading is stable. *)
Record Progress := mkProgress {
  pg_result : PitchResult;
  pg_tunedStrings : list Z;
  tunedCount : nat;
  totalStrings : Z;
  allInTune : bool
}.

Inductive WaitResult :=
| WaitError (error : string)
| WaitTimeout (r : PitchResult)
| WaitStable (p : Progress).

(** The comparator [(a, b) => b - a]: [a] is placed before [b] when [b <= a]. *)
Definition descending (a b : Z) : Prop := b <= a.
#[local] Instance descending_dec a b : Decision (descending a b) := Z_le_dec b a.

Definition sortedDescending (s : gset Z) : list Z :=
  merge_sort descending (elements s).

Definition timeoutResult : PitchResult :=
  {| pr_frequency := None; noteName := None; centsDeviation := 0;
     closestString := None; inTune := false; tuningStatus := flat;
     advice := "Timed out waiting for a note. Play a string and hold it steady." |}.

(** [waitForPitch] up to the creation of the promise: the immediate error,
    or the manager with the tracker reset together with [startTime]. *)
Definition waitForPitch_enter (now : Z) (st : TuningSessionManager)
  : WaitResult + (TuningSessionManager * Z) :=
  if negb (isActive st)
  then inl (WaitError "No active tuning session. Call start_tuning first.")
  else inr (set_stable st None 0, now).

(** One run of [checkStability]; [now1] and [now2] are its two readings of
    [Date.now()].  [None] stands for [setTimeout(checkStability, 50)]. *)
Definition checkStability (startTime timeoutMs : Z) (now1 now2 : Z)
    (st : TuningSessionManager) : TuningSessionManager * option WaitResult :=
  if now1 - startTime >? timeoutMs
  then (st, Some (WaitTimeout timeoutResult))
  else if negb (isActive st)
  then (st, Some (WaitError "Tuning session was stopped."))
  else
    match stableString st, lastPitchResult st with
    | Some stable, Some last =>
        if (stableStartTime st >? 0)
           && (now2 - stableStartTime st >=? STABLE_DURATION_MS)
           && bool_decide (closestString last = Some stable)
        then
          let tuned :=
            match closestString last with
            | Some c => if inTune last then {[ c ]} ∪ tunedStrings st
                        else tunedStrings st
            | None => tunedStrings st
            end in
          ({| session := session st; mic := mic st;
              pitchDetector := pitchDetector st;
              currentTuning := currentTuning st;
              lastPitchResult := lastPitchResult st;
              stableString := stableString st;
              stableStartTime := stableStartTime st;
              tunedStrings := tuned |},
           Some (WaitStable
                   {| pg_result := last;
                      pg_tunedStrings := sortedDescending tuned;
                      tunedCount := size tuned;
                      totalStrings := 6;
                      allInTune := Nat.eqb (size tuned) 6 |}))
        else (st, None)
    | _, _ => (st, None)
    end.

(* ================================================================== *)
(** * Vocabulary of the properties *)
(* ================================================================== *)

Section MatcherVocabulary.
Local Open Scope R_scope.
Local Open Scope list_scope.

(** ** The frequency matcher *)

(** Absolute cents deviation of [f] from the target of a string. *)
Definition absCents (f : R) (g : GuitarString) : R :=
  Rabs (calculateCents f (frequency (note_of g))).

(** What the loop variables record after the strings [seen]. *)
Definition closest_inv (f : R) (seen : list GuitarString) (acc : ClosestAcc) : Prop :=
  (acc_closestString acc = None /\
   acc_smallestCentsDiff acc = Infinity /\
   forall g, In g seen -> 100 < absCents f g)
  \/
  (exists g, In g seen /\
     acc_closestString acc = Some (stringNumber g) /\
     acc_smallestCentsDiff acc = Finite (absCents f g) /\
     acc_closestNoteName acc = noteLabel (note_of g) /\
     absCents f g <= 100 /\
     forall g', In g' seen -> absCents f g <= absCents f g').

(** Distances measured on the frequencies themselves.  An interval of [c]
    cents is the frequency ratio [2^(c/1200)]: 1200 cents are an octave. *)
Definition centsRatio (c : R) : R := Rpower 2 (c / 1200).

(** [f] is at most [c] cents away from [t], above or below: neither
    frequency exceeds the other by more than the ratio of [c] cents. *)
Definition within_cents (c f t : R) : Prop :=
  f <= t * centsRatio c /\ t <= f * centsRatio c.

(** The slack allowed where the code decides on rounded doubles: a
    millionth of a cent, about a million times the rounding error of
    [calculateCents] on audible frequencies. *)
Definition centsTolerance : R := / 1000000.

(** Every target frequency of the tuning is positive. *)
Definition positive_targets (tuning : TuningPreset) : Prop :=
  forall g, In g (strings tuning) -> 0 < frequency (note_of g).

(** ** The catalog *)

(** [q] is [x] rounded to two decimal places: a whole number of hundredths,
    no more than half a hundredth away from [x] (a tie goes up). *)
Definition rounded_to_2_decimals (x q : R) : Prop :=
  exists k : Z, q = IZR k / 100 /\ IZR k - / 2 <= x * 100 < IZR k + / 2.

Definition six_positions (t : TuningPreset) : Prop :=
  length (strings t) = 6%nat /\
  NoDup (List.map stringNumber (strings t)) /\
  forall n : Z, In n (List.map stringNumber (strings t)) <-> (1 <= n <= 6)%Z.

(** ** The pitch estimator *)

(** The window [process] analyses once the buffer is long enough. *)
Definition analysisWindow (p : PitchDetectorProcessor) (samples : list R) : list R :=
  slice_last (bufferSize p) (accumulatedSamples p ++ samples).

(** A ready detector with an empty buffer that remembers [last] and whose
    algorithm answers [answer] on every window. *)
Definition readyDetector (answer last : option R) : PitchDetectorProcessor :=
  set_lastFrequency
    (initialize (fun _ _ => answer) (new_PitchDetectorProcessor DEFAULT_sampleRate))
    last.

End MatcherVocabulary.

(** ** Advice texts *)

(** [sub] occurs in [s]. *)
Definition contains (s sub : string) : Prop :=
  exists pre post : string, s = pre ++ sub ++ post.

Definition stringLabel (sn : Z) (nn : string) : string :=
  "String " ++ string_of_Z sn ++ " (" ++ nn ++ ")".

(** ** The tuning session as a transition system *)

(** What can happen while a [waitForPitch] promise is pending: the
    microphone delivers a block, another request stops the session, or the
    50 ms timer fires and [checkStability] runs. *)
Inductive WaitEvent :=
| EvAudio (now : Z) (samples : list R)
| EvStop
| EvPoll (now1 now2 : Z).

(** The pending promise over a sequence of events: the manager at the end,
    and the value the promise resolved with ([None] while still pending). *)
Fixpoint wait_loop (startTime timeoutMs : Z) (evs : list WaitEvent)
    (st : TuningSessionManager) : TuningSessionManager * option WaitResult :=
  match evs with
  | [] => (st, None)
  | EvAudio now samples :: rest =>
      wait_loop startTime timeoutMs rest (onAudio now samples st)
  | EvStop :: rest =>
      wait_loop startTime timeoutMs rest (snd (fst (stopSession st)))
  | EvPoll now1 now2 :: rest =>
      match checkStability startTime timeoutMs now1 now2 st with
      | (st', Some r) => (st', Some r)
      | (st', None) => wait_loop startTime timeoutMs rest st'
      end
  end.

(** [waitForPitch]: the entry, the first [checkStability()] made while the
    promise is created (clock readings [first]), then the events. *)
Definition waitForPitch (now timeoutMs : Z) (first : Z * Z)
    (evs : list WaitEvent) (st : TuningSessionManager)
  : TuningSessionManager * option WaitResult :=
  match waitForPitch_enter now st with
  | inl e => (st, Some e)
  | inr (st1, startTime) =>
      wait_loop startTime timeoutMs (EvPoll (fst first) (snd first) :: evs) st1
  end.

(** One operation on the manager. *)
Inductive step : TuningSessionManager -> TuningSessionManager -> Prop :=
| step_startSession env tuningId st :
    step st (snd (startSession env tuningId st))
| step_stopSession st :
    step st (snd (fst (stopSession st)))
| step_onAudio now samples st :
    step st (onAudio now samples st)
| step_waitForPitch_enter now st st' startTime :
    waitForPitch_enter now st = inr (st', startTime) -> step st st'
| step_checkStability startTime timeoutMs now1 now2 st :
    step st (fst (checkStability startTime timeoutMs now1 now2 st)).

(** The managers that operations can produce from a fresh one. *)
Definition reachable (st : TuningSessionManager) : Prop :=
  rtc step tuningManager st.

(** String positions of a tuning. *)
Definition positions (t : TuningPreset) : list Z :=
  List.map stringNumber (strings t).

(** The facts that hold of every reachable manager. *)
Record session_inv (st : TuningSessionManager) : Prop := mkSessionInv {
  inv_idle :
    isActive st = false ->
    session st = None /\ mic st = None /\ pitchDetector st = None /\
    currentTuning st = None /\ lastPitchResult st = None /\
    tunedStrings st = ∅;
  inv_active :
    isActive st = true ->
    exists s m pd t,
      session st = Some s /\
      mic st = Some m /\ isRunning m = true /\
      pitchDetector st = Some pd /\ is_Some (detectPitch pd) /\
      currentTuning st = Some t /\ In t TUNING_PRESETS /\
      tuningName s = tuning_name t;
  inv_tuned :
    forall t n, currentTuning st = Some t -> n ∈ tunedStrings st ->
                In n (positions t);
  inv_last :
    forall t r n, currentTuning st = Some t -> lastPitchResult st = Some r ->
                  closestString r = Some n -> In n (positions t)
}.

(** Nothing is held: the state of a fresh manager, up to the tracker. *)
Definition idle (st : TuningSessionManager) : Prop :=
  session st = None /\ mic st = None /\ pitchDetector st = None /\
  currentTuning st = None /\ lastPitchResult st = None /\
  tunedStrings st = ∅.

Section WaitEvents.
Local Open Scope list_scope.

(** The [startTime] and [timeoutMs] of the pending call. *)
Variables startTime timeoutMs : Z.

(** The effect of one event on the manager of a pending wait. *)
Definition apply_event (ev : WaitEvent) (st : TuningSessionManager)
  : TuningSessionManager :=
  match ev with
  | EvAudio now samples => onAudio now samples st
  | EvStop => snd (fst (stopSession st))
  | EvPoll now1 now2 => fst (checkStability startTime timeoutMs now1 now2 st)
  end.

Definition after_events (evs : list WaitEvent) (st : TuningSessionManager)
  : TuningSessionManager :=
  fold_left (fun s ev => apply_event ev s) evs st.

(** Since the block delivered at time [t] matched string [s], among the
    events [evs] applied to [st0], the tracker has held [s] with start time
    [t] after that block and after every later event. *)
Definition held_since (st0 : TuningSessionManager) (evs : list WaitEvent)
    (s t : Z) : Prop :=
  exists pre samples mid,
    evs = pre ++ EvAudio t samples :: mid /\
    (exists r,
       lastPitchResult (after_events (pre ++ [EvAudio t samples]) st0) = Some r /\
       closestString r = Some s) /\
    forall mid1 mid2, mid = mid1 ++ mid2 ->
      stableString (after_events (pre ++ EvAudio t samples :: mid1) st0) = Some s /\
      stableStartTime (after_events (pre ++ EvAudio t samples :: mid1) st0) = t.

End WaitEvents.

(** ** A concrete session: the fifth string is played *)

(** sox is installed, pitchfinder loads and the recorder starts; the
    detection algorithm answers [answer] on every window. *)
Definition micAvailable (answer : option R) : StartEnv :=
  {| soxInstalled := true;
     pitchfinder := Normal (fun _ _ => answer);
     micFailure := None;
     startClock := 0 |}.

(** A session on standard tuning whose algorithm hears 110 Hz. *)
Definition started : TuningSessionManager :=
  snd (startSession (micAvailable (Some 110%R)) "standard" tuningManager).

(** The same session after one full, loud block delivered at time 1000. *)
Definition playing_A2 : TuningSessionManager :=
  onAudio 1000 (repeat 1%R 4096) started.

Definition result_A2 : PitchResult :=
  {| pr_frequency := Some 110%R; noteName := Some "A2";
     centsDeviation := 0; closestString := Some 5;
     inTune := true; tuningStatus := in_tune;
     advice := "String 5 (A2) is in tune!" |}.

(* ================================================================== *)
(** * Further code: sample conversion and the server's tools *)
(* ================================================================== *)

Section SampleConversion.
Local Open Scope R_scope.
Local Open Scope list_scope.

(** ** audio/mic-capture.ts: [bufferToFloat32] *)

(** [buffer.readInt16LE(offset)] on the two bytes at that offset: the
    little-endian 16-bit value, read as a signed number. *)
Definition readInt16LE (lo hi : Byte.byte) : Z :=
  let u := (Z.of_N (Byte.to_N lo) + 256 * Z.of_N (Byte.to_N hi))%Z in
  if (u <? 32768)%Z then u else (u - 65536)%Z.

(** [bufferToFloat32]: one sample [int16 / 32768] per pair of bytes; the
    array has [buffer.length / 2] entries, so a last odd byte is left out.
    Every quotient is a 16-bit integer over a power of two, which a 32-bit
    float holds exactly. *)
Fixpoint bufferToFloat32 (buffer : list Byte.byte) : list R :=
  match buffer with
  | lo :: hi :: rest => IZR (readInt16LE lo hi) / 32768 :: bufferToFloat32 rest
  | _ => []
  end.

End SampleConversion.

(** [MicrophoneCapture.isActive()] *)
Definition mic_isActive (m : MicrophoneCapture) : bool := isRunning m.

(** ** server.ts: the four tools ([list_tunings], [start_tuning],
    [get_pitch], [stop_tuning]), before their answers are printed as JSON *)

Record TuningListing := mkTuningListing {
  tl_id : string;
  tl_name : string;
  tl_description : string;
  tl_strings : string
}.

(** [list_tunings] *)
Definition tool_list_tunings : list TuningListing :=
  List.map
    (fun t =>
       {| tl_id := id t;
          tl_name := tuning_name t;
          tl_description := description t;
          tl_strings :=
            String.concat " "
              (List.map (fun s => noteLabel (note_of s)) (strings t)) |})
    TUNING_PRESETS.

(** [start_tuning]: the argument is optional and defaults to ["standard"]. *)
Definition tool_start_tuning (env : StartEnv) (tuning : option string)
    (st : TuningSessionManager) : StartResult * TuningSessionManager :=
  startSession env
    (match tuning with Some t => t | None => "standard" end) st.

(** [stop_tuning] *)
Definition tool_stop_tuning (st : TuningSessionManager)
  : StopResult * TuningSessionManager * Released :=
  stopSession st.

(** The answer of [get_pitch]: what [waitForPitch] resolved with, and the
    [message] added when the session was ended because all strings are in
    tune. *)
Record PitchResponse := mkPitchResponse {
  response_result : WaitResult;
  response_message : option string
}.

(** [get_pitch]: waits up to 30000 ms; when the result carries [allInTune]
    and it is true, stops the session and adds the message.  [None] while
    the wait is pending. *)
Definition tool_get_pitch (now : Z) (first : Z * Z) (evs : list WaitEvent)
    (st : TuningSessionManager) : TuningSessionManager * option PitchResponse :=
  match waitForPitch now 30000 first evs st with
  | (st', None) => (st', None)
  | (st', Some (WaitStable p)) =>
      if allInTune p
      then (snd (fst (stopSession st')),
            Some {| response_result := WaitStable p;
                    response_message :=
                      Some "All 6 strings are in tune! Session ended." |})
      else (st', Some {| response_result := WaitStable p;
                         response_message := None |})
  | (st', Some r) =>
      (st', Some {| response_result := r; response_message := None |})
  end.

(** ** Vocabulary of the further properties *)

Section FurtherVocabulary.
Local Open Scope R_scope.
Local Open Scope list_scope.

(** A remembered or returned frequency that is absent or inside the
    instrument range. *)
Definition in_guitar_range (f : option R) : Prop :=
  match f with
  | None => True
  | Some x => 70 <= x <= 1500
  end.

(** [l1] is a suffix of [l2]. *)
Definition is_suffix {A} (l1 l2 : list A) : Prop := exists pre, l2 = pre ++ l1.

(** The loop variables after the strings [seen], with the tie rule: the
    recorded string is the first of the nearest ones. *)
Definition closest_first_inv (f : R) (seen : list GuitarString)
    (acc : ClosestAcc) : Prop :=
  (acc_closestString acc = None /\
   acc_smallestCentsDiff acc = Infinity /\
   forall g, In g seen -> 100 < absCents f g)
  \/
  (exists before g after,
     seen = before ++ g :: after /\
     acc_closestString acc = Some (stringNumber g) /\
     acc_smallestCentsDiff acc = Finite (absCents f g) /\
     acc_closestNoteName acc = noteLabel (note_of g) /\
     absCents f g <= 100 /\
     (forall b, In b before -> absCents f g < absCents f b) /\
     (forall a, In a after -> absCents f g <= absCents f a)).

(** Semitones above C of a note name, as the catalog spells them. *)
Definition pitchClass (nm : string) : option Z :=
  if String.eqb nm "C" then Some 0%Z
  else if String.eqb nm "Db" then Some 1%Z
  else if String.eqb nm "D" then Some 2%Z
  else if String.eqb nm "Eb" then Some 3%Z
  else if String.eqb nm "E" then Some 4%Z
  else if String.eqb nm "F" then Some 5%Z
  else if String.eqb nm "F#" then Some 6%Z
  else if String.eqb nm "Gb" then Some 6%Z
  else if String.eqb nm "G" then Some 7%Z
  else if String.eqb nm "Ab" then Some 8%Z
  else if String.eqb nm "A" then Some 9%Z
  else if String.eqb nm "Bb" then Some 10%Z
  else if String.eqb nm "B" then Some 11%Z
  else None.

(** The MIDI index that a name and an octave spell: C4 is 60, A4 is 69. *)
Definition spelledMidi (n : Note) : option Z :=
  match pitchClass (name n) with
  | Some pc => Some (12 * (octave n + 1) + pc)%Z
  | None => None
  end.

End FurtherVocabulary.

(* ================================================================== *)
(** * Properties *)
(* ================================================================== *)

(** ** Comparisons, rounding, powers and logarithms *)

Section Numbers.
Local Open Scope R_scope.

Lemma Rltb_true x y : Rltb x y = true <-> x < y.
Proof. unfold Rltb. destruct (Rlt_dec x y); split; (congruence || tauto). Qed.

Lemma Rltb_false x y : Rltb x y = false <-> y <= x.
Proof.
  unfold Rltb. destruct (Rlt_dec x y); split; try congruence; try lra.
Qed.

Lemma Rleb_true x y : Rleb x y = true <-> x <= y.
Proof. unfold Rleb. destruct (Rle_dec x y); split; (congruence || tauto). Qed.

Lemma Rleb_false x y : Rleb x y = false <-> y < x.
Proof.
  unfold Rleb. destruct (Rle_dec x y); split; try congruence; try lra.
Qed.

(** [Math.round x] is the integer [k] with [k - 1/2 <= x < k + 1/2]. *)
Lemma Math_round_bound x :
  IZR (Math_round x) - / 2 <= x < IZR (Math_round x) + / 2.
Proof.
  unfold Math_round. pose proof (Zfloor_bound (x + / 2)) as H. lra.
Qed.

Lemma Math_round_eq (k : Z) x :
  IZR k - / 2 <= x < IZR k + / 2 -> Math_round x = k.
Proof. intros H. unfold Math_round. apply Zfloor_eq. lra. Qed.

Lemma Math_round_IZR (k : Z) : Math_round (IZR k) = k.
Proof. apply Math_round_eq. lra. Qed.

(** Strict monotonicity of a positive power, and its two converses. *)
Lemma pow_lt_mono (n : nat) a b : 0 <= a < b -> a ^ S n < b ^ S n.
Proof.
  intros [Ha Hab]. induction n as [|n IH].
  - simpl. lra.
  - change (a ^ S (S n)) with (a * a ^ S n).
    change (b ^ S (S n)) with (b * b ^ S n).
    apply Rmult_le_0_lt_compat; auto. apply pow_le; lra.
Qed.

Lemma pow_lt_inv (n : nat) a b : 0 <= a -> 0 <= b -> a ^ S n < b ^ S n -> a < b.
Proof.
  intros Ha Hb H. destruct (Rlt_le_dec a b) as [|Hba]; auto.
  assert (b ^ S n <= a ^ S n) by (apply pow_incr; lra). lra.
Qed.

Lemma pow_le_inv (n : nat) a b : 0 <= a -> 0 <= b -> a ^ S n <= b ^ S n -> a <= b.
Proof.
  intros Ha Hb H. destruct (Rle_lt_dec a b) as [|Hba]; auto.
  assert (b ^ S n < a ^ S n) by (apply pow_lt_mono; lra). lra.
Qed.

Lemma ln2_pos : 0 < ln 2.
Proof. pose proof ln_lt_2. lra. Qed.

(** The equal-tempered ratio of [n] semitones, [2^(n/12)], is the positive
    real whose twelfth power is [2^n]. *)
Lemma semitone_pos (n : Z) : 0 < Math_pow 2 (IZR n / 12).
Proof. unfold Math_pow, Rpower. apply exp_pos. Qed.

Lemma semitone_pow12 (n : Z) : Math_pow 2 (IZR n / 12) ^ 12 = powerRZ 2 n.
Proof.
  unfold Math_pow.
  rewrite <- (Rpower_pow 12) by (unfold Rpower; apply exp_pos).
  rewrite Rpower_mult.
  replace (IZR n / 12 * INR 12) with (IZR n) by (simpl; field).
  symmetry. apply powerRZ_Rpower. lra.
Qed.

Lemma ln_le_iff x y : 0 < x -> 0 < y -> (ln x <= ln y <-> x <= y).
Proof.
  intros Hx Hy. split; intros H.
  - destruct (Rle_lt_dec x y) as [|Hlt]; auto.
    pose proof (ln_increasing y x Hy Hlt). lra.
  - destruct (Rle_lt_or_eq_dec _ _ H) as [Hlt | Heq]; [|rewrite Heq; lra].
    pose proof (ln_increasing x y Hx Hlt). lra.
Qed.

Lemma ln_lt_iff x y : 0 < x -> 0 < y -> (ln x < ln y <-> x < y).
Proof.
  intros Hx Hy. split; intros H.
  - apply ln_lt_inv; auto.
  - apply ln_increasing; auto.
Qed.

(** Cents against a bound [c = 100 * k / m] of [k/m] semitones:
    [1200 * log2 x <= 100*k/m] iff [x^(12 m) <= 2^k]. *)
Lemma log2_le_frac (k m : nat) x :
  0 < x -> (0 < m)%nat ->
  (1200 * Math_log2 x <= 100 * INR k / INR m <-> x ^ (12 * m) <= 2 ^ k).
Proof.
  intros Hx Hm. unfold Math_log2.
  assert (Hm' : 0 < INR m) by (apply lt_0_INR; lia).
  pose proof ln2_pos as H2.
  rewrite <- (ln_le_iff (x ^ (12 * m)) (2 ^ k)) by (apply pow_lt; lra).
  rewrite !ln_pow by lra. rewrite mult_INR.
  replace (INR 12) with 12 by (simpl; lra).
  split; intros H.
  - apply (Rmult_le_reg_r (100 / (INR m * ln 2))).
    { apply Rdiv_lt_0_compat; [lra|]. apply Rmult_lt_0_compat; lra. }
    match goal with |- ?a <= ?b =>
      replace a with (1200 * (ln x / ln 2)) by (field; lra);
      replace b with (100 * INR k / INR m) by (field; lra) end.
    exact H.
  - apply (Rmult_le_reg_r (INR m * ln 2 / 100)).
    { apply Rdiv_lt_0_compat; [|lra]. apply Rmult_lt_0_compat; lra. }
    match goal with |- ?a <= ?b =>
      replace a with (12 * INR m * ln x) by (field; lra);
      replace b with (INR k * ln 2) by (field; lra) end.
    exact H.
Qed.

Lemma log2_ge_frac (k m : nat) x :
  0 < x -> (0 < m)%nat ->
  (100 * INR k / INR m <= 1200 * Math_log2 x <-> 2 ^ k <= x ^ (12 * m)).
Proof.
  intros Hx Hm. unfold Math_log2.
  assert (Hm' : 0 < INR m) by (apply lt_0_INR; lia).
  pose proof ln2_pos as H2.
  rewrite <- (ln_le_iff (2 ^ k) (x ^ (12 * m))) by (apply pow_lt; lra).
  rewrite !ln_pow by lra. rewrite mult_INR.
  replace (INR 12) with 12 by (simpl; lra).
  split; intros H.
  - apply (Rmult_le_reg_r (100 / (INR m * ln 2))).
    { apply Rdiv_lt_0_compat; [lra|]. apply Rmult_lt_0_compat; lra. }
    match goal with |- ?a <= ?b =>
      replace b with (1200 * (ln x / ln 2)) by (field; lra);
      replace a with (100 * INR k / INR m) by (field; lra) end.
    exact H.
  - apply (Rmult_le_reg_r (INR m * ln 2 / 100)).
    { apply Rdiv_lt_0_compat; [|lra]. apply Rmult_lt_0_compat; lra. }
    match goal with |- ?a <= ?b =>
      replace b with (12 * INR m * ln x) by (field; lra);
      replace a with (INR k * ln 2) by (field; lra) end.
    exact H.
Qed.

End Numbers.

(** ** The tuning catalog: note frequencies *)

Section NoteFrequencies.
Local Open Scope R_scope.

Lemma midiToFrequency_semitone (midi : Z) :
  midiToFrequency midi = 440 * Math_pow 2 (IZR (midi - 69) / 12).
Proof. unfold midiToFrequency, A4_FREQUENCY, A4_MIDI. now rewrite minus_IZR. Qed.

Lemma midiToFrequency_pos (midi : Z) : 0 < midiToFrequency midi.
Proof.
  rewrite midiToFrequency_semitone.
  pose proof (semitone_pos (midi - 69)). lra.
Qed.

(** A certificate for the rounded frequency in hundredths of a hertz: it is
    [k] as soon as [2^(midi-69)] lies between the twelfth powers of
    [(k -+ 1/2) / 44000]. *)
Lemma midiToFrequency_round (midi k : Z) :
  0 <= IZR k - / 2 ->
  ((IZR k - / 2) / 44000) ^ 12 <= powerRZ 2 (midi - 69) ->
  powerRZ 2 (midi - 69) < ((IZR k + / 2) / 44000) ^ 12 ->
  Math_round (midiToFrequency midi * 100) = k.
Proof.
  intros Hk.
  assert (Hlo0 : 0 <= (IZR k - / 2) / 44000) by (apply Rmult_le_pos; lra).
  assert (Hhi0 : 0 <= (IZR k + / 2) / 44000) by (apply Rmult_le_pos; lra).
  pose proof (semitone_pos (midi - 69)) as Hy.
  assert (Hy0 : 0 <= Math_pow 2 (IZR (midi - 69) / 12)) by lra.
  intros Hlo Hhi. rewrite midiToFrequency_semitone.
  rewrite <- semitone_pow12 in Hlo, Hhi.
  apply pow_le_inv in Hlo; [| exact Hlo0 | exact Hy0].
  apply pow_lt_inv in Hhi; [| exact Hy0 | exact Hhi0].
  apply Math_round_eq. lra.
Qed.

(** Turn [powerRZ 2 z], for a closed [z], into [2 ^ n] or [/ 2 ^ n]. *)
Ltac eval_powerRZ :=
  match goal with
  | |- context [powerRZ 2 ?z] =>
      let z' := eval vm_compute in z in
      change (powerRZ 2 z) with (powerRZ 2 z');
      lazymatch z' with
      | Z0 => change (powerRZ 2 0) with 1
      | Zpos ?p =>
          let n := eval vm_compute in (Pos.to_nat p) in
          change (powerRZ 2 (Zpos p)) with (2 ^ n)
      | Zneg ?p =>
          let n := eval vm_compute in (Pos.to_nat p) in
          change (powerRZ 2 (Zneg p)) with (/ 2 ^ n)
      end
  end.

Ltac note_frequency k :=
  intros; unfold note; cbn [frequency];
  rewrite (midiToFrequency_round _ k);
  [ lra | lra | eval_powerRZ; lra | eval_powerRZ; lra ].

Lemma frequency_midi_69 nm oct : frequency (note nm oct 69) = 440.
Proof. note_frequency 44000%Z. Qed.

Lemma frequency_midi_40 nm oct : frequency (note nm oct 40) = 82.41.
Proof. note_frequency 8241%Z. Qed.

Lemma frequency_midi_45 nm oct : frequency (note nm oct 45) = 110.
Proof. note_frequency 11000%Z. Qed.

Lemma frequency_midi_50 nm oct : frequency (note nm oct 50) = 146.83.
Proof. note_frequency 14683%Z. Qed.

Lemma frequency_midi_55 nm oct : frequency (note nm oct 55) = 196.
Proof. note_frequency 19600%Z. Qed.

Lemma frequency_midi_59 nm oct : frequency (note nm oct 59) = 246.94.
Proof. note_frequency 24694%Z. Qed.

Lemma frequency_midi_64 nm oct : frequency (note nm oct 64) = 329.63.
Proof. note_frequency 32963%Z. Qed.

(** The three values above do not hang on the last bits of the product
    [midiToFrequency i * 100]: an error of up to a hundredth in it, far more
    than double-precision arithmetic commits, rounds to the same integer. *)
Lemma midiToFrequency_round_margin (midi k : Z) (e : R) :
  0 <= IZR k - 48 / 100 ->
  ((IZR k - 48 / 100) / 44000) ^ 12 <= powerRZ 2 (midi - 69) ->
  powerRZ 2 (midi - 69) <= ((IZR k + 48 / 100) / 44000) ^ 12 ->
  Rabs e <= / 100 ->
  Math_round (midiToFrequency midi * 100 + e) = k.
Proof.
  intros Hk.
  assert (Hlo0 : 0 <= (IZR k - 48 / 100) / 44000) by (apply Rmult_le_pos; lra).
  assert (Hhi0 : 0 <= (IZR k + 48 / 100) / 44000) by (apply Rmult_le_pos; lra).
  pose proof (semitone_pos (midi - 69)) as Hy.
  assert (Hy0 : 0 <= Math_pow 2 (IZR (midi - 69) / 12)) by lra.
  intros Hlo Hhi He. rewrite midiToFrequency_semitone.
  rewrite <- semitone_pow12 in Hlo, Hhi.
  apply pow_le_inv in Hlo; [| exact Hlo0 | exact Hy0].
  apply pow_le_inv in Hhi; [| exact Hy0 | exact Hhi0].
  apply Math_round_eq.
  assert (- / 100 <= e <= / 100) by (unfold Rabs in He; destruct (Rcase_abs e); lra).
  lra.
Qed.

Lemma note_frequency_margin (e : R) :
  Rabs e <= / 100 ->
  Math_round (midiToFrequency 69 * 100 + e) = 44000%Z /\
  Math_round (midiToFrequency 40 * 100 + e) = 8241%Z /\
  Math_round (midiToFrequency 64 * 100 + e) = 32963%Z.
Proof.
  intros He. split; [|split];
    (apply midiToFrequency_round_margin;
     [ lra | eval_powerRZ; lra | eval_powerRZ; lra | exact He ]).
Qed.

(** Every note from MIDI index 0 upwards has a positive frequency, so the
    targets of the catalog are in the domain where [Math.log2] is a real. *)
Lemma note_frequency_pos nm oct (midi : Z) :
  (0 <= midi)%Z -> 0 < frequency (note nm oct midi).
Proof.
  intros Hm. unfold note. cbn [frequency].
  rewrite midiToFrequency_semitone.
  assert (H6 : Math_pow 2 (-6) <= Math_pow 2 (IZR (midi - 69) / 12)).
  { unfold Math_pow. apply Rle_Rpower; [lra|].
    assert (-69 <= IZR (midi - 69)); [|lra].
    apply IZR_le. lia. }
  assert (E : Math_pow 2 (-6) = / 64).
  { unfold Math_pow. replace (-6) with (- INR 6) by (simpl; lra).
    rewrite Rpower_Ropp, Rpower_pow by lra. f_equal. lra. }
  rewrite E in H6.
  pose proof (Math_round_bound
                (440 * Math_pow 2 (IZR (midi - 69) / 12) * 100)) as [_ Hb].
  lra.
Qed.

Lemma catalog_frequencies_positive t g :
  In t TUNING_PRESETS -> In g (strings t) -> 0 < frequency (note_of g).
Proof.
  intros Ht Hg. cbn [TUNING_PRESETS In] in Ht.
  repeat (destruct Ht as [<- | Ht]); try contradiction;
    cbn [strings standard drop_d half_step_down open_g open_d dadgad In] in Hg;
    repeat (destruct Hg as [<- | Hg]); try contradiction;
    apply note_frequency_pos; lia.
Qed.

End NoteFrequencies.

(** ** The frequency matcher *)

Section Matcher.
Local Open Scope R_scope.
Local Open Scope list_scope.

Lemma closest_step_inv f seen acc g :
  closest_inv f seen acc -> closest_inv f (seen ++ [g]) (closest_step f acc g).
Proof.
  intros Hinv. unfold closest_step. fold (absCents f g).
  destruct Hinv as [(Hn & Hs & Hall) | (g0 & Hin & Hn & Hs & Hl & Hle & Hmin)].
  - rewrite Hs. cbn [lt_CentsDiff andb].
    destruct (Rleb (absCents f g) 100) eqn:E.
    + apply Rleb_true in E. right. exists g. cbn.
      repeat split; auto.
      * apply in_or_app. right. now left.
      * intros g' Hg'. apply in_app_or in Hg' as [Hg' | [<- | []]]; [|lra].
        specialize (Hall _ Hg'). lra.
    + apply Rleb_false in E. left. repeat split; auto.
      intros g' Hg'. apply in_app_or in Hg' as [Hg' | [<- | []]]; auto.
  - rewrite Hs. cbn [lt_CentsDiff].
    destruct (Rltb (absCents f g) (absCents f g0)) eqn:E1;
      [destruct (Rleb (absCents f g) 100) eqn:E2 |]; cbn [andb].
    + apply Rltb_true in E1. apply Rleb_true in E2.
      right. exists g. cbn. repeat split; auto.
      * apply in_or_app. right. now left.
      * intros g' Hg'. apply in_app_or in Hg' as [Hg' | [<- | []]]; [|lra].
        specialize (Hmin _ Hg'). lra.
    + apply Rltb_true in E1. apply Rleb_false in E2. lra.
    + apply Rltb_false in E1.
      right. exists g0. repeat split; auto.
      * apply in_or_app. now left.
      * intros g' Hg'. apply in_app_or in Hg' as [Hg' | [<- | []]]; auto.
Qed.

Lemma closest_fold_inv f l : forall seen acc,
  closest_inv f seen acc ->
  closest_inv f (seen ++ l) (fold_left (closest_step f) l acc).
Proof.
  induction l as [|g l IH]; intros seen acc Hinv; cbn [fold_left].
  - now rewrite app_nil_r.
  - replace (seen ++ g :: l) with ((seen ++ [g]) ++ l)
      by (now rewrite <- app_assoc).
    apply IH. now apply closest_step_inv.
Qed.

Lemma closest_loop_inv f l : closest_inv f l (closest_loop f l).
Proof.
  unfold closest_loop. apply (closest_fold_inv f l []).
  left. cbn. repeat split; auto. intros g [].
Qed.

(** The lookup of the target string by its number never misses. *)
Lemma find_stringNumber_In (l : list GuitarString) g :
  In g l ->
  exists t, List.find (fun s => Z.eqb (stringNumber s) (stringNumber g)) l = Some t
            /\ In t l /\ stringNumber t = stringNumber g.
Proof.
  induction l as [|a l IH]; intros Hin; [destruct Hin|].
  cbn [List.find]. destruct (Z.eqb (stringNumber a) (stringNumber g)) eqn:E.
  - exists a. apply Z.eqb_eq in E. repeat split; auto. now left.
  - destruct Hin as [-> | Hin]; [rewrite Z.eqb_refl in E; discriminate|].
    destruct (IH Hin) as (t & Hf & Ht & Hn). exists t. repeat split; auto.
    now right.
Qed.

Lemma findClosestString_target_found f tuning closestString :
  acc_closestString (closest_loop f (strings tuning)) = Some closestString ->
  exists t,
    List.find (fun s => Z.eqb (stringNumber s) closestString) (strings tuning)
    = Some t.
Proof.
  intros H.
  destruct (closest_loop_inv f (strings tuning))
    as [(Hn & _) | (g & Hin & Hn & _)]; rewrite Hn in H; [discriminate|].
  injection H as <-.
  destruct (find_stringNumber_In _ _ Hin) as (t & Ht & _). now exists t.
Qed.

(** Out of the instrument range nothing is matched. *)
Lemma findClosestString_out_of_range f tuning :
  f < 70 \/ 1500 < f -> findClosestString f tuning = None.
Proof.
  intros H. unfold findClosestString, GUITAR_FREQ_MIN, GUITAR_FREQ_MAX.
  destruct H as [H | H]; apply Rltb_true in H; rewrite H; auto.
  now rewrite orb_true_r.
Qed.

Lemma findClosestString_in_range f tuning :
  70 <= f <= 1500 ->
  findClosestString f tuning =
    let acc := closest_loop f (strings tuning) in
    match acc_closestString acc with
    | None => None
    | Some closestString =>
        match List.find (fun s => Z.eqb (stringNumber s) closestString)
                        (strings tuning) with
        | Some targetString =>
            Some {| cl_stringNumber := closestString;
                    centsOff :=
                      IZR (Math_round
                             (calculateCents f (frequency (note_of targetString))
                              * 10)) / 10;
                    cl_noteName := acc_closestNoteName acc |}
        | None => None
        end
    end.
Proof.
  intros [Hlo Hhi]. unfold findClosestString, GUITAR_FREQ_MIN, GUITAR_FREQ_MAX.
  apply Rltb_false in Hlo, Hhi. now rewrite Hlo, Hhi.
Qed.

(** In range, a result is a nearest string, and it is within 100 cents. *)
Lemma findClosestString_some f tuning r :
  70 <= f <= 1500 ->
  findClosestString f tuning = Some r ->
  exists g, In g (strings tuning) /\
    cl_stringNumber r = stringNumber g /\
    cl_noteName r = noteLabel (note_of g) /\
    absCents f g <= 100 /\
    forall g', In g' (strings tuning) -> absCents f g <= absCents f g'.
Proof.
  intros Hr. rewrite findClosestString_in_range by exact Hr. cbn zeta.
  destruct (closest_loop_inv f (strings tuning))
    as [(Hn & _) | (g & Hin & Hn & _ & Hl & Hle & Hmin)];
    rewrite Hn; [discriminate|].
  destruct (List.find _ _) as [t|]; [|discriminate].
  intros [= <-]. exists g. cbn. repeat split; auto.
Qed.

(** In range, no result means that no string is within 100 cents. *)
Lemma findClosestString_none f tuning :
  70 <= f <= 1500 ->
  (findClosestString f tuning = None <->
   forall g, In g (strings tuning) -> 100 < absCents f g).
Proof.
  intros Hr. rewrite findClosestString_in_range by exact Hr. cbn zeta.
  destruct (closest_loop_inv f (strings tuning))
    as [(Hn & _ & Hall) | (g & Hin & Hn & _ & Hl & Hle & Hmin)].
  - rewrite Hn. tauto.
  - pose proof (findClosestString_target_found f tuning _ Hn) as [t Ht].
    rewrite Hn, Ht. split; [discriminate|].
    intros Hall. specialize (Hall _ Hin). lra.
Qed.

(** *** Deciding "within 100 cents" for given frequencies *)

Lemma Math_log2_inv x : 0 < x -> Math_log2 (/ x) = - Math_log2 x.
Proof. intros Hx. unfold Math_log2. rewrite ln_Rinv by auto. field.
  pose proof ln2_pos; lra. Qed.

Lemma calculateCents_le_100 d t :
  0 < d -> 0 < t -> (calculateCents d t <= 100 <-> d ^ 12 <= 2 * t ^ 12).
Proof.
  intros Hd Ht. unfold calculateCents.
  assert (Hx : 0 < d / t) by (apply Rdiv_lt_0_compat; auto).
  pose proof (log2_le_frac 1 1 (d / t) Hx ltac:(lia)) as H.
  cbn [INR Nat.mul Nat.add] in H.
  replace (100 * 1 / 1) with 100 in H by field.
  rewrite H. unfold Rdiv at 1. rewrite Rpow_mult_distr, pow_inv.
  assert (Ht12 : 0 < t ^ 12) by (apply pow_lt; auto).
  replace (2 ^ 1) with 2 by (cbn; lra).
  split; intros H'.
  - apply (Rmult_le_compat_r (t ^ 12)) in H'; [|lra].
    replace (d ^ 12 * / t ^ 12 * t ^ 12) with (d ^ 12) in H' by (field; lra).
    exact H'.
  - apply (Rmult_le_reg_r (t ^ 12)); [lra|].
    replace (d ^ 12 * / t ^ 12 * t ^ 12) with (d ^ 12) by (field; lra).
    exact H'.
Qed.

Lemma calculateCents_swap d t :
  0 < d -> 0 < t -> calculateCents t d = - calculateCents d t.
Proof.
  intros Hd Ht. unfold calculateCents.
  replace (t / d) with (/ (d / t)) by (field; lra).
  rewrite Math_log2_inv by (apply Rdiv_lt_0_compat; auto). ring.
Qed.

Lemma within_100_iff d t :
  0 < d -> 0 < t ->
  (Rabs (calculateCents d t) <= 100 <->
   d ^ 12 <= 2 * t ^ 12 /\ t ^ 12 <= 2 * d ^ 12).
Proof.
  intros Hd Ht.
  rewrite <- (calculateCents_le_100 d t), <- (calculateCents_le_100 t d) by auto.
  rewrite (calculateCents_swap d t) by auto.
  unfold Rabs. destruct (Rcase_abs _); lra.
Qed.

Lemma calculateCents_same f : 0 < f -> calculateCents f f = 0.
Proof.
  intros Hf. unfold calculateCents, Math_log2.
  replace (f / f) with 1 by (field; lra). rewrite ln_1. field.
  pose proof ln2_pos; lra.
Qed.

Lemma closest_step_skip f acc g :
  100 < absCents f g -> closest_step f acc g = acc.
Proof.
  intros H. unfold closest_step. fold (absCents f g).
  apply Rleb_false in H. rewrite H. now rewrite andb_false_r.
Qed.

Lemma closest_step_first f acc g :
  acc_smallestCentsDiff acc = Infinity -> absCents f g <= 100 ->
  closest_step f acc g =
    {| acc_closestString := Some (stringNumber g);
       acc_smallestCentsDiff := Finite (absCents f g);
       acc_closestNoteName := noteLabel (note_of g) |}.
Proof.
  intros Hs H. unfold closest_step. fold (absCents f g).
  apply Rleb_true in H. now rewrite Hs, H.
Qed.

(** *** Distances on the frequencies themselves *)

Lemma centsRatio_pos c : 0 < centsRatio c.
Proof. unfold centsRatio, Rpower. apply exp_pos. Qed.

Lemma centsRatio_mono c d : c <= d -> centsRatio c <= centsRatio d.
Proof. intros H. unfold centsRatio. apply Rle_Rpower; lra. Qed.

Lemma centsRatio_pow (n : nat) c : centsRatio c ^ n = centsRatio (c * INR n).
Proof.
  unfold centsRatio.
  rewrite <- Rpower_pow by (unfold Rpower; apply exp_pos).
  rewrite Rpower_mult. f_equal. field.
Qed.

Lemma centsRatio_octave : centsRatio 1200 = 2.
Proof.
  unfold centsRatio. replace (1200 / 1200) with 1 by field.
  apply Rpower_1. lra.
Qed.

Lemma calculateCents_le_iff c f t :
  0 < f -> 0 < t -> (calculateCents f t <= c <-> f <= t * centsRatio c).
Proof.
  intros Hf Ht. unfold calculateCents, Math_log2, centsRatio, Rpower.
  pose proof ln2_pos as H2.
  assert (Hq : 0 < f / t) by (apply Rdiv_lt_0_compat; auto).
  assert (Hiff : ln (f / t) <= c / 1200 * ln 2 <-> f / t <= exp (c / 1200 * ln 2)).
  { rewrite <- (ln_le_iff (f / t) (exp (c / 1200 * ln 2)))
      by (auto; apply exp_pos).
    now rewrite ln_exp. }
  split; intros H.
  - assert (H' : f / t <= exp (c / 1200 * ln 2)).
    { apply Hiff.
      apply (Rmult_le_reg_r (/ ln 2)); [apply Rinv_0_lt_compat; lra|].
      replace (c / 1200 * ln 2 * / ln 2) with (c / 1200) by (field; lra).
      unfold Rdiv in *. lra. }
    apply (Rmult_le_compat_r t) in H'; [|lra].
    replace (f / t * t) with f in H' by (field; lra). lra.
  - assert (H' : f / t <= exp (c / 1200 * ln 2)).
    { apply (Rmult_le_reg_r t); [lra|].
      replace (f / t * t) with f by (field; lra). lra. }
    apply Hiff in H'.
    apply (Rmult_le_compat_r (/ ln 2)) in H';
      [|left; apply Rinv_0_lt_compat; lra].
    replace (c / 1200 * ln 2 * / ln 2) with (c / 1200) in H' by (field; lra).
    unfold Rdiv in *. lra.
Qed.

Lemma within_cents_iff c f t :
  0 < f -> 0 < t ->
  (within_cents c f t <-> Rabs (calculateCents f t) <= c).
Proof.
  intros Hf Ht. unfold within_cents.
  rewrite <- (calculateCents_le_iff c f t), <- (calculateCents_le_iff c t f)
    by auto.
  rewrite (calculateCents_swap f t) by auto.
  unfold Rabs. destruct (Rcase_abs _); lra.
Qed.

Lemma within_cents_pow (n : nat) c f t :
  0 < f -> 0 < t -> c * INR (S n) <= 1200 ->
  within_cents c f t ->
  f ^ S n <= 2 * t ^ S n /\ t ^ S n <= 2 * f ^ S n.
Proof.
  intros Hf Ht Hc [H1 H2].
  pose proof (centsRatio_pos c) as Hr.
  assert (Hrn : centsRatio c ^ S n <= 2).
  { rewrite centsRatio_pow, <- centsRatio_octave. now apply centsRatio_mono. }
  assert (Hfn : 0 < f ^ S n) by (apply pow_lt; auto).
  assert (Htn : 0 < t ^ S n) by (apply pow_lt; auto).
  split.
  - apply Rle_trans with ((t * centsRatio c) ^ S n);
      [apply pow_incr; lra|].
    rewrite Rpow_mult_distr, (Rmult_comm 2).
    apply Rmult_le_compat_l; lra.
  - apply Rle_trans with ((f * centsRatio c) ^ S n);
      [apply pow_incr; lra|].
    rewrite Rpow_mult_distr, (Rmult_comm 2).
    apply Rmult_le_compat_l; lra.
Qed.

Lemma pow_within_cents (n : nat) c f t :
  0 < f -> 0 < t -> 1200 <= c * INR (S n) ->
  f ^ S n <= 2 * t ^ S n -> t ^ S n <= 2 * f ^ S n ->
  within_cents c f t.
Proof.
  intros Hf Ht Hc H1 H2.
  pose proof (centsRatio_pos c) as Hr.
  assert (Hrn : 2 <= centsRatio c ^ S n).
  { rewrite centsRatio_pow, <- centsRatio_octave. now apply centsRatio_mono. }
  assert (Hfn : 0 < f ^ S n) by (apply pow_lt; auto).
  assert (Htn : 0 < t ^ S n) by (apply pow_lt; auto).
  assert (Hft : 0 < t * centsRatio c) by (apply Rmult_lt_0_compat; auto).
  assert (Hff : 0 < f * centsRatio c) by (apply Rmult_lt_0_compat; auto).
  split.
  - apply (pow_le_inv n); [lra | lra |].
    rewrite Rpow_mult_distr.
    apply Rle_trans with (2 * t ^ S n); [exact H1|].
    rewrite (Rmult_comm 2). apply Rmult_le_compat_l; lra.
  - apply (pow_le_inv n); [lra | lra |].
    rewrite Rpow_mult_distr.
    apply Rle_trans with (2 * f ^ S n); [exact H2|].
    rewrite (Rmult_comm 2). apply Rmult_le_compat_l; lra.
Qed.

Lemma centsTolerance_pos : 0 < centsTolerance.
Proof. unfold centsTolerance. lra. Qed.

Lemma standard_positive : positive_targets standard.
Proof.
  intros g Hg. apply (catalog_frequencies_positive standard); [|exact Hg].
  cbn. tauto.
Qed.

(** *** The matcher on standard tuning *)

Lemma absCents_far f g :
  0 < f -> 0 < frequency (note_of g) ->
  2 * frequency (note_of g) ^ 12 < f ^ 12 \/
  2 * f ^ 12 < frequency (note_of g) ^ 12 ->
  100 < absCents f g.
Proof.
  intros Hf Ht H. apply Rnot_le_lt. unfold absCents.
  rewrite within_100_iff by auto. lra.
Qed.

Ltac standard_frequencies :=
  cbn [note_of gs];
  rewrite ?frequency_midi_40, ?frequency_midi_45, ?frequency_midi_50,
          ?frequency_midi_55, ?frequency_midi_59, ?frequency_midi_64.

(** Half the frequency of the first string is more than 100 cents away
    from every string of standard tuning, and nothing is matched. *)
Lemma half_E4_far g : In g (strings standard) -> 100 < absCents (329.63 / 2) g.
Proof.
  cbn [strings standard In]. intros H.
  repeat (destruct H as [<- | H]); try contradiction;
    apply absCents_far; standard_frequencies; lra.
Qed.

(** Exactly 110 Hz is matched to the fifth string, A2, at zero cents. *)
Lemma findClosestString_110 :
  findClosestString 110 standard =
    Some {| cl_stringNumber := 5; centsOff := 0; cl_noteName := "A2" |}.
Proof.
  rewrite findClosestString_in_range by lra.
  unfold closest_loop. cbn [strings standard fold_left].
  rewrite (closest_step_skip 110 _ (gs 6 _))
    by (apply absCents_far; standard_frequencies; lra).
  assert (H0 : absCents 110 (gs 5 (note "A" 2 45)) = 0).
  { unfold absCents. standard_frequencies.
    rewrite calculateCents_same by lra. apply Rabs_R0. }
  rewrite (closest_step_first 110 _ (gs 5 _)) by (auto; rewrite H0; lra).
  rewrite !closest_step_skip
    by (apply absCents_far; standard_frequencies; lra).
  cbn [acc_closestString acc_closestNoteName stringNumber gs List.find
       Z.eqb Pos.eqb].
  standard_frequencies. rewrite calculateCents_same by lra.
  rewrite Rmult_0_l, (Math_round_IZR 0). f_equal. f_equal. lra.
Qed.

(** Between 105 and 115 Hz the fifth string is the match; the deviation is
    measured against its 110 Hz. *)
Lemma findClosestString_near_A2 f :
  105 <= f <= 115 ->
  findClosestString f standard =
    Some {| cl_stringNumber := 5;
            centsOff := IZR (Math_round (calculateCents f 110 * 10)) / 10;
            cl_noteName := "A2" |}.
Proof.
  intros [Hlo Hhi].
  assert (Hlo12 : 105 ^ 12 <= f ^ 12) by (apply pow_incr; lra).
  assert (Hhi12 : f ^ 12 <= 115 ^ 12) by (apply pow_incr; lra).
  rewrite findClosestString_in_range by lra.
  unfold closest_loop. cbn [strings standard fold_left].
  rewrite (closest_step_skip f _ (gs 6 _))
    by (apply absCents_far; standard_frequencies; lra).
  rewrite (closest_step_first f _ (gs 5 _));
    [| reflexivity
     | unfold absCents; standard_frequencies;
       apply within_100_iff; lra ].
  rewrite !closest_step_skip
    by (apply absCents_far; standard_frequencies; lra).
  cbn [acc_closestString acc_closestNoteName stringNumber gs List.find
       Z.eqb Pos.eqb].
  standard_frequencies. reflexivity.
Qed.

End Matcher.

Section MatcherClaims.
Local Open Scope R_scope.
Local Open Scope list_scope.

(** C3.  [findClosestString] answers [None] for every frequency below 70 Hz
    or above 1500 Hz, whatever the tuning.  For a frequency in range and a
    tuning with positive targets, distances being measured on the
    frequencies themselves and up to [centsTolerance], the slack that the
    code's rounded doubles call for: a result names a string of the tuning
    that is within 100 cents and is no farther than any string of the
    tuning; a string within 100 cents always yields a result; and when
    every string is more than 100 cents away the answer is [None], not an
    invented match. *)
Theorem findClosestString_nearest_within_100 (f : R) (tuning : TuningPreset) :
  positive_targets tuning ->
  (f < 70 \/ 1500 < f -> findClosestString f tuning = None) /\
  (70 <= f <= 1500 ->
     (forall r, findClosestString f tuning = Some r ->
        exists g, In g (strings tuning) /\
          cl_stringNumber r = stringNumber g /\
          cl_noteName r = noteLabel (note_of g) /\
          within_cents (100 + centsTolerance) f (frequency (note_of g)) /\
          forall g' c, In g' (strings tuning) ->
            within_cents c f (frequency (note_of g')) ->
            within_cents (c + centsTolerance) f (frequency (note_of g))) /\
     ((exists g, In g (strings tuning) /\
         within_cents (100 - centsTolerance) f (frequency (note_of g))) ->
        exists r, findClosestString f tuning = Some r) /\
     ((forall g, In g (strings tuning) ->
         ~ within_cents (100 + centsTolerance) f (frequency (note_of g))) ->
        findClosestString f tuning = None)).
Proof.
  intros Hpos. pose proof centsTolerance_pos as Htol.
  split; [apply findClosestString_out_of_range|].
  intros Hr. assert (Hf : 0 < f) by lra. split; [|split].
  - intros r Hsome.
    destruct (findClosestString_some f tuning r Hr Hsome)
      as (g & Hin & Hn & Hl & Hle & Hmin).
    exists g. repeat (split; [assumption|]). unfold absCents in *. split.
    + apply within_cents_iff; [auto | auto |]. lra.
    + intros g' c Hin' Hw.
      apply within_cents_iff in Hw; [|auto|auto].
      apply within_cents_iff; [auto | auto |].
      specialize (Hmin g' Hin'). lra.
  - intros (g & Hin & Hw).
    apply within_cents_iff in Hw; [|auto|auto].
    destruct (findClosestString f tuning) as [r|] eqn:E; [now exists r|].
    pose proof (proj1 (findClosestString_none f tuning Hr) E _ Hin) as Hfar.
    unfold absCents in Hfar. lra.
  - intros Hall. apply (findClosestString_none f tuning Hr).
    intros g Hin. apply Rnot_le_lt. intros Hle. apply (Hall g Hin).
    apply within_cents_iff; [auto | auto |]. unfold absCents in Hle. lra.
Qed.

Lemma findClosestString_nearest_within_100_witness :
  exists r, findClosestString 112 standard = Some r /\
            cl_stringNumber r = 5%Z /\ cl_noteName r = "A2"%string.
Proof.
  destruct (findClosestString_nearest_within_100 112 standard standard_positive)
    as [_ H].
  destruct (H ltac:(lra)) as (Hsome & Hex & _).
  destruct Hex as [r Hr].
  { exists (gs 5 (note "A" 2 45)). split; [cbn; tauto|].
    cbn [note_of gs]. rewrite frequency_midi_45.
    apply (pow_within_cents 12); [lra | lra | | lra | lra].
    unfold centsTolerance. simpl INR. lra. }
  exists r. split; [exact Hr|].
  destruct (Hsome r Hr) as (g & Hin & Hn & Hl & Hw & _).
  assert (Hfar : forall t, 2 * 112 ^ 6 < t ^ 6 \/ 2 * t ^ 6 < 112 ^ 6 ->
                 0 < t -> ~ within_cents (100 + centsTolerance) 112 t).
  { intros t Ht Hpos Hc.
    apply (within_cents_pow 5) in Hc; [lra | lra | exact Hpos |].
    unfold centsTolerance. simpl INR. lra. }
  cbn [strings standard In] in Hin.
  destruct Hin as [<- | [<- | [<- | [<- | [<- | [<- | []]]]]]];
    cbn [note_of gs] in Hw;
    rewrite ?frequency_midi_40, ?frequency_midi_45, ?frequency_midi_50,
            ?frequency_midi_55, ?frequency_midi_59, ?frequency_midi_64 in Hw;
    try (exfalso; revert Hw; apply Hfar; lra).
  rewrite Hn, Hl. split; reflexivity.
Defined.

(** C1 (the code departs from the claim).  No octave correction is applied:
    half the frequency of the first string of standard tuning, 329.63 / 2,
    is in range and more than 100 cents from every string, and the matcher
    answers [None], although its double is exactly the target of string 1. *)
Theorem findClosestString_no_octave_correction :
  findClosestString (329.63 / 2) standard = None /\
  exists g, In g (strings standard) /\ stringNumber g = 1%Z /\
            noteLabel (note_of g) = "E4"%string /\
            absCents (2 * (329.63 / 2)) g <= 100.
Proof.
  split.
  - apply findClosestString_none; [lra|]. exact half_E4_far.
  - exists (gs 1 (note "E" 4 64)). repeat split.
    + cbn. tauto.
    + unfold absCents. cbn [note_of gs]. rewrite frequency_midi_64.
      replace (2 * (329.63 / 2)) with 329.63 by lra.
      rewrite calculateCents_same by lra. rewrite Rabs_R0. lra.
Qed.

End MatcherClaims.

(** ** The catalog *)

Section CatalogClaims.
Local Open Scope R_scope.
Local Open Scope list_scope.

(** C7.  The frequency of a constructed note is [440 * 2^((i-69)/12)]
    rounded to two decimal places, for every index [i]; index 69 gives
    440.00, index 40 gives 82.41 and index 64 gives 329.63. *)
Theorem note_frequency_rounded :
  (forall nm oct i,
     rounded_to_2_decimals (440 * Rpower 2 ((IZR i - 69) / 12))
                           (frequency (note nm oct i))) /\
  (forall nm oct, frequency (note nm oct 69) = 440) /\
  (forall nm oct, frequency (note nm oct 40) = 82.41) /\
  (forall nm oct, frequency (note nm oct 64) = 329.63).
Proof.
  split; [|split; [|split]].
  - intros nm oct i. unfold note. cbn [frequency].
    exists (Math_round (midiToFrequency i * 100)). split; [reflexivity|].
    apply (Math_round_bound (midiToFrequency i * 100)).
  - apply frequency_midi_69.
  - apply frequency_midi_40.
  - apply frequency_midi_64.
Qed.

Lemma positions_6_to_1 (l : list GuitarString) :
  List.map stringNumber l = [6; 5; 4; 3; 2; 1]%Z ->
  length l = 6%nat /\ NoDup (List.map stringNumber l) /\
  forall n : Z, In n (List.map stringNumber l) <-> (1 <= n <= 6)%Z.
Proof.
  intros H. split; [|split].
  - rewrite <- (length_map stringNumber), H. reflexivity.
  - rewrite H. apply (bool_decide_unpack _). vm_compute. exact I.
  - intros n. rewrite H. cbn. lia.
Qed.

Lemma catalog_six_positions t : In t TUNING_PRESETS -> six_positions t.
Proof.
  intros H. cbn [TUNING_PRESETS In] in H.
  repeat (destruct H as [<- | H]); try contradiction;
    apply positions_6_to_1; reflexivity.
Qed.

Lemma getTuningById_In i t : getTuningById i = Some t -> In t TUNING_PRESETS.
Proof. intros H. apply (find_some _ _ H). Qed.

Lemma getTuningById_id i t : getTuningById i = Some t -> id t = i.
Proof. intros H. apply find_some in H as [_ H]. now apply String.eqb_eq. Qed.

Lemma getTuningIds_found i :
  In i getTuningIds -> exists t, getTuningById i = Some t.
Proof.
  unfold getTuningIds. intros H. apply in_map_iff in H as (t & <- & Hin).
  unfold getTuningById.
  destruct (List.find _ TUNING_PRESETS) as [t'|] eqn:E; [now exists t'|].
  pose proof (find_none _ _ E _ Hin) as Hn. cbn beta in Hn.
  now rewrite String.eqb_refl in Hn.
Qed.

(** C8.  Every preset of the catalog has exactly six strings, and their
    positions are distinct and are exactly 1, 2, 3, 4, 5 and 6; so has every
    preset that [getTuningById] returns, and every id that [getTuningIds]
    lists resolves to such a preset. *)
Theorem catalog_six_strings :
  (forall t, In t TUNING_PRESETS -> six_positions t) /\
  (forall i t, getTuningById i = Some t -> six_positions t) /\
  (forall i, In i getTuningIds ->
     exists t, getTuningById i = Some t /\ six_positions t).
Proof.
  split; [|split].
  - apply catalog_six_positions.
  - intros i t H. apply catalog_six_positions. now apply getTuningById_In in H.
  - intros i H. destruct (getTuningIds_found i H) as [t Ht]. exists t.
    split; auto. apply catalog_six_positions. now apply getTuningById_In in Ht.
Qed.

Lemma catalog_six_strings_witness :
  six_positions dadgad /\
  exists t, getTuningById "open-g" = Some t /\ six_positions t.
Proof.
  destruct catalog_six_strings as (H1 & H2 & H3). split.
  - apply H1. cbn. tauto.
  - apply H3. cbn. tauto.
Defined.

End CatalogClaims.

(** ** Classification and advice *)

Section AdviceClaims.

Lemma append_assoc (a b c : string) : (a ++ b) ++ c = a ++ b ++ c.
Proof.
  induction a as [|x a IH]; [reflexivity|].
  change (String x ((a ++ b) ++ c) = String x (a ++ b ++ c)). now rewrite IH.
Qed.

Lemma contains_prefix (sub rest : string) : contains (sub ++ rest) sub.
Proof. exists "", rest. reflexivity. Qed.

Lemma contains_append_r (a s sub : string) : contains s sub -> contains (a ++ s) sub.
Proof.
  intros (pre & post & ->). exists (a ++ pre), post. now rewrite append_assoc.
Qed.

Lemma generateAdvice_label status c sn nn :
  exists rest, generateAdvice status c (Some sn) (Some nn) = stringLabel sn nn ++ rest.
Proof.
  unfold generateAdvice, stringLabel.
  destruct status; eexists; rewrite !append_assoc; reflexivity.
Qed.

Lemma generateAdvice_flat c sn nn :
  contains (generateAdvice flat c (Some sn) (Some nn)) "Tune UP (tighten)".
Proof.
  unfold generateAdvice.
  cbn zeta. do 3 apply contains_append_r.
  exists " cents flat. ", ".". reflexivity.
Qed.

Lemma generateAdvice_sharp c sn nn :
  contains (generateAdvice sharp c (Some sn) (Some nn)) "Tune DOWN (loosen)".
Proof.
  unfold generateAdvice.
  cbn zeta. do 3 apply contains_append_r.
  exists " cents sharp. ", ".". reflexivity.
Qed.

Lemma getTuningStatus_in_tune c : (Rabs c <= 5)%R -> getTuningStatus c = in_tune.
Proof.
  intros H. unfold getTuningStatus, IN_TUNE_THRESHOLD.
  apply Rleb_true in H. now rewrite H.
Qed.

Lemma getTuningStatus_flat c : (c < -5)%R -> getTuningStatus c = flat.
Proof.
  intros H. unfold getTuningStatus, IN_TUNE_THRESHOLD.
  assert (H1 : Rleb (Rabs c) 5 = false).
  { apply Rleb_false. unfold Rabs. destruct (Rcase_abs c); lra. }
  assert (H2 : Rltb c 0 = true) by (apply Rltb_true; lra).
  now rewrite H1, H2.
Qed.

Lemma getTuningStatus_sharp c : (5 < c)%R -> getTuningStatus c = sharp.
Proof.
  intros H. unfold getTuningStatus, IN_TUNE_THRESHOLD.
  assert (H1 : Rleb (Rabs c) 5 = false).
  { apply Rleb_false. unfold Rabs. destruct (Rcase_abs c); lra. }
  assert (H2 : Rltb c 0 = false) by (apply Rltb_false; lra).
  now rewrite H1, H2.
Qed.

(** A matched result of [createPitchResult] carries the advice generated
    for its own status, string and note. *)
Lemma createPitchResult_matched f tuning sn :
  closestString (createPitchResult f tuning) = Some sn ->
  exists nn,
    noteName (createPitchResult f tuning) = Some nn /\
    advice (createPitchResult f tuning) =
      generateAdvice (tuningStatus (createPitchResult f tuning))
                     (centsDeviation (createPitchResult f tuning))
                     (Some sn) (Some nn).
Proof.
  unfold createPitchResult. destruct f as [f|]; [|discriminate].
  destruct (findClosestString f tuning) as [c|]; [|discriminate].
  cbn. intros [= <-]. now exists (cl_noteName c).
Qed.

(** C9.  [getTuningStatus] is in-tune for [|c| <= 5], flat for [c < -5]
    and sharp for [c > 5].  The advice of every matched result names the
    string and the note; when the status is flat it says to tune UP
    (tighten), when sharp to tune DOWN (loosen). *)
Theorem getTuningStatus_and_advice :
  (forall c : R,
     ((Rabs c <= 5)%R -> getTuningStatus c = in_tune) /\
     ((c < -5)%R -> getTuningStatus c = flat) /\
     ((5 < c)%R -> getTuningStatus c = sharp)) /\
  (forall f tuning sn nn,
     closestString (createPitchResult f tuning) = Some sn ->
     noteName (createPitchResult f tuning) = Some nn ->
     contains (advice (createPitchResult f tuning)) (stringLabel sn nn) /\
     (tuningStatus (createPitchResult f tuning) = flat ->
        contains (advice (createPitchResult f tuning)) "Tune UP (tighten)") /\
     (tuningStatus (createPitchResult f tuning) = sharp ->
        contains (advice (createPitchResult f tuning)) "Tune DOWN (loosen)")).
Proof.
  split.
  - intros c. split; [|split].
    + apply getTuningStatus_in_tune.
    + apply getTuningStatus_flat.
    + apply getTuningStatus_sharp.
  - intros f tuning sn nn Hs Hn.
    destruct (createPitchResult_matched f tuning sn Hs) as (nn' & Hn' & ->).
    rewrite Hn in Hn'. injection Hn' as <-.
    split; [|split].
    + destruct (generateAdvice_label
                  (tuningStatus (createPitchResult f tuning))
                  (centsDeviation (createPitchResult f tuning)) sn nn)
        as [rest ->].
      apply contains_prefix.
    + intros ->. apply generateAdvice_flat.
    + intros ->. apply generateAdvice_sharp.
Qed.

Lemma createPitchResult_near_A2 f :
  (105 <= f <= 115)%R ->
  let c := (IZR (Math_round (calculateCents f 110 * 10)) / 10)%R in
  createPitchResult (Some f) standard =
    {| pr_frequency := Some (IZR (Math_round (f * 10)) / 10)%R;
       noteName := Some "A2";
       centsDeviation := c;
       closestString := Some 5;
       inTune := is_in_tune (getTuningStatus c);
       tuningStatus := getTuningStatus c;
       advice := generateAdvice (getTuningStatus c) c (Some 5) (Some "A2") |}.
Proof.
  intros H c. unfold createPitchResult.
  rewrite (findClosestString_near_A2 f H). reflexivity.
Qed.

Lemma createPitchResult_110 :
  createPitchResult (Some 110%R) standard =
    {| pr_frequency := Some 110%R; noteName := Some "A2";
       centsDeviation := 0; closestString := Some 5;
       inTune := true; tuningStatus := in_tune;
       advice := "String 5 (A2) is in tune!" |}.
Proof.
  unfold createPitchResult. rewrite findClosestString_110.
  cbn [centsOff cl_noteName cl_stringNumber].
  rewrite (getTuningStatus_in_tune 0) by (rewrite Rabs_R0; lra).
  replace (110 * 10)%R with (IZR 1100) by lra. rewrite Math_round_IZR.
  replace (1100 / 10)%R with 110%R by lra. reflexivity.
Qed.

(** One hertz below the fifth string reads at least ten cents flat, one
    hertz above at least ten cents sharp. *)
Lemma centsOff_109 :
  (IZR (Math_round (calculateCents 109 110 * 10)) / 10 < -5)%R.
Proof.
  assert (H : (calculateCents 109 110 <= -10)%R).
  { rewrite (calculateCents_swap 110 109) by lra.
    assert (10 <= calculateCents 110 109)%R; [|lra].
    unfold calculateCents.
    pose proof (proj2 (log2_ge_frac 1 10 (110 / 109)%R ltac:(lra) ltac:(lia))) as L.
    replace (100 * INR 1 / INR 10)%R with 10%R in L by (cbn; lra).
    apply L. change (12 * 10)%nat with 120%nat. lra. }
  pose proof (Math_round_bound (calculateCents 109 110 * 10)). lra.
Qed.

Lemma centsOff_111 :
  (5 < IZR (Math_round (calculateCents 111 110 * 10)) / 10)%R.
Proof.
  assert (H : (10 <= calculateCents 111 110)%R).
  { unfold calculateCents.
    pose proof (proj2 (log2_ge_frac 1 10 (111 / 110)%R ltac:(lra) ltac:(lia))) as L.
    replace (100 * INR 1 / INR 10)%R with 10%R in L by (cbn; lra).
    apply L. change (12 * 10)%nat with 120%nat. lra. }
  pose proof (Math_round_bound (calculateCents 111 110 * 10)). lra.
Qed.

(** Twenty cents above the fifth string: [110 * 2^(20/1200)] Hz reads exactly
    20 cents sharp, and the advice says to tune down. *)
Lemma twenty_cents_sharp_bounds :
  (1 <= Math_pow 2 (20 / 1200) <= 104 / 100)%R.
Proof.
  assert (Hpos : (0 < Math_pow 2 (20 / 1200))%R) by (apply exp_pos).
  assert (H60 : (Math_pow 2 (20 / 1200) ^ 60 = 2)%R).
  { unfold Math_pow. rewrite <- (Rpower_pow 60) by exact Hpos.
    rewrite Rpower_mult.
    replace (20 / 1200 * INR 60)%R with 1%R by (simpl; field).
    apply Rpower_1. lra. }
  split.
  - apply (pow_le_inv 59); [lra | lra |]. rewrite H60, pow1. lra.
  - apply (pow_le_inv 59); [lra | lra |]. rewrite H60. lra.
Qed.

Lemma createPitchResult_20_cents_sharp :
  createPitchResult (Some (110 * Math_pow 2 (20 / 1200))%R) standard =
    {| pr_frequency :=
         Some (IZR (Math_round (110 * Math_pow 2 (20 / 1200) * 10)) / 10)%R;
       noteName := Some "A2";
       centsDeviation := 20;
       closestString := Some 5;
       inTune := false;
       tuningStatus := sharp;
       advice := "String 5 (A2) is 20 cents sharp. Tune DOWN (loosen)." |}.
Proof.
  pose proof twenty_cents_sharp_bounds as [Hlo Hhi].
  rewrite createPitchResult_near_A2 by lra. cbn zeta.
  assert (Hc : calculateCents (110 * Math_pow 2 (20 / 1200)) 110 = 20%R).
  { unfold calculateCents, Math_log2, Math_pow.
    replace (110 * Rpower 2 (20 / 1200) / 110)%R with (Rpower 2 (20 / 1200))
      by (field; lra).
    rewrite ln_Rpower. field. pose proof ln2_pos. lra. }
  rewrite Hc. replace (20 * 10)%R with (IZR 200) by lra.
  rewrite Math_round_IZR. replace (200 / 10)%R with (IZR 20) by lra.
  rewrite (getTuningStatus_sharp 20) by lra.
  unfold generateAdvice. rewrite Math_round_IZR. reflexivity.
Qed.

Lemma getTuningStatus_and_advice_witness :
  getTuningStatus (-20) = flat /\
  getTuningStatus 20 = sharp /\
  getTuningStatus 3 = in_tune /\
  contains (advice (createPitchResult (Some 110%R) standard)) "String 5 (A2)" /\
  contains (advice (createPitchResult (Some 109%R) standard)) "Tune UP (tighten)" /\
  contains (advice (createPitchResult (Some 111%R) standard)) "Tune DOWN (loosen)".
Proof.
  destruct getTuningStatus_and_advice as [Hstatus Hadvice].
  split; [|split; [|split; [|split; [|split]]]].
  - apply Hstatus. lra.
  - apply Hstatus. lra.
  - apply Hstatus. rewrite Rabs_pos_eq; lra.
  - apply (Hadvice (Some 110%R) standard 5 "A2");
      rewrite createPitchResult_110; reflexivity.
  - apply (Hadvice (Some 109%R) standard 5 "A2");
      rewrite createPitchResult_near_A2 by lra; try reflexivity.
    cbn [tuningStatus]. apply getTuningStatus_flat, centsOff_109.
  - apply (Hadvice (Some 111%R) standard 5 "A2");
      rewrite createPitchResult_near_A2 by lra; try reflexivity.
    cbn [tuningStatus]. apply getTuningStatus_sharp, centsOff_111.
Defined.

End AdviceClaims.

(** ** The pitch estimator *)

Section EstimatorClaims.
Local Open Scope R_scope.
Local Open Scope list_scope.

Lemma process_accumulating p detect samples :
  detectPitch p = Some detect ->
  (length (accumulatedSamples p ++ samples) < bufferSize p)%nat ->
  process p samples =
    Normal (set_buffer p (accumulatedSamples p ++ samples), lastFrequency p).
Proof.
  intros Hd Hlen. unfold process. rewrite Hd.
  cbn [accumulatedSamples bufferSize set_buffer lastFrequency].
  apply Nat.ltb_lt in Hlen. now rewrite Hlen.
Qed.

Lemma process_silence p detect samples :
  detectPitch p = Some detect ->
  (bufferSize p <= length (accumulatedSamples p ++ samples))%nat ->
  calculateRMS (analysisWindow p samples) < rmsThreshold p ->
  exists p',
    process p samples = Normal (p', None) /\
    lastFrequency p' = None /\
    detectPitch p' = Some detect /\
    bufferSize p' = bufferSize p.
Proof.
  intros Hd Hlen Hrms. unfold process. rewrite Hd.
  cbn [accumulatedSamples bufferSize set_buffer lastFrequency rmsThreshold].
  apply Nat.ltb_ge in Hlen. rewrite Hlen.
  apply Rltb_true in Hrms. unfold analysisWindow in Hrms. rewrite Hrms.
  eexists. split; [reflexivity|]. cbn. auto.
Qed.



Lemma slice_last_all {A} (n : nat) (l : list A) :
  (length l <= n)%nat -> slice_last n l = l.
Proof.
  intros H. unfold slice_last.
  replace (length l - n)%nat with 0%nat by lia. reflexivity.
Qed.

Lemma sum_squares_repeat (x : R) (n : nat) (a : R) :
  fold_left (fun sum y => sum + y * y) (repeat x n) a = a + INR n * (x * x).
Proof.
  revert a. induction n as [|n IH]; intros a.
  - cbn. lra.
  - cbn [repeat fold_left]. rewrite IH, S_INR. lra.
Qed.


Lemma calculateRMS_repeat_1 (n : nat) : calculateRMS (repeat 1 (S n)) = 1.
Proof.
  unfold calculateRMS. rewrite sum_squares_repeat, repeat_length.
  replace ((0 + INR (S n) * (1 * 1)) / INR (S n)) with 1.
  - apply sqrt_1.
  - field. apply not_0_INR. lia.
Qed.

Lemma analysisWindow_ready answer last x :
  analysisWindow (readyDetector answer last) (repeat x 4096) = repeat x 4096.
Proof.
  unfold analysisWindow. cbn [readyDetector set_lastFrequency initialize
    new_PitchDetectorProcessor accumulatedSamples bufferSize app].
  apply slice_last_all. now rewrite repeat_length.
Qed.


End EstimatorClaims.

Section SessionInvariant.
Local Open Scope list_scope.

Lemma findClosestString_In f tuning r :
  findClosestString f tuning = Some r -> In (cl_stringNumber r) (positions tuning).
Proof.
  unfold findClosestString.
  destruct (Rltb f GUITAR_FREQ_MIN || Rltb GUITAR_FREQ_MAX f); [discriminate|].
  cbn zeta.
  destruct (closest_loop_inv f (strings tuning))
    as [(Hn & _) | (g & Hin & Hn & _)]; rewrite Hn; [discriminate|].
  destruct (List.find _ _); [|discriminate].
  intros [= <-]. cbn. unfold positions. now apply in_map.
Qed.

Lemma createPitchResult_closest_In f tuning n :
  closestString (createPitchResult f tuning) = Some n -> In n (positions tuning).
Proof.
  unfold createPitchResult. destruct f as [f|]; [|discriminate].
  destruct (findClosestString f tuning) as [c|] eqn:E; [|discriminate].
  cbn. intros [= <-]. now apply (findClosestString_In f).
Qed.

Lemma process_detectPitch p samples p' f :
  process p samples = Normal (p', f) -> detectPitch p' = detectPitch p.
Proof.
  unfold process. destruct (detectPitch p) as [detect|] eqn:Hd; [|discriminate].
  cbn [accumulatedSamples bufferSize set_buffer lastFrequency rmsThreshold].
  destruct (Nat.ltb _ _); [intros [= <- _]; exact Hd|].
  destruct (Rltb _ _); [intros [= <- _]; exact Hd|].
  destruct (detect _) as [x|]; [|intros [= <- _]; exact Hd].
  destruct (_ && _); intros [= <- _]; exact Hd.
Qed.

Lemma idle_session_inv st : idle st -> session_inv st.
Proof.
  intros (Hs & Hm & Hp & Ht & Hl & Hts). split.
  - intros _. repeat split; assumption.
  - unfold isActive. rewrite Hs. discriminate.
  - intros t n H. rewrite Ht in H. discriminate.
  - intros t r n H. rewrite Ht in H. discriminate.
Qed.

Lemma cleanup_idle st : idle (fst (cleanup st)).
Proof. unfold idle, cleanup. cbn. repeat split. Qed.

Lemma cleanup_tracker st :
  stableString (fst (cleanup st)) = stableString st /\
  stableStartTime (fst (cleanup st)) = stableStartTime st.
Proof. split; reflexivity. Qed.

Lemma snd_startFailure st msg : snd (startFailure st msg) = fst (cleanup st).
Proof.
  unfold startFailure. destruct (includes msg "sox"); [reflexivity|].
  destruct (_ || _); reflexivity.
Qed.

Lemma isActive_false_session st :
  session_inv st -> isActive st = false -> idle st.
Proof. intros [Hi _ _ _] H. exact (Hi H). Qed.

Lemma session_inv_fresh : session_inv tuningManager.
Proof. apply idle_session_inv. unfold idle. cbn. repeat split. Qed.

Lemma startSession_inv env tuningId st :
  session_inv st -> session_inv (snd (startSession env tuningId st)).
Proof.
  intros Hinv. unfold startSession.
  destruct (isActive st) eqn:Hact; [exact Hinv|].
  destruct (isActive_false_session st Hinv Hact)
    as (Hs & Hm & Hp & Ht & Hl & Hts).
  destruct (getTuningById tuningId) as [tuning|] eqn:Htun; [|exact Hinv].
  destruct (checkSoxInstalled env) eqn:Hsox;
    [| rewrite snd_startFailure; apply idle_session_inv, cleanup_idle].
  destruct (pitchfinder env) as [algorithm|] eqn:Hpf;
    [| rewrite snd_startFailure; apply idle_session_inv, cleanup_idle].
  destruct (mic_start env _) as [m'|] eqn:Hstart;
    [| rewrite snd_startFailure; apply idle_session_inv, cleanup_idle].
  cbn [snd]. split.
  - unfold isActive. cbn. discriminate.
  - intros _. eexists _, m', _, tuning.
    cbn [session mic pitchDetector currentTuning set_mic set_pitchDetector
         tuningName].
    repeat split; try reflexivity.
    + unfold mic_start in Hstart. cbn [isRunning mic_on_error mic_on_audio
        new_MicrophoneCapture] in Hstart. rewrite Hsox in Hstart.
      destruct (micFailure env); [discriminate|]. now injection Hstart as <-.
    + eexists. reflexivity.
    + exact (getTuningById_In _ _ Htun).
  - cbn. intros t n _ Hn. rewrite Hts in Hn. now apply not_elem_of_empty in Hn.
  - cbn. intros t r n _ Hr. rewrite Hl in Hr. discriminate.
Qed.

Lemma stopSession_inv st :
  session_inv st -> session_inv (snd (fst (stopSession st))).
Proof.
  intros Hinv. unfold stopSession.
  destruct (isActive st); cbn [negb]; [|exact Hinv].
  destruct (cleanup st) as [st' rel] eqn:E. cbn [fst snd].
  apply idle_session_inv. replace st' with (fst (cleanup st)) by now rewrite E.
  apply cleanup_idle.
Qed.

Lemma onAudio_inv now samples st :
  session_inv st -> session_inv (onAudio now samples st).
Proof.
  intros Hinv. unfold onAudio.
  destruct (pitchDetector st) as [pd|] eqn:Hpd; [|exact Hinv].
  destruct (currentTuning st) as [tuning|] eqn:Htun; [|exact Hinv].
  destruct (process pd samples) as [[pd' freq]|] eqn:Hproc; [|exact Hinv].
  destruct Hinv as [Hi Ha Ht Hl].
  assert (Hact : isActive st = true).
  { destruct (isActive st) eqn:E; [reflexivity|].
    destruct (Hi eq_refl) as (_ & _ & _ & Hc & _). congruence. }
  match goal with
  | |- session_inv (let '(_, _) := ?tr in _) => destruct tr as [stable since]
  end.
  split.
  - unfold isActive in *. cbn [session]. rewrite Hact. discriminate.
  - intros _.
    destruct (Ha Hact)
      as (s & m & pd0 & t & Hs & Hm & Hr & Hp & Hd & Hc & Hin & Hn).
    exists s, m, pd', t. cbn. repeat split; auto; [|congruence].
    rewrite (process_detectPitch _ _ _ _ Hproc).
    replace pd with pd0 by congruence. exact Hd.
  - cbn. intros t n [= <-] Hn. now apply (Ht tuning n).
  - cbn. intros t r n [= <-] [= <-] Hn.
    now apply createPitchResult_closest_In in Hn.
Qed.

Lemma waitForPitch_enter_inv now st st' startTime :
  waitForPitch_enter now st = inr (st', startTime) ->
  session_inv st -> session_inv st'.
Proof.
  unfold waitForPitch_enter. destruct (isActive st) eqn:Hact; cbn [negb];
    [|discriminate].
  intros [= <- _] [Hi Ha Ht Hl]. split; auto.
Qed.

Lemma checkStability_inv startTime timeoutMs now1 now2 st :
  session_inv st ->
  session_inv (fst (checkStability startTime timeoutMs now1 now2 st)).
Proof.
  intros Hinv. unfold checkStability.
  destruct (_ >? _)%Z; [exact Hinv|].
  destruct (isActive st) eqn:Hact; cbn [negb]; [|exact Hinv].
  destruct (stableString st) as [stable|]; [|exact Hinv].
  destruct (lastPitchResult st) as [last|] eqn:Hlast; [|exact Hinv].
  destruct (_ && _ && _); [|exact Hinv].
  cbn [fst]. destruct Hinv as [Hi Ha Ht Hl]. split.
  - unfold isActive in *. cbn [session]. rewrite Hact. discriminate.
  - intros _. exact (Ha Hact).
  - cbn. intros t n Hc Hn.
    destruct (closestString last) as [c|] eqn:Hc'; [|now apply (Ht t n)].
    destruct (inTune last); [|now apply (Ht t n)].
    apply elem_of_union in Hn as [Hn | Hn]; [|now apply (Ht t n)].
    apply elem_of_singleton in Hn as ->. now apply (Hl t last c).
  - cbn. rewrite <- Hlast. exact Hl.
Qed.

Lemma step_inv st st' : step st st' -> session_inv st -> session_inv st'.
Proof.
  intros Hstep. destruct Hstep.
  - apply startSession_inv.
  - apply stopSession_inv.
  - apply onAudio_inv.
  - now apply (waitForPitch_enter_inv now st st' startTime).
  - apply checkStability_inv.
Qed.

Lemma reachable_inv st : reachable st -> session_inv st.
Proof.
  unfold reachable. revert st.
  apply (rtc_ind_r session_inv tuningManager).
  - apply session_inv_fresh.
  - intros y z _ Hstep IH. now apply (step_inv y z).
Qed.

End SessionInvariant.

(** ** A concrete session: the fifth string is played *)

Section Scenario.
Local Open Scope list_scope.

Lemma process_detected p detect samples f :
  detectPitch p = Some detect ->
  (bufferSize p <= length (accumulatedSamples p ++ samples))%nat ->
  (rmsThreshold p <= calculateRMS (analysisWindow p samples))%R ->
  detect (analysisWindow p samples) = Some f ->
  (70 <= f <= 1500)%R ->
  exists p', process p samples = Normal (p', Some f) /\ lastFrequency p' = Some f.
Proof.
  intros Hd Hlen Hrms Hdet [Hlo Hhi]. unfold process. rewrite Hd.
  cbn [accumulatedSamples bufferSize set_buffer lastFrequency rmsThreshold].
  apply Nat.ltb_ge in Hlen. rewrite Hlen.
  apply Rltb_false in Hrms. unfold analysisWindow in Hrms, Hdet.
  rewrite Hrms, Hdet.
  unfold GUITAR_FREQ_MIN, GUITAR_FREQ_MAX.
  apply Rleb_true in Hlo, Hhi. rewrite Hlo, Hhi. cbn [andb].
  eexists. split; reflexivity.
Qed.

Lemma process_A2 :
  exists p',
    process (readyDetector (Some 110%R) None) (repeat 1%R 4096)
    = Normal (p', Some 110%R).
Proof.
  destruct (process_detected (readyDetector (Some 110%R) None)
              (fun _ => Some 110%R) (repeat 1%R 4096) 110%R)
    as (p' & Hp & _).
  - reflexivity.
  - cbn [readyDetector set_lastFrequency initialize
         new_PitchDetectorProcessor accumulatedSamples bufferSize app].
    now rewrite repeat_length.
  - rewrite analysisWindow_ready, (calculateRMS_repeat_1 4095).
    cbn [readyDetector set_lastFrequency initialize
         new_PitchDetectorProcessor rmsThreshold]. lra.
  - reflexivity.
  - lra.
  - now exists p'.
Qed.

Lemma started_state :
  session started =
    Some {| active := true; tuningId := "standard"; tuningName := "Standard";
            startedAt := 0 |} /\
  mic started = Some {| isRunning := true; audioListeners := 1;
                        errorListeners := 1 |} /\
  pitchDetector started = Some (readyDetector (Some 110%R) None) /\
  currentTuning started = Some standard /\
  lastPitchResult started = None /\
  stableString started = None /\
  stableStartTime started = 0 /\
  tunedStrings started = ∅.
Proof. repeat split; reflexivity. Qed.

Lemma playing_A2_state :
  session playing_A2 = session started /\
  mic playing_A2 = mic started /\
  currentTuning playing_A2 = Some standard /\
  lastPitchResult playing_A2 = Some result_A2 /\
  stableString playing_A2 = Some 5 /\
  stableStartTime playing_A2 = 1000 /\
  tunedStrings playing_A2 = ∅.
Proof.
  destruct started_state as (_ & _ & Hpd & Htun & _ & Hst & _ & Hts).
  destruct process_A2 as [p' Hp'].
  unfold playing_A2, onAudio. rewrite Hpd, Htun, Hp'.
  rewrite createPitchResult_110. cbn [closestString]. rewrite Hst.
  rewrite bool_decide_eq_false_2 by discriminate.
  cbn [session mic currentTuning lastPitchResult stableString
       stableStartTime tunedStrings].
  repeat split; auto.
Qed.

Lemma playing_A2_active : isActive playing_A2 = true.
Proof.
  unfold isActive. destruct playing_A2_state as (-> & _). reflexivity.
Qed.

Lemma playing_A2_reachable : reachable playing_A2.
Proof.
  unfold reachable.
  eapply rtc_l; [apply (step_startSession (micAvailable (Some 110%R)) "standard")|].
  eapply rtc_l; [apply (step_onAudio 1000 (repeat 1%R 4096))|].
  apply rtc_refl.
Qed.

End Scenario.

(** ** Session lifecycle: stop and state errors *)

Section LifecycleClaims.
Local Open Scope list_scope.

Lemma stopSession_active st :
  isActive st = true ->
  stopSession st =
    ({| stop_success := true;
        stop_message :=
          ("Stopped tuning session for "
           ++ match session st with Some s => tuningName s | None => "" end
           ++ ". Microphone released.")%string;
        stop_error := None |},
     fst (cleanup st), snd (cleanup st)).
Proof. intros H. unfold stopSession. rewrite H. reflexivity. Qed.

(** C2, as the code has it.  Stopping an active session succeeds and names
    the tuning that was active; the microphone is stopped and loses its
    listeners, the estimator is reset, and both are let go; the session
    record, the current tuning, the cached result and the tuned-string set
    are cleared.  The stability tracker is not among the fields cleared: the
    held string and its start time stay as they were. *)
Theorem stopSession_releases_and_clears (st : TuningSessionManager) :
  reachable st -> isActive st = true ->
  exists s m pd t,
    session st = Some s /\ mic st = Some m /\ pitchDetector st = Some pd /\
    currentTuning st = Some t /\ tuningName s = tuning_name t /\
    let res := fst (fst (stopSession st)) in
    let st' := snd (fst (stopSession st)) in
    let rel := snd (stopSession st) in
    stop_success res = true /\
    stop_message res =
      ("Stopped tuning session for " ++ tuning_name t
       ++ ". Microphone released.")%string /\
    (exists m', released_mic rel = Some m' /\ isRunning m' = false /\
                audioListeners m' = 0%nat /\ errorListeners m' = 0%nat) /\
    (exists pd', released_detector rel = Some pd' /\
                 accumulatedSamples pd' = [] /\ lastFrequency pd' = None) /\
    session st' = None /\ mic st' = None /\ pitchDetector st' = None /\
    currentTuning st' = None /\ lastPitchResult st' = None /\
    tunedStrings st' = ∅ /\
    stableString st' = stableString st /\
    stableStartTime st' = stableStartTime st.
Proof.
  intros Hreach Hact.
  destruct (inv_active st (reachable_inv st Hreach) Hact)
    as (s & m & pd & t & Hs & Hm & Hr & Hp & Hd & Hc & Hin & Hn).
  exists s, m, pd, t. repeat (split; [assumption|]).
  rewrite (stopSession_active st Hact). cbn [fst snd].
  rewrite Hs, Hn. unfold cleanup. cbn [fst snd]. rewrite Hm, Hp.
  cbn [option_map released_mic released_detector stop_success stop_message].
  repeat split; try reflexivity.
  - eexists. split; [reflexivity|]. unfold mic_stop. rewrite Hr. cbn. auto.
  - eexists. split; [reflexivity|]. cbn. auto.
Qed.

Lemma stopSession_releases_and_clears_witness :
  exists t,
    currentTuning playing_A2 = Some t /\
    stop_message (fst (fst (stopSession playing_A2))) =
      ("Stopped tuning session for " ++ tuning_name t
       ++ ". Microphone released.")%string /\
    tunedStrings (snd (fst (stopSession playing_A2))) = ∅.
Proof.
  destruct (stopSession_releases_and_clears playing_A2
              playing_A2_reachable playing_A2_active)
    as (s & m & pd & t & _ & _ & _ & Ht & _ & H).
  cbn zeta in H. destruct H as (_ & Hmsg & _ & _ & _ & _ & _ & _ & _ & Hts & _).
  exists t. auto.
Defined.

(** C2, as the claim has it, fails on the tracker: in the reachable, active
    session [playing_A2] the tracker holds string 5 since time 1000, and
    still does after [stopSession]. *)
Lemma stopSession_keeps_tracker :
  reachable playing_A2 /\ isActive playing_A2 = true /\
  stop_success (fst (fst (stopSession playing_A2))) = true /\
  stableString (snd (fst (stopSession playing_A2))) = Some 5 /\
  stableStartTime (snd (fst (stopSession playing_A2))) = 1000 /\
  ~ (stableString (snd (fst (stopSession playing_A2))) = None /\
     stableStartTime (snd (fst (stopSession playing_A2))) = 0).
Proof.
  destruct playing_A2_state as (_ & _ & _ & _ & Hs & Ht & _).
  rewrite (stopSession_active _ playing_A2_active). cbn [fst snd].
  destruct (cleanup_tracker playing_A2) as [-> ->]. rewrite Hs, Ht.
  repeat split; auto using playing_A2_reachable, playing_A2_active.
  intros [H _]. discriminate.
Qed.

Lemma startSession_already_active env tuningId st s :
  session st = Some s -> active s = true ->
  startSession env tuningId st =
    ({| start_success := false;
        start_message := "A tuning session is already active.";
        start_tuning := None;
        start_error :=
          Some ("Stop the current session first. Currently tuning to: "
                ++ tuningName s)%string |}, st).
Proof.
  intros Hs Ha. unfold startSession, isActive. now rewrite Hs, Ha.
Qed.

Lemma stopSession_idle st :
  isActive st = false ->
  stopSession st =
    ({| stop_success := false;
        stop_message := "No active tuning session";
        stop_error := Some "Call start_tuning first to begin a session." |},
     st, nothing_released).
Proof. intros H. unfold stopSession. now rewrite H. Qed.

Lemma waitForPitch_idle now timeoutMs first evs st :
  isActive st = false ->
  waitForPitch now timeoutMs first evs st =
    (st, Some (WaitError "No active tuning session. Call start_tuning first.")).
Proof. intros H. unfold waitForPitch, waitForPitch_enter. now rewrite H. Qed.

(** C5.  Starting while a session is active fails with the "already
    active" answer, which names the tuning of the active session, and
    leaves the manager as it was.  Stopping, or waiting for a pitch, while
    no session is active fails at once with the "no active session" answer,
    whatever events follow, and leaves the manager as it was. *)
Theorem state_errors_leave_session_unchanged :
  (forall env tuningId st s,
     session st = Some s -> active s = true ->
     startSession env tuningId st =
       ({| start_success := false;
           start_message := "A tuning session is already active.";
           start_tuning := None;
           start_error :=
             Some ("Stop the current session first. Currently tuning to: "
                   ++ tuningName s)%string |}, st)) /\
  (forall st s,
     reachable st -> session st = Some s -> active s = true ->
     exists t, currentTuning st = Some t /\ tuningName s = tuning_name t) /\
  (forall st,
     isActive st = false ->
     stopSession st =
       ({| stop_success := false;
           stop_message := "No active tuning session";
           stop_error := Some "Call start_tuning first to begin a session." |},
        st, nothing_released)) /\
  (forall now timeoutMs first evs st,
     isActive st = false ->
     waitForPitch now timeoutMs first evs st =
       (st, Some (WaitError
                    "No active tuning session. Call start_tuning first."))).
Proof.
  split; [|split; [|split]].
  - apply startSession_already_active.
  - intros st s Hreach Hs Ha.
    assert (Hact : isActive st = true) by (unfold isActive; now rewrite Hs).
    destruct (inv_active st (reachable_inv st Hreach) Hact)
      as (s' & m & pd & t & Hs' & _ & _ & _ & _ & Hc & _ & Hn).
    exists t. split; [assumption|]. congruence.
  - apply stopSession_idle.
  - apply waitForPitch_idle.
Qed.

Lemma state_errors_leave_session_unchanged_witness :
  snd (startSession (micAvailable None) "drop-d" playing_A2) = playing_A2 /\
  start_error (fst (startSession (micAvailable None) "drop-d" playing_A2)) =
    Some "Stop the current session first. Currently tuning to: Standard" /\
  (exists t, currentTuning playing_A2 = Some t /\ tuning_name t = "Standard") /\
  snd (fst (stopSession tuningManager)) = tuningManager /\
  stop_success (fst (fst (stopSession tuningManager))) = false /\
  waitForPitch 0 30000 (0, 0) [EvAudio 5 [1%R]; EvPoll 50 50] tuningManager =
    (tuningManager,
     Some (WaitError "No active tuning session. Call start_tuning first.")).
Proof.
  destruct state_errors_leave_session_unchanged as (Hstart & Hname & Hstop & Hwait).
  destruct playing_A2_state as (Hs & _).
  destruct started_state as (Hs0 & _). rewrite Hs0 in Hs.
  rewrite (Hstart _ _ _ _ Hs eq_refl).
  rewrite (Hstop tuningManager eq_refl).
  rewrite (Hwait 0 30000 (0, 0) _ tuningManager eq_refl).
  destruct (Hname _ _ playing_A2_reachable Hs eq_refl) as (t & Ht & Hn).
  repeat split. exists t. split; [assumption | now rewrite <- Hn].
Defined.

End LifecycleClaims.

(** ** Waiting for a stable pitch *)

Section WaitClaims.
Local Open Scope list_scope.

#[local] Instance descending_total : Total descending.
Proof. intros x y. unfold descending. lia. Qed.

Lemma sortedDescending_spec (s : gset Z) :
  Sorted descending (sortedDescending s) /\
  NoDup (sortedDescending s) /\
  (forall n, n ∈ sortedDescending s <-> n ∈ s) /\
  length (sortedDescending s) = size s.
Proof.
  unfold sortedDescending.
  pose proof (merge_sort_Permutation descending (elements s)) as Hperm.
  split; [|split; [|split]].
  - apply Sorted_merge_sort. apply _.
  - rewrite Hperm. apply NoDup_elements.
  - intros n. rewrite Hperm. apply elem_of_elements.
  - rewrite Hperm. reflexivity.
Qed.

(** What a stable resolution of [checkStability] implies. *)
Lemma checkStability_stable startTime timeoutMs now1 now2 st st' p :
  checkStability startTime timeoutMs now1 now2 st = (st', Some (WaitStable p)) ->
  exists s,
    isActive st = true /\
    stableString st = Some s /\
    0 < stableStartTime st /\
    STABLE_DURATION_MS <= now2 - stableStartTime st /\
    lastPitchResult st = Some (pg_result p) /\
    closestString (pg_result p) = Some s /\
    tunedStrings st' =
      (if inTune (pg_result p) then {[ s ]} ∪ tunedStrings st
       else tunedStrings st) /\
    pg_tunedStrings p = sortedDescending (tunedStrings st') /\
    tunedCount p = size (tunedStrings st') /\
    totalStrings p = 6 /\
    allInTune p = Nat.eqb (size (tunedStrings st')) 6 /\
    session st' = session st /\ currentTuning st' = currentTuning st /\
    lastPitchResult st' = lastPitchResult st /\
    stableString st' = stableString st /\
    stableStartTime st' = stableStartTime st.
Proof.
  unfold checkStability.
  destruct (_ >? _); [discriminate|].
  destruct (isActive st); cbn [negb]; [|discriminate].
  destruct (stableString st) as [stable|]; [|discriminate].
  destruct (lastPitchResult st) as [last|]; [|discriminate].
  destruct (stableStartTime st >? 0) eqn:E1; cbn [andb]; [|discriminate].
  destruct (now2 - stableStartTime st >=? STABLE_DURATION_MS) eqn:E2;
    cbn [andb]; [|discriminate].
  destruct (bool_decide (closestString last = Some stable)) eqn:E3;
    [|discriminate].
  apply bool_decide_eq_true in E3. rewrite E3.
  intros [= <- <-]. exists stable. cbn.
  repeat split; auto; lia.
Qed.

(** With all positions of the tuning distinct and six in number, the tuned
    set has six elements exactly when it contains every position. *)
Lemma size_six_iff (t : TuningPreset) (tuned : gset Z) :
  six_positions t ->
  (forall n, n ∈ tuned -> In n (positions t)) ->
  (Nat.eqb (size tuned) 6 = true <-> forall n, In n (positions t) -> n ∈ tuned).
Proof.
  intros (Hlen & Hnd & _) Hsub. fold (positions t) in Hnd.
  assert (Hsize : size (list_to_set (positions t) : gset Z) = 6%nat).
  { rewrite size_list_to_set by exact Hnd.
    unfold positions. now rewrite length_map. }
  assert (Hincl : tuned ⊆ list_to_set (positions t)).
  { intros n Hn. apply elem_of_list_to_set, list_elem_of_In. auto. }
  rewrite Nat.eqb_eq. split.
  - intros H6 n Hn.
    assert (Heq : tuned = list_to_set (positions t)).
    { apply set_subseteq_size_eq; [exact Hincl | lia]. }
    rewrite Heq. now apply elem_of_list_to_set, list_elem_of_In.
  - intros Hall.
    assert (Heq : tuned = list_to_set (positions t)).
    { apply set_eq. intros n. rewrite elem_of_list_to_set, list_elem_of_In.
      split; auto. }
    now rewrite Heq.
Qed.

(** One poll of a reachable manager that resolves with a reading: the
    conditions it found, the tuned set it leaves and the progress it
    reports. *)
Lemma checkStability_reading
    (st st' : TuningSessionManager) (startTime timeoutMs now1 now2 : Z)
    (p : Progress) :
  reachable st ->
  checkStability startTime timeoutMs now1 now2 st = (st', Some (WaitStable p)) ->
  exists s t,
    stableString st = Some s /\
    0 < stableStartTime st /\
    400 <= now2 - stableStartTime st /\
    lastPitchResult st = Some (pg_result p) /\
    closestString (pg_result p) = Some s /\
    tunedStrings st' =
      (if inTune (pg_result p) then {[ s ]} ∪ tunedStrings st
       else tunedStrings st) /\
    Sorted descending (pg_tunedStrings p) /\
    NoDup (pg_tunedStrings p) /\
    (forall n, n ∈ pg_tunedStrings p <-> n ∈ tunedStrings st') /\
    tunedCount p = size (tunedStrings st') /\
    totalStrings p = 6 /\
    (allInTune p = true <-> tunedCount p = 6%nat) /\
    currentTuning st = Some t /\
    (allInTune p = true <->
     forall n, In n (positions t) -> n ∈ tunedStrings st').
Proof.
  intros Hreach Hcheck.
  assert (Hreach' : reachable st').
  { unfold reachable. eapply rtc_r; [exact Hreach|].
    replace st' with (fst (checkStability startTime timeoutMs now1 now2 st))
      by now rewrite Hcheck.
    apply step_checkStability. }
  destruct (checkStability_stable _ _ _ _ _ _ _ Hcheck)
    as (s & Hact & Hs & Hpos & Hdur & Hlast & Hclose & Htuned & Hsorted
        & Hcount & Htotal & Hall & _ & Hcur & _).
  destruct (inv_active st (reachable_inv st Hreach) Hact)
    as (_ & _ & _ & t & _ & _ & _ & _ & _ & Ht & Hin & _).
  destruct (sortedDescending_spec (tunedStrings st')) as (S1 & S2 & S3 & _).
  exists s, t. rewrite Hsorted.
  repeat (split; [assumption|]).
  split; [rewrite Hall, Hcount; apply Nat.eqb_eq|].
  split; [assumption|].
  rewrite Hall. apply size_six_iff.
  - now apply catalog_six_positions.
  - intros n Hn. apply (inv_tuned st' (reachable_inv st' Hreach') t n); auto.
    now rewrite Hcur.
Qed.

(** In [playing_A2] a check at time 1400, 400 ms after the block, resolves. *)
Lemma checkStability_playing_A2 (startTime : Z) :
  0 <= startTime ->
  exists st' p,
    checkStability startTime 30000 1400 1400 playing_A2
    = (st', Some (WaitStable p)).
Proof.
  intros Hstart.
  destruct playing_A2_state as (_ & _ & _ & Hl & Hs & Ht & _).
  unfold checkStability. rewrite playing_A2_active, Hs, Hl, Ht.
  cbn [negb closestString result_A2 inTune].
  rewrite bool_decide_eq_true_2 by reflexivity.
  replace (1400 - startTime >? 30000) with false by lia.
  change ((1000 >? 0) && (1400 - 1000 >=? STABLE_DURATION_MS)) with true.
  cbn [andb]. eexists _, _. reflexivity.
Qed.

End WaitClaims.

(** ** The tracker during a wait *)

Section TrackerClaims.
Local Open Scope list_scope.

Variables startTime timeoutMs : Z.

Local Abbreviation after := (after_events startTime timeoutMs).
Local Abbreviation apply_ev := (apply_event startTime timeoutMs).
Local Abbreviation held := (held_since startTime timeoutMs).

Lemma after_events_snoc evs ev st :
  after (evs ++ [ev]) st = apply_ev ev (after evs st).
Proof. unfold after_events. now rewrite fold_left_app. Qed.

(** A resolved wait was resolved by one of its polls, on the manager the
    earlier events produced. *)
Lemma wait_loop_resolved evs : forall st st' r,
  wait_loop startTime timeoutMs evs st = (st', Some r) ->
  exists consumed now1 now2 rest,
    evs = consumed ++ EvPoll now1 now2 :: rest /\
    checkStability startTime timeoutMs now1 now2 (after consumed st)
    = (st', Some r).
Proof.
  induction evs as [|ev evs IH]; intros st st' r H; cbn [wait_loop] in H.
  - discriminate.
  - destruct ev as [now samples | | now1 now2].
    + destruct (IH _ _ _ H) as (c & n1 & n2 & rest & -> & Hc).
      exists (EvAudio now samples :: c), n1, n2, rest. split; auto.
    + destruct (IH _ _ _ H) as (c & n1 & n2 & rest & -> & Hc).
      exists (EvStop :: c), n1, n2, rest. split; auto.
    + destruct (checkStability startTime timeoutMs now1 now2 st)
        as [st1 [r1|]] eqn:E.
      * injection H as <- <-. exists [], now1, now2, evs. split; auto.
      * destruct (IH _ _ _ H) as (c & n1 & n2 & rest & -> & Hc).
        exists (EvPoll now1 now2 :: c), n1, n2, rest. split; auto.
        cbn [after_events fold_left apply_event]. now rewrite E.
Qed.

(** Stopping and polling leave the tracker alone. *)
Lemma stopSession_tracker st :
  stableString (snd (fst (stopSession st))) = stableString st /\
  stableStartTime (snd (fst (stopSession st))) = stableStartTime st.
Proof.
  unfold stopSession. destruct (isActive st); cbn [negb]; [|auto].
  split; reflexivity.
Qed.

Lemma checkStability_tracker now1 now2 st :
  stableString (fst (checkStability startTime timeoutMs now1 now2 st))
    = stableString st /\
  stableStartTime (fst (checkStability startTime timeoutMs now1 now2 st))
    = stableStartTime st.
Proof.
  unfold checkStability.
  destruct (_ >? _); [auto|].
  destruct (negb _); [auto|].
  destruct (stableString st) eqn:Hs; [|cbn [fst]; auto].
  destruct (lastPitchResult st); [|cbn [fst]; auto].
  destruct (_ && _ && _); cbn; auto.
Qed.

(** A block either leaves the tracker alone, or starts tracking the string
    it matched, at its own time stamp, or clears the held string. *)
Lemma onAudio_tracker now samples st :
  (stableString (onAudio now samples st) = stableString st /\
   stableStartTime (onAudio now samples st) = stableStartTime st) \/
  (exists r c,
     lastPitchResult (onAudio now samples st) = Some r /\
     closestString r = Some c /\
     stableString (onAudio now samples st) = Some c /\
     stableStartTime (onAudio now samples st) = now) \/
  stableString (onAudio now samples st) = None.
Proof.
  unfold onAudio.
  destruct (pitchDetector st) as [pd|]; [|auto].
  destruct (currentTuning st) as [tuning|]; [|auto].
  destruct (process pd samples) as [[pd' freq]|]; [|auto].
  destruct (closestString (createPitchResult freq tuning)) as [c|] eqn:Hc.
  - destruct (bool_decide (stableString st = Some c)); cbn.
    + left. auto.
    + right. left. eexists _, c. repeat split; auto.
  - right. right. reflexivity.
Qed.

Lemma snoc_split {A} (l1 l2 l : list A) (x : A) :
  l ++ [x] = l1 ++ l2 -> (exists l2', l = l1 ++ l2') \/ l1 = l ++ [x].
Proof.
  intros H. destruct l2 as [|y l2] using rev_ind.
  - right. now rewrite app_nil_r in H.
  - left. rewrite app_assoc in H. apply app_inj_tail in H as [H _].
    now exists l2.
Qed.

Lemma held_since_snoc st0 evs ev s t :
  held st0 evs s t ->
  stableString (after (evs ++ [ev]) st0) = Some s ->
  stableStartTime (after (evs ++ [ev]) st0) = t ->
  held st0 (evs ++ [ev]) s t.
Proof.
  intros (pre & samples & mid & -> & Hread & Hheld) Hs Ht.
  exists pre, samples, (mid ++ [ev]). split; [|split].
  - now rewrite <- app_assoc.
  - exact Hread.
  - intros mid1 mid2 Hsplit.
    destruct (snoc_split mid1 mid2 mid ev Hsplit) as [[l2' ->] | ->].
    + now apply (Hheld mid1 l2').
    + replace (pre ++ EvAudio t samples :: mid ++ [ev])
        with ((pre ++ EvAudio t samples :: mid) ++ [ev])
        by now rewrite <- app_assoc.
      auto.
Qed.

(** From a manager that holds no string, a held string was started by one
    of the blocks and kept by everything after it. *)
Lemma tracker_history st0 evs : forall s,
  stableString st0 = None ->
  stableString (after evs st0) = Some s ->
  held st0 evs s (stableStartTime (after evs st0)).
Proof.
  induction evs as [|ev evs IH] using rev_ind; intros s H0 Hs.
  - cbn in Hs. congruence.
  - assert (Hkeep :
      stableString (after (evs ++ [ev]) st0)
        = stableString (after evs st0) ->
      stableStartTime (after (evs ++ [ev]) st0)
        = stableStartTime (after evs st0) ->
      held st0 (evs ++ [ev]) s
        (stableStartTime (after (evs ++ [ev]) st0))).
    { intros E1 E2. apply held_since_snoc; auto.
      rewrite E2. apply IH; auto. now rewrite <- E1. }
    pose proof (after_events_snoc evs ev st0) as Hsnoc.
    destruct ev as [now samples | | now1 now2]; cbn [apply_event] in Hsnoc.
    + destruct (onAudio_tracker now samples (after evs st0))
        as [[E1 E2] | [(r & c & Hr & Hc & E1 & E2) | E]];
        rewrite <- Hsnoc in *.
      * now apply Hkeep.
      * rewrite E2. rewrite Hs in E1. injection E1 as ->.
        exists evs, samples, []. split; [reflexivity|]. split.
        -- exists r. auto.
        -- intros mid1 mid2 Hm. symmetry in Hm.
           apply app_eq_nil in Hm as [-> _]. auto.
      * congruence.
    + destruct (stopSession_tracker (after evs st0)) as [E1 E2].
      rewrite <- Hsnoc in *. now apply Hkeep.
    + destruct (checkStability_tracker now1 now2 (after evs st0))
        as [E1 E2].
      rewrite <- Hsnoc in *. now apply Hkeep.
Qed.

End TrackerClaims.

Section ResetClaims.
Local Open Scope list_scope.

Lemma checkStability_pending startTime timeoutMs now1 now2 st st' :
  checkStability startTime timeoutMs now1 now2 st = (st', None) -> st' = st.
Proof.
  unfold checkStability.
  destruct (_ >? _); [discriminate|].
  destruct (negb _); [discriminate|].
  destruct (stableString st); [|now intros [= <-]].
  destruct (lastPitchResult st); [|now intros [= <-]].
  destruct (_ && _ && _); [discriminate | now intros [= <-]].
Qed.

Lemma checkStability_no_string startTime timeoutMs now1 now2 st st' p :
  stableString st = None ->
  checkStability startTime timeoutMs now1 now2 st <> (st', Some (WaitStable p)).
Proof.
  intros Hnone H. apply checkStability_stable in H as (s & _ & Hs & _).
  congruence.
Qed.

Lemma waitForPitch_active now timeoutMs first evs st :
  isActive st = true ->
  waitForPitch now timeoutMs first evs st =
    wait_loop now timeoutMs (EvPoll (fst first) (snd first) :: evs)
              (set_stable st None 0).
Proof. intros H. unfold waitForPitch, waitForPitch_enter. now rewrite H. Qed.

(** A stable resolution of the whole call comes from a poll among the
    events, on the manager that the reset and the earlier events produced. *)
Lemma waitForPitch_stable_poll now timeoutMs first evs st st' p :
  waitForPitch now timeoutMs first evs st = (st', Some (WaitStable p)) ->
  isActive st = true /\
  exists consumed now1 now2 rest,
    evs = consumed ++ EvPoll now1 now2 :: rest /\
    checkStability now timeoutMs now1 now2
      (after_events now timeoutMs consumed (set_stable st None 0))
    = (st', Some (WaitStable p)).
Proof.
  intros H. destruct (isActive st) eqn:Hact.
  - split; [reflexivity|]. rewrite waitForPitch_active in H by exact Hact.
    cbn [wait_loop] in H.
    destruct (checkStability now timeoutMs (fst first) (snd first)
                (set_stable st None 0)) as [st1 [r|]] eqn:E.
    + injection H as <- ->.
      now apply checkStability_no_string in E.
    + apply checkStability_pending in E as ->.
      now apply wait_loop_resolved.
  - rewrite waitForPitch_idle in H by exact Hact. discriminate.
Qed.

Lemma after_events_reachable startTime timeoutMs evs : forall st,
  reachable st -> reachable (after_events startTime timeoutMs evs st).
Proof.
  induction evs as [|ev evs IH]; intros st Hst; [exact Hst|].
  cbn [after_events fold_left]. apply IH.
  unfold reachable. eapply rtc_r; [exact Hst|].
  destruct ev; cbn [apply_event].
  - apply step_onAudio.
  - apply step_stopSession.
  - apply step_checkStability.
Qed.

Lemma waitForPitch_enter_reachable st :
  reachable st -> isActive st = true -> reachable (set_stable st None 0).
Proof.
  intros Hst Hact. unfold reachable. eapply rtc_r; [exact Hst|].
  apply (step_waitForPitch_enter 0 st _ 0).
  unfold waitForPitch_enter. now rewrite Hact.
Qed.

(** C4.  When a call of [waitForPitch] on a reachable manager resolves with
    a reading, it does so at a poll at which the tracker holds a string [s];
    a block delivered since the call began matched [s] and the tracker has
    held [s] from that block on, through every later event; the poll read
    the clock at least 400 ms after the block's time stamp; and the cached
    result is the one returned and matches [s].  The tuned set gains [s]
    exactly when the reading is in tune.  The result lists the tuned
    positions in descending order without repetition, their count, the
    total 6, and [allInTune], which is true exactly when the count is 6,
    that is, exactly when every position of the session's tuning is in the
    tuned set. *)
Theorem waitForPitch_stable_reading
    (st st' : TuningSessionManager) (now timeoutMs : Z) (first : Z * Z)
    (evs : list WaitEvent) (p : Progress) :
  reachable st ->
  waitForPitch now timeoutMs first evs st = (st', Some (WaitStable p)) ->
  exists consumed now1 now2 rest s t,
    evs = consumed ++ EvPoll now1 now2 :: rest /\
    let st0 := after_events now timeoutMs consumed (set_stable st None 0) in
    stableString st0 = Some s /\
    held_since now timeoutMs (set_stable st None 0) consumed s
               (stableStartTime st0) /\
    400 <= now2 - stableStartTime st0 /\
    lastPitchResult st0 = Some (pg_result p) /\
    closestString (pg_result p) = Some s /\
    tunedStrings st' =
      (if inTune (pg_result p) then {[ s ]} ∪ tunedStrings st0
       else tunedStrings st0) /\
    Sorted descending (pg_tunedStrings p) /\
    NoDup (pg_tunedStrings p) /\
    (forall n, n ∈ pg_tunedStrings p <-> n ∈ tunedStrings st') /\
    tunedCount p = size (tunedStrings st') /\
    totalStrings p = 6 /\
    (allInTune p = true <-> tunedCount p = 6%nat) /\
    currentTuning st0 = Some t /\
    (allInTune p = true <->
     forall n, In n (positions t) -> n ∈ tunedStrings st').
Proof.
  intros Hreach Hwait.
  destruct (waitForPitch_stable_poll _ _ _ _ _ _ _ Hwait)
    as (Hact & consumed & n1 & n2 & rest & Hevs & Hcheck).
  assert (Hreach0 :
    reachable (after_events now timeoutMs consumed (set_stable st None 0))).
  { apply after_events_reachable. now apply waitForPitch_enter_reachable. }
  destruct (checkStability_reading _ _ _ _ _ _ _ Hreach0 Hcheck)
    as (s & t & Hs & Hpos & H).
  exists consumed, n1, n2, rest, s, t. cbn zeta.
  split; [exact Hevs|]. split; [exact Hs|]. split; [|exact H].
  now apply tracker_history.
Qed.

(** C10.  On an active session [waitForPitch] begins by resetting the
    tracker: no held string, start time 0.  What the tracker held before
    the call has no effect on the call.  The check made at once, before any
    event, never resolves with a reading.  When the call does resolve with a
    reading of string [s], a block delivered during the call matched [s],
    the tracker has held [s] since that block through every later event up to
    the resolving poll, and that poll read the clock at least 400 ms after
    the block's time stamp. *)
Theorem waitForPitch_resets_tracker :
  (forall now st,
     isActive st = true ->
     exists st1,
       waitForPitch_enter now st = inr (st1, now) /\
       stableString st1 = None /\ stableStartTime st1 = 0 /\
       st1 = set_stable st None 0) /\
  (forall now timeoutMs first evs st held since,
     isActive st = true ->
     waitForPitch now timeoutMs first evs (set_stable st held since)
     = waitForPitch now timeoutMs first evs st) /\
  (forall now timeoutMs first st st' p,
     waitForPitch now timeoutMs first [] st <> (st', Some (WaitStable p))) /\
  (forall now timeoutMs first evs st st' p,
     waitForPitch now timeoutMs first evs st = (st', Some (WaitStable p)) ->
     exists s consumed now1 now2 rest,
       evs = consumed ++ EvPoll now1 now2 :: rest /\
       closestString (pg_result p) = Some s /\
       stableString st' = Some s /\
       400 <= now2 - stableStartTime st' /\
       held_since now timeoutMs (set_stable st None 0) consumed s
                  (stableStartTime st')).
Proof.
  split; [|split; [|split]].
  - intros now st Hact. exists (set_stable st None 0).
    unfold waitForPitch_enter. rewrite Hact. auto.
  - intros now timeoutMs first evs st held since Hact.
    rewrite !waitForPitch_active by exact Hact. reflexivity.
  - intros now timeoutMs first st st' p H.
    apply waitForPitch_stable_poll in H
      as (_ & consumed & n1 & n2 & rest & Hevs & _).
    destruct consumed; discriminate.
  - intros now timeoutMs first evs st st' p H.
    apply waitForPitch_stable_poll in H
      as (_ & consumed & n1 & n2 & rest & Hevs & Hcheck).
    destruct (checkStability_stable _ _ _ _ _ _ _ Hcheck)
      as (s & _ & Hs & _ & Hdur & _ & Hclose & _ & _ & _ & _ & _ & _ & _ & _
          & Hs' & Ht').
    exists s, consumed, n1, n2, rest. rewrite Hs', Ht'.
    repeat split; auto.
    apply tracker_history; auto.
Qed.

Lemma checkStability_nothing_held startTime timeoutMs now1 now2 st :
  now1 - startTime <= timeoutMs -> isActive st = true ->
  stableString st = None ->
  checkStability startTime timeoutMs now1 now2 st = (st, None).
Proof.
  intros Ht Ha Hs. unfold checkStability. rewrite Ha, Hs.
  replace (now1 - startTime >? timeoutMs) with false by lia. reflexivity.
Qed.

(** A call on [started]: the block arrives at 1000, the timer fires at 1400. *)
Lemma waitForPitch_started_run :
  exists st' p,
    waitForPitch 900 30000 (900, 900)
      [EvAudio 1000 (repeat 1%R 4096); EvPoll 1400 1400] started
    = (st', Some (WaitStable p)).
Proof.
  rewrite waitForPitch_active by reflexivity.
  change (set_stable started None 0) with started.
  cbn [wait_loop fst snd].
  rewrite checkStability_nothing_held by (reflexivity || lia).
  destruct (checkStability_playing_A2 900 ltac:(lia)) as (st' & p & H).
  fold playing_A2. rewrite H. now exists st', p.
Qed.

Lemma started_reachable : reachable started.
Proof.
  unfold reachable.
  eapply rtc_l; [apply (step_startSession (micAvailable (Some 110%R)) "standard")|].
  apply rtc_refl.
Qed.

Lemma waitForPitch_stable_reading_witness :
  exists st' p s,
    waitForPitch 900 30000 (900, 900)
      [EvAudio 1000 (repeat 1%R 4096); EvPoll 1400 1400] started
    = (st', Some (WaitStable p)) /\
    closestString (pg_result p) = Some s /\
    tunedCount p = size (tunedStrings st') /\
    (allInTune p = true <-> tunedCount p = 6%nat).
Proof.
  destruct waitForPitch_started_run as (st' & p & Hrun).
  destruct (waitForPitch_stable_reading _ _ _ _ _ _ _ started_reachable Hrun)
    as (consumed & n1 & n2 & rest & s & t & _ & H).
  cbn zeta in H.
  destruct H as (_ & _ & _ & _ & Hclose & _ & _ & _ & _ & Hcount & _ & Hall & _).
  now exists st', p, s.
Defined.

Lemma waitForPitch_resets_tracker_witness :
  (exists st1,
     waitForPitch_enter 2000 playing_A2 = inr (st1, 2000) /\
     stableString st1 = None /\ stableStartTime st1 = 0) /\
  waitForPitch 900 30000 (900, 900)
    [EvAudio 1000 (repeat 1%R 4096); EvPoll 1400 1400]
    (set_stable started (Some 3) 500)
  = waitForPitch 900 30000 (900, 900)
      [EvAudio 1000 (repeat 1%R 4096); EvPoll 1400 1400] started /\
  exists st' p s,
    waitForPitch 900 30000 (900, 900)
      [EvAudio 1000 (repeat 1%R 4096); EvPoll 1400 1400] started
    = (st', Some (WaitStable p)) /\
    closestString (pg_result p) = Some s /\
    stableString st' = Some s.
Proof.
  destruct waitForPitch_resets_tracker as (Henter & Hsame & _ & Hheld).
  split; [|split].
  - destruct (Henter 2000 playing_A2 playing_A2_active)
      as (st1 & H1 & H2 & H3 & _).
    now exists st1.
  - apply Hsame. reflexivity.
  - destruct waitForPitch_started_run as (st' & p & Hrun).
    destruct (Hheld _ _ _ _ _ _ _ Hrun)
      as (s & consumed & n1 & n2 & rest & _ & Hclose & Hs & _).
    now exists st', p, s.
Defined.

End ResetClaims.

(* ================================================================== *)
(** * Further properties of the code *)
(* ================================================================== *)

(** ** Cents and equal temperament *)

Section CentsProperties.
Local Open Scope R_scope.
Local Open Scope list_scope.

Lemma Math_log2_2 : Math_log2 2 = 1.
Proof. unfold Math_log2. field. pose proof ln2_pos. lra. Qed.


Lemma Math_log2_pos_iff x : 0 < x -> (0 < Math_log2 x <-> 1 < x).
Proof.
  intros Hx. unfold Math_log2. pose proof ln2_pos as H2.
  rewrite <- (ln_lt_iff 1 x) by lra. rewrite ln_1. split; intros H.
  - apply (Rmult_lt_compat_r (ln 2)) in H; [|exact H2].
    replace (ln x / ln 2 * ln 2) with (ln x) in H by (field; lra). lra.
  - apply Rdiv_lt_0_compat; lra.
Qed.

(** X1.  A frequency is zero cents from itself, its double is 1200 cents
    above it and it is 1200 cents below its double. *)
Theorem calculateCents_octave (f : R) :
  0 < f ->
  calculateCents f f = 0 /\
  calculateCents (2 * f) f = 1200 /\
  calculateCents f (2 * f) = -1200.
Proof.
  intros Hf. split; [now apply calculateCents_same|].
  assert (H2 : calculateCents (2 * f) f = 1200).
  { unfold calculateCents. replace (2 * f / f) with 2 by (field; lra).
    rewrite Math_log2_2. lra. }
  split; [exact H2|].
  rewrite (calculateCents_swap (2 * f) f) by lra. lra.
Qed.

Lemma calculateCents_octave_witness :
  calculateCents 440 440 = 0 /\
  calculateCents (2 * 440) 440 = 1200 /\
  calculateCents 440 (2 * 440) = -1200.
Proof. apply calculateCents_octave. lra. Defined.






End CentsProperties.

(** ** The catalog and its lookups *)

Section CatalogProperties.
Local Open Scope R_scope.
Local Open Scope list_scope.

Lemma powerRZ_2_neg31 : powerRZ 2 (38 - 69) = / 2 ^ 31.
Proof. reflexivity. Qed.

Lemma frequency_midi_38 nm oct : frequency (note nm oct 38) = 73.42.
Proof.
  unfold note; cbn [frequency].
  rewrite (midiToFrequency_round _ 7342%Z);
    [ lra | lra | rewrite powerRZ_2_neg31; lra | rewrite powerRZ_2_neg31; lra ].
Qed.

(** X5.  The targets of standard tuning are the frequencies its reference
    comment lists, strings 6 to 1: 82.41, 110.00, 146.83, 196.00, 246.94 and
    329.63 Hz.  Drop D differs from it only in string 6, which is 73.42 Hz. *)
Theorem standard_and_drop_d_frequencies :
  List.map (fun s => (stringNumber s, frequency (note_of s))) (strings standard)
  = [(6%Z, 82.41); (5%Z, 110); (4%Z, 146.83);
     (3%Z, 196); (2%Z, 246.94); (1%Z, 329.63)] /\
  List.tl (strings drop_d) = List.tl (strings standard) /\
  List.map (fun s => (stringNumber s, frequency (note_of s)))
           (List.firstn 1 (strings drop_d))
  = [(6%Z, 73.42)].
Proof.
  split; [|split].
  - unfold standard.
    cbn [strings List.map stringNumber note_of gs].
    now rewrite frequency_midi_40, frequency_midi_45, frequency_midi_50,
      frequency_midi_55, frequency_midi_59, frequency_midi_64.
  - reflexivity.
  - unfold drop_d.
    cbn [strings List.map List.firstn stringNumber note_of gs].
    now rewrite frequency_midi_38.
Qed.

(** X6.  In every preset the strings are listed from position 6 down to
    position 1, their MIDI indices strictly increase along that list (so
    position 1 is the highest pitch), and every note's name and octave spell
    its MIDI index. *)
Theorem catalog_strings_ordered (t : TuningPreset) :
  In t TUNING_PRESETS ->
  positions t = [6; 5; 4; 3; 2; 1]%Z /\
  StronglySorted Z.lt (List.map (fun s => midiNumber (note_of s)) (strings t)) /\
  Forall (fun s => spelledMidi (note_of s) = Some (midiNumber (note_of s)))
         (strings t).
Proof.
  intros H. cbn [TUNING_PRESETS In] in H.
  repeat (destruct H as [<- | H]); try contradiction;
    (split; [reflexivity|]; split;
     [ repeat (constructor; [|repeat (constructor; [lia|]); constructor]);
       constructor
     | repeat (constructor; [reflexivity|]); constructor ]).
Qed.

Lemma catalog_strings_ordered_witness :
  positions open_d = [6; 5; 4; 3; 2; 1]%Z /\
  Forall (fun s => spelledMidi (note_of s) = Some (midiNumber (note_of s)))
         (strings open_d).
Proof.
  destruct (catalog_strings_ordered open_d) as (H1 & _ & H3).
  - cbn. tauto.
  - split; assumption.
Defined.

Lemma getTuningIds_eq :
  getTuningIds =
    ["standard"; "drop-d"; "half-step-down"; "open-g"; "open-d"; "dadgad"]%string.
Proof. reflexivity. Qed.

Lemma getTuningById_None_iff i :
  getTuningById i = None <-> ~ In i getTuningIds.
Proof.
  split.
  - intros Hn Hin. destruct (getTuningIds_found i Hin) as [t Ht]. congruence.
  - intros Hnot. destruct (getTuningById i) as [t|] eqn:E; [|reflexivity].
    exfalso. apply Hnot. unfold getTuningIds.
    apply in_map_iff. exists t. split.
    + now apply getTuningById_id.
    + now apply getTuningById_In in E.
Qed.

(** X7.  Looking a preset up by its own id gives that preset back; a lookup
    that succeeds returns a catalog preset with the id asked for; a lookup
    fails exactly for the ids that [getTuningIds] does not list; and the
    listed ids are pairwise distinct. *)
Theorem getTuningById_round_trip :
  (forall t, In t TUNING_PRESETS -> getTuningById (id t) = Some t) /\
  (forall i t, getTuningById i = Some t -> id t = i /\ In t TUNING_PRESETS) /\
  (forall i, getTuningById i = None <-> ~ In i getTuningIds) /\
  NoDup getTuningIds.
Proof.
  split; [|split; [|split]].
  - intros t H. cbn [TUNING_PRESETS In] in H.
    repeat (destruct H as [<- | H]); try contradiction; reflexivity.
  - intros i t H. split; [now apply getTuningById_id | now apply getTuningById_In in H].
  - apply getTuningById_None_iff.
  - rewrite getTuningIds_eq. apply (bool_decide_unpack _). vm_compute. exact I.
Qed.

Lemma getTuningById_round_trip_witness :
  getTuningById (id half_step_down) = Some half_step_down /\
  getTuningById "unknown-tuning" = None.
Proof.
  destruct getTuningById_round_trip as (H1 & _ & H3 & _). split.
  - apply H1. cbn. tauto.
  - apply H3. rewrite getTuningIds_eq. cbn [In].
    intros H. repeat (destruct H as [H | H]; [discriminate|]). exact H.
Defined.

(** X8.  [list_tunings] shows the catalog in order: its ids are
    [getTuningIds], every entry is the preset that [getTuningById] returns
    for its id, with that preset's name and description, and its strings
    are the six note labels from position 6 to 1, separated by blanks. *)
Theorem list_tunings_matches_catalog :
  List.map tl_id tool_list_tunings = getTuningIds /\
  (forall e, In e tool_list_tunings ->
     exists t, getTuningById (tl_id e) = Some t /\
       tl_name e = tuning_name t /\ tl_description e = description t /\
       tl_strings e =
         String.concat " "
           (List.map (fun s => noteLabel (note_of s)) (strings t))) /\
  List.map tl_strings tool_list_tunings =
    ["E2 A2 D3 G3 B3 E4"; "D2 A2 D3 G3 B3 E4"; "Eb2 Ab2 Db3 Gb3 Bb3 Eb4";
     "D2 G2 D3 G3 B3 D4"; "D2 A2 D3 F#3 A3 D4"; "D2 A2 D3 G3 A3 D4"]%string.
Proof.
  split; [|split].
  - unfold tool_list_tunings, getTuningIds. rewrite map_map. reflexivity.
  - intros e He. unfold tool_list_tunings in He.
    apply in_map_iff in He as (t & <- & Ht). exists t. cbn.
    repeat split; try reflexivity.
    cbn [TUNING_PRESETS In] in Ht.
    repeat (destruct Ht as [<- | Ht]); try contradiction; reflexivity.
  - reflexivity.
Qed.

Lemma list_tunings_matches_catalog_witness :
  exists e t, In e tool_list_tunings /\
    getTuningById (tl_id e) = Some t /\ tl_name e = tuning_name t.
Proof.
  destruct list_tunings_matches_catalog as (_ & H & _).
  destruct (H (nth 3 tool_list_tunings
                 {| tl_id := ""; tl_name := ""; tl_description := "";
                    tl_strings := "" |})) as (t & Ht & Hn & _).
  - cbn. tauto.
  - eexists _, t. split; [|split; [exact Ht | exact Hn]]. cbn. tauto.
Defined.

End CatalogProperties.

(** ** More on the frequency matcher *)

Section MatcherProperties.
Local Open Scope R_scope.
Local Open Scope list_scope.

Lemma closest_first_step f seen acc g :
  closest_first_inv f seen acc ->
  closest_first_inv f (seen ++ [g]) (closest_step f acc g).
Proof.
  intros Hinv. unfold closest_step. fold (absCents f g).
  destruct Hinv as [(Hn & Hinf & Hall)
                   | (before & g0 & after & -> & Hn & Hs & Hl & Hle & Hb & Ha)].
  - rewrite Hinf. cbn [lt_CentsDiff andb].
    destruct (Rleb (absCents f g) 100) eqn:E.
    + apply Rleb_true in E.
      right. exists seen, g, []. cbn. repeat split; auto.
      * intros b Hb. specialize (Hall _ Hb). lra.
      * intros a [].
    + apply Rleb_false in E. left. repeat split; auto.
      intros g' Hg'. apply in_app_or in Hg' as [Hg' | [<- | []]]; auto.
  - rewrite Hs. cbn [lt_CentsDiff].
    destruct (Rltb (absCents f g) (absCents f g0)) eqn:E1;
      [destruct (Rleb (absCents f g) 100) eqn:E2 |]; cbn [andb].
    + apply Rltb_true in E1. apply Rleb_true in E2.
      right. exists (before ++ g0 :: after), g, []. cbn.
      repeat split; auto.
      * intros b Hb'. apply in_app_or in Hb' as [Hb' | [<- | Hb']].
        -- specialize (Hb _ Hb'). lra.
        -- exact E1.
        -- specialize (Ha _ Hb'). lra.
      * intros a [].
    + apply Rltb_true in E1. apply Rleb_false in E2. lra.
    + apply Rltb_false in E1.
      right. exists before, g0, (after ++ [g]).
      repeat split; auto.
      * now rewrite <- app_assoc.
      * intros a Ha'. apply in_app_or in Ha' as [Ha' | [<- | []]]; auto.
Qed.

Lemma closest_first_fold f l : forall seen acc,
  closest_first_inv f seen acc ->
  closest_first_inv f (seen ++ l) (fold_left (closest_step f) l acc).
Proof.
  induction l as [|g l IH]; intros seen acc Hinv; cbn [fold_left].
  - now rewrite app_nil_r.
  - replace (seen ++ g :: l) with ((seen ++ [g]) ++ l)
      by (now rewrite <- app_assoc).
    apply IH. now apply closest_first_step.
Qed.

Lemma closest_first_loop f l : closest_first_inv f l (closest_loop f l).
Proof.
  unfold closest_loop. apply (closest_first_fold f l []).
  left. cbn. repeat split; auto. intros g [].
Qed.

(** With distinct positions, the lookup by position finds the string
    itself. *)
Lemma find_stringNumber_unique (l : list GuitarString) g :
  NoDup (List.map stringNumber l) -> In g l ->
  List.find (fun s => Z.eqb (stringNumber s) (stringNumber g)) l = Some g.
Proof.
  induction l as [|a l IH]; intros Hnd Hin; [destruct Hin|].
  cbn [List.map] in Hnd. apply NoDup_cons in Hnd as [Hnot Hnd].
  cbn [List.find]. destruct (Z.eqb (stringNumber a) (stringNumber g)) eqn:E.
  - destruct Hin as [-> | Hin]; [reflexivity|].
    exfalso. apply Hnot. apply Z.eqb_eq in E. rewrite E.
    apply list_elem_of_In. now apply in_map.
  - destruct Hin as [-> | Hin]; [rewrite Z.eqb_refl in E; discriminate|].
    now apply IH.
Qed.

(** One decimal place: the rounded value is within a twentieth of the
    original and keeps a bound by a whole number. *)
Lemma round_1_decimal_close x :
  Rabs (IZR (Math_round (x * 10)) / 10 - x) <= / 20.
Proof.
  pose proof (Math_round_bound (x * 10)) as [H1 H2].
  unfold Rabs. destruct (Rcase_abs _); lra.
Qed.

Lemma round_1_decimal_bound x (b : Z) :
  Rabs x <= IZR b -> Rabs (IZR (Math_round (x * 10)) / 10) <= IZR b.
Proof.
  intros Hx.
  assert (Hx' : - IZR b <= x <= IZR b)
    by (unfold Rabs in Hx; destruct (Rcase_abs x); lra).
  assert (Hlo : (- (b * 10) <= Math_round (x * 10))%Z).
  { unfold Math_round. apply Zfloor_lub.
    rewrite opp_IZR, mult_IZR. lra. }
  assert (Hhi : (Math_round (x * 10) <= b * 10)%Z).
  { pose proof (Math_round_bound (x * 10)) as [H1 _].
    apply Z.lt_succ_r. apply lt_IZR. rewrite succ_IZR, mult_IZR. lra. }
  apply IZR_le in Hlo, Hhi. rewrite opp_IZR, mult_IZR in Hlo.
  rewrite mult_IZR in Hhi.
  unfold Rabs. destruct (Rcase_abs _); lra.
Qed.

Lemma findClosestString_range f tuning r :
  findClosestString f tuning = Some r -> 70 <= f <= 1500.
Proof.
  intros H.
  destruct (Rlt_le_dec f 70) as [Hlo|Hlo];
    [rewrite findClosestString_out_of_range in H by auto; discriminate|].
  destruct (Rlt_le_dec 1500 f) as [Hhi|Hhi];
    [rewrite findClosestString_out_of_range in H by auto; discriminate|].
  lra.
Qed.

Lemma calculateCents_pos f t :
  0 < f -> 0 < t -> 0 < calculateCents f t -> t < f.
Proof.
  intros Hf Ht H. unfold calculateCents in H.
  assert (Hq : 0 < f / t) by (apply Rdiv_lt_0_compat; auto).
  assert (H1 : 1 < f / t) by (apply Math_log2_pos_iff; [auto | lra]).
  apply (Rmult_lt_compat_r t) in H1; [|lra].
  replace (f / t * t) with f in H1 by (field; lra). lra.
Qed.

(** X9.  With distinct positions and positive targets, a result of
    [findClosestString] comes from a frequency in range and names a string
    of the tuning, by its position and its label; no string listed before
    it has the same target.  The reported [centsOff] never exceeds 100 in
    magnitude; when it is positive the frequency is above the target, when
    negative below; and, measured on the frequencies themselves, it is the
    distance to that target up to the 0.05 cents of the rounding to one
    decimal place and [centsTolerance]. *)
Theorem findClosestString_reported_match
    (f : R) (tuning : TuningPreset) (r : Closest) :
  positive_targets tuning ->
  NoDup (positions tuning) ->
  findClosestString f tuning = Some r ->
  70 <= f <= 1500 /\
  exists before g after,
    strings tuning = before ++ g :: after /\
    cl_stringNumber r = stringNumber g /\
    cl_noteName r = noteLabel (note_of g) /\
    (forall b, In b before ->
       frequency (note_of b) <> frequency (note_of g)) /\
    Rabs (centsOff r) <= 100 /\
    (0 < centsOff r -> frequency (note_of g) < f) /\
    (centsOff r < 0 -> f < frequency (note_of g)) /\
    within_cents (Rabs (centsOff r) + / 20 + centsTolerance)
                 f (frequency (note_of g)) /\
    (forall c, within_cents c f (frequency (note_of g)) ->
               Rabs (centsOff r) <= c + / 20 + centsTolerance).
Proof.
  intros Hpos Hnd Hsome. pose proof centsTolerance_pos as Htol.
  pose proof (findClosestString_range f tuning r Hsome) as Hr.
  split; [exact Hr|]. assert (Hf : 0 < f) by lra.
  rewrite findClosestString_in_range in Hsome by exact Hr. cbn zeta in Hsome.
  destruct (closest_first_loop f (strings tuning))
    as [(Hn & _) | (before & g & after & Hsplit & Hn & _ & Hl & Hle & Hb & _)];
    rewrite Hn in Hsome; [discriminate|].
  assert (Hin : In g (strings tuning))
    by (rewrite Hsplit; apply in_or_app; right; now left).
  rewrite (find_stringNumber_unique _ g Hnd Hin) in Hsome.
  injection Hsome as <-. exists before, g, after. cbn.
  pose proof (Hpos g Hin) as Ht.
  set (t := frequency (note_of g)) in *.
  unfold absCents in Hle. fold t in Hle.
  set (x := calculateCents f t) in *.
  pose proof (round_1_decimal_close x) as Hclose.
  pose proof (Math_round_bound (x * 10)) as [Hk1 Hk2].
  split; [exact Hsplit|]. split; [reflexivity|]. split; [exact Hl|].
  split.
  { intros b Hbin Heq. specialize (Hb b Hbin).
    unfold absCents in Hb. rewrite Heq in Hb. fold t in Hb. lra. }
  split; [apply (round_1_decimal_bound _ 100); exact Hle|].
  split.
  { intros Hp. apply calculateCents_pos; [auto | auto |]. fold x.
    assert (Hk : (1 <= Math_round (x * 10))%Z).
    { assert (0 < IZR (Math_round (x * 10))) by lra.
      apply lt_IZR in H. lia. }
    apply IZR_le in Hk. lra. }
  split.
  { intros Hn'. apply calculateCents_pos; [auto | auto |].
    rewrite (calculateCents_swap f t) by auto. fold x.
    assert (Hk : (Math_round (x * 10) <= -1)%Z).
    { assert (IZR (Math_round (x * 10)) < 0) by lra.
      apply lt_IZR in H. lia. }
    apply IZR_le in Hk. lra. }
  assert (Hx : Rabs x <= Rabs (IZR (Math_round (x * 10)) / 10) + / 20).
  { revert Hclose. unfold Rabs. repeat destruct (Rcase_abs _); lra. }
  assert (Hx' : Rabs (IZR (Math_round (x * 10)) / 10) <= Rabs x + / 20).
  { revert Hclose. unfold Rabs. repeat destruct (Rcase_abs _); lra. }
  split.
  - apply within_cents_iff; [auto | auto |]. fold x. lra.
  - intros c Hc. apply within_cents_iff in Hc; [|auto|auto]. fold x in Hc. lra.
Qed.

Lemma findClosestString_reported_match_witness :
  exists r g,
    findClosestString 112 standard = Some r /\
    In g (strings standard) /\ stringNumber g = 5%Z /\
    frequency (note_of g) < 112 /\
    within_cents (Rabs (centsOff r) + / 20 + centsTolerance)
                 112 (frequency (note_of g)).
Proof.
  pose proof (findClosestString_near_A2 112 ltac:(lra)) as Hr.
  assert (Hnd : NoDup (positions standard))
    by (apply (bool_decide_unpack _); vm_compute; exact I).
  destruct (findClosestString_reported_match 112 standard _
              standard_positive Hnd Hr)
    as (_ & before & g & after & Hsplit & Hn & _ & _ & _ & Hsharp & _ & Hw & _).
  eexists _, g. split; [exact Hr|].
  split; [rewrite Hsplit; apply in_or_app; right; now left|].
  split; [symmetry; exact Hn|].
  split; [|exact Hw].
  apply Hsharp. cbn [centsOff].
  assert (Hc : 25 <= calculateCents 112 110).
  { unfold calculateCents.
    replace 25 with (100 * INR 1 / INR 4) by (simpl; lra).
    apply (log2_ge_frac 1 4 (112 / 110)); [lra | lia |].
    change (12 * 4)%nat with 48%nat. lra. }
  pose proof (Math_round_bound (calculateCents 112 110 * 10)) as [_ Hk].
  lra.
Defined.






End MatcherProperties.

(** ** More on the pitch estimator *)

Section EstimatorProperties.
Local Open Scope R_scope.
Local Open Scope list_scope.

Lemma slice_last_length {A} (n : nat) (l : list A) :
  length (slice_last n l) = Nat.min n (length l).
Proof. unfold slice_last. rewrite length_skipn. lia. Qed.

Lemma slice_last_suffix {A} (n : nat) (l : list A) : is_suffix (slice_last n l) l.
Proof.
  unfold is_suffix, slice_last. exists (firstn (length l - n) l).
  now rewrite firstn_skipn.
Qed.

Lemma slice_last_Forall {A} (P : A -> Prop) (n : nat) (l : list A) :
  List.Forall P l -> List.Forall P (slice_last n l).
Proof.
  intros H. apply List.Forall_forall. intros x Hx.
  destruct (slice_last_suffix n l) as [pre Hpre].
  rewrite List.Forall_forall in H. apply H. rewrite Hpre.
  apply in_or_app. now right.
Qed.

(** The cases of [process] on an initialised detector. *)
Lemma process_cases p detect samples :
  detectPitch p = Some detect ->
  let buf := accumulatedSamples p ++ samples in
  (length buf < bufferSize p)%nat /\
    process p samples = Normal (set_buffer p buf, lastFrequency p)
  \/
  (bufferSize p <= length buf)%nat /\
    exists r,
      process p samples =
        Normal (set_lastFrequency
                  (set_buffer p (slice_last (bufferSize p / 2) buf)) r, r) /\
      (r = None \/ r = lastFrequency p \/
       exists f, r = Some f /\ 70 <= f <= 1500 /\
                 detect (analysisWindow p samples) = Some f).
Proof.
  intros Hd. cbn zeta. unfold process. rewrite Hd.
  cbn [accumulatedSamples bufferSize set_buffer lastFrequency rmsThreshold].
  destruct (Nat.ltb (length (accumulatedSamples p ++ samples)) (bufferSize p))
    eqn:Hlen.
  - left. apply Nat.ltb_lt in Hlen. auto.
  - right. apply Nat.ltb_ge in Hlen. split; [exact Hlen|].
    fold (analysisWindow p samples).
    destruct (Rltb _ _).
    + exists None. split; [reflexivity | auto].
    + destruct (detect (analysisWindow p samples)) as [f|] eqn:Hdet.
      * destruct (Rleb GUITAR_FREQ_MIN f && Rleb f GUITAR_FREQ_MAX) eqn:E.
        -- exists (Some f). split; [reflexivity|]. right. right.
           exists f. apply andb_true_iff in E as [E1 E2].
           apply Rleb_true in E1, E2.
           unfold GUITAR_FREQ_MIN, GUITAR_FREQ_MAX in *. auto.
        -- exists (lastFrequency p). split; [|auto].
           unfold set_lastFrequency, set_buffer. cbn. reflexivity.
      * exists (lastFrequency p). split; [|auto].
        unfold set_lastFrequency, set_buffer. cbn. reflexivity.
Qed.

(** X12.  [process] throws exactly when the detector was never
    initialised, always with the same message; on an initialised detector
    it returns normally for every block of samples. *)
Theorem process_throws_iff_uninitialised
    (p : PitchDetectorProcessor) (samples : list R) :
  (detectPitch p = None ->
   process p samples =
     Throw "PitchDetector not initialized. Call initialize() first.") /\
  (detectPitch p <> None ->
   exists p' r, process p samples = Normal (p', r)) /\
  (forall msg, process p samples = Throw msg -> detectPitch p = None).
Proof.
  split; [|split].
  - intros Hd. unfold process. now rewrite Hd.
  - intros Hd. destruct (detectPitch p) as [detect|] eqn:E; [|congruence].
    destruct (process_cases p detect samples E)
      as [[_ H] | [_ (r & H & _)]]; rewrite H; eauto.
  - intros msg H. destruct (detectPitch p) as [detect|] eqn:E; [|reflexivity].
    destruct (process_cases p detect samples E)
      as [[_ H'] | [_ (r & H' & _)]]; rewrite H' in H; discriminate.
Qed.

Lemma process_throws_iff_uninitialised_witness :
  process (new_PitchDetectorProcessor 44100) (repeat 0 1024) =
    Throw "PitchDetector not initialized. Call initialize() first." /\
  exists p' r, process (readyDetector None None) (repeat 0 512) = Normal (p', r).
Proof.
  split.
  - apply process_throws_iff_uninitialised. reflexivity.
  - apply process_throws_iff_uninitialised. discriminate.
Defined.

(** X13.  A call of [process] that returns leaves the algorithm, the window
    size, the threshold and the sample rate as they were, and the buffer it
    keeps is a suffix of the old buffer followed by the new block: all of it
    while it is shorter than the window, and otherwise its last
    [bufferSize / 2] samples, so that the buffer kept is always shorter
    than the window.  The window has at least two samples; the
    constructor's has 4096. *)
Theorem process_buffer
    (p p' : PitchDetectorProcessor) (samples : list R) (r : option R) :
  (2 <= bufferSize p)%nat ->
  process p samples = Normal (p', r) ->
  detectPitch p' = detectPitch p /\ bufferSize p' = bufferSize p /\
  rmsThreshold p' = rmsThreshold p /\ sampleRate p' = sampleRate p /\
  is_suffix (accumulatedSamples p') (accumulatedSamples p ++ samples) /\
  ((length (accumulatedSamples p ++ samples) < bufferSize p)%nat /\
     accumulatedSamples p' = accumulatedSamples p ++ samples
   \/
   (bufferSize p <= length (accumulatedSamples p ++ samples))%nat /\
     accumulatedSamples p' =
       slice_last (bufferSize p / 2) (accumulatedSamples p ++ samples) /\
     length (accumulatedSamples p') = (bufferSize p / 2)%nat) /\
  (length (accumulatedSamples p') < bufferSize p)%nat.
Proof.
  intros Hpos H.
  destruct (detectPitch p) as [detect|] eqn:Hd;
    [|unfold process in H; rewrite Hd in H; discriminate].
  destruct (process_cases p detect samples Hd)
    as [[Hlen H'] | [Hlen (r' & H' & _)]];
    rewrite H' in H; injection H as <- <-;
    cbn [detectPitch bufferSize rmsThreshold sampleRate accumulatedSamples
         set_lastFrequency set_buffer];
    (repeat split; auto).
  - exists []. reflexivity.
  - apply slice_last_suffix.
  - right. repeat split; auto.
    rewrite slice_last_length.
    assert (Hhalf : (bufferSize p / 2 <= bufferSize p)%nat)
      by (apply Nat.Div0.div_le_upper_bound; lia).
    apply Nat.min_l. exact (Nat.le_trans _ _ _ Hhalf Hlen).
  - rewrite slice_last_length.
    assert (Hhalf : (bufferSize p / 2 < bufferSize p)%nat)
      by (apply Nat.div_lt; lia).
    eapply Nat.le_lt_trans; [apply Nat.le_min_l | exact Hhalf].
Qed.

Lemma process_buffer_witness :
  exists p' r,
    process (readyDetector None None) (repeat 1 4096) = Normal (p', r) /\
    length (accumulatedSamples p') = 2048%nat.
Proof.
  assert (Hp : exists p' r,
            process (readyDetector None None) (repeat 1 4096) = Normal (p', r)).
  { destruct (process_cases (readyDetector None None) (fun _ => None)
                (repeat 1 4096) eq_refl)
      as [[_ H] | [_ (r & H & _)]]; rewrite H; eauto. }
  destruct Hp as (p' & r & Hp).
  exists p', r. split; [exact Hp|].
  assert (Hsize : (2 <= bufferSize (readyDetector None None))%nat)
    by (cbn; lia).
  destruct (process_buffer _ _ _ _ Hsize Hp)
    as (_ & _ & _ & _ & _ & [[Hlt _] | (_ & _ & Hlen)] & _).
  - cbn [readyDetector set_lastFrequency initialize
         new_PitchDetectorProcessor accumulatedSamples bufferSize app] in Hlt.
    rewrite repeat_length in Hlt. lia.
  - exact Hlen.
Defined.

(** X14.  What [process] returns is what the detector remembers
    afterwards, and when the frequency remembered before was absent or inside
    70-1500 Hz, so is the one returned: nothing outside the instrument range
    ever comes out of the estimator. *)
Theorem process_result_in_range
    (p p' : PitchDetectorProcessor) (samples : list R) (r : option R) :
  process p samples = Normal (p', r) ->
  r = getLastFrequency p' /\
  (in_guitar_range (lastFrequency p) -> in_guitar_range r).
Proof.
  intros H.
  destruct (detectPitch p) as [detect|] eqn:Hd;
    [|unfold process in H; rewrite Hd in H; discriminate].
  destruct (process_cases p detect samples Hd)
    as [[_ H'] | [_ (r' & H' & Hr)]];
    rewrite H' in H; injection H as <- <-; (split; [reflexivity|]).
  - auto.
  - intros Hin. destruct Hr as [-> | [-> | (f & -> & Hf & _)]]; cbn; auto.
Qed.

Lemma process_result_in_range_witness :
  exists p' r,
    process (readyDetector (Some 2000) (Some 110)) (repeat 1 4096)
      = Normal (p', r) /\
    r = getLastFrequency p' /\ in_guitar_range r.
Proof.
  assert (Hp : exists p' r,
            process (readyDetector (Some 2000) (Some 110)) (repeat 1 4096)
            = Normal (p', r)).
  { destruct (process_cases (readyDetector (Some 2000) (Some 110))
                (fun _ => Some 2000) (repeat 1 4096) eq_refl)
      as [[_ H] | [_ (r & H & _)]]; rewrite H; eauto. }
  destruct Hp as (p' & r & Hp). exists p', r. split; [exact Hp|].
  destruct (process_result_in_range _ _ _ _ Hp) as [H1 H2].
  split; [exact H1|]. apply H2. cbn. lra.
Defined.



Lemma sum_squares_bound (a : R) (l : list R) : forall acc,
  List.Forall (fun x => Rabs x <= a) l ->
  fold_left (fun sum x => sum + x * x) l acc <= acc + INR (length l) * (a * a).
Proof.
  induction l as [|x l IH]; intros acc H.
  - cbn. lra.
  - inversion H as [|? ? Hx Hl]; subst.
    cbn [fold_left length]. rewrite S_INR.
    specialize (IH (acc + x * x) Hl).
    assert (x * x <= a * a).
    { assert (Hsq : Rsqr x <= Rsqr a).
      { apply Rsqr_le_abs_1. rewrite (Rabs_pos_eq a); [exact Hx|].
        pose proof (Rabs_pos x). lra. }
      exact Hsq. }
    lra.
Qed.

Lemma sum_squares_nonneg (l : list R) : forall acc,
  0 <= acc -> 0 <= fold_left (fun sum x => sum + x * x) l acc.
Proof.
  induction l as [|x l IH]; intros acc H; cbn [fold_left]; [exact H|].
  apply IH. pose proof (Rle_0_sqr x) as Hx. unfold Rsqr in Hx. lra.
Qed.

Lemma calculateRMS_le (a : R) (l : list R) :
  l <> [] -> List.Forall (fun x => Rabs x <= a) l -> calculateRMS l <= a.
Proof.
  intros Hne Hall. unfold calculateRMS.
  assert (Hn : 0 < INR (length l)).
  { apply lt_0_INR. destruct l; [congruence | cbn; lia]. }
  assert (Ha : 0 <= a).
  { destruct l as [|x l]; [congruence|].
    inversion Hall; subst. pose proof (Rabs_pos x). lra. }
  pose proof (sum_squares_bound a l 0 Hall) as Hsum.
  rewrite <- (sqrt_square a) by exact Ha.
  apply sqrt_le_1_alt.
  apply (Rmult_le_reg_r (INR (length l))); [exact Hn|].
  unfold Rdiv. rewrite Rmult_assoc, Rinv_l by lra. lra.
Qed.



(** X17.  A full window, of at least two samples, in which every sample
    stays, in magnitude, under a bound below the threshold is treated as
    silence, whatever the algorithm would detect in it: [process] returns
    nothing and forgets the remembered frequency. *)
Theorem process_quiet_window
    (p : PitchDetectorProcessor) (detect : PitchDetector)
    (samples : list R) (a : R) :
  detectPitch p = Some detect ->
  (2 <= bufferSize p)%nat ->
  (bufferSize p <= length (accumulatedSamples p ++ samples))%nat ->
  a < rmsThreshold p ->
  List.Forall (fun x => Rabs x <= a) (accumulatedSamples p ++ samples) ->
  exists p', process p samples = Normal (p', None) /\
             getLastFrequency p' = None.
Proof.
  intros Hd Hpos Hlen Ha Hall.
  destruct (process_silence p detect samples Hd Hlen) as (p' & Hp & Hl & _).
  - apply Rle_lt_trans with a; [|exact Ha].
    apply calculateRMS_le.
    + intros Hnil. unfold analysisWindow in Hnil.
      apply (f_equal (@length R)) in Hnil.
      rewrite slice_last_length in Hnil. cbn [length] in Hnil. lia.
    + unfold analysisWindow. now apply slice_last_Forall.
  - now exists p'.
Qed.

Lemma process_quiet_window_witness :
  exists p',
    process (readyDetector (Some 110) (Some 110)) (repeat (1 / 1000) 4096)
      = Normal (p', None) /\
    getLastFrequency p' = None.
Proof.
  apply (process_quiet_window (readyDetector (Some 110) (Some 110))
           (fun _ => Some 110) _ (1 / 1000)).
  - reflexivity.
  - cbn. lia.
  - cbn [readyDetector set_lastFrequency initialize
         new_PitchDetectorProcessor accumulatedSamples bufferSize app].
    now rewrite repeat_length.
  - cbn [readyDetector set_lastFrequency initialize
         new_PitchDetectorProcessor rmsThreshold]. lra.
  - cbn [readyDetector set_lastFrequency initialize
         new_PitchDetectorProcessor accumulatedSamples app].
    apply List.Forall_forall. intros x Hx. apply repeat_spec in Hx. subst.
    rewrite Rabs_pos_eq; lra.
Defined.

(** X18.  [reset] empties the buffer and forgets the frequency, whatever
    they were, and keeps the algorithm and the settings; resetting twice is
    resetting once; and after a reset a block shorter than the window gives
    no frequency. *)
Theorem reset_forgets
    (p : PitchDetectorProcessor) (detect : PitchDetector) (samples : list R) :
  accumulatedSamples (reset p) = [] /\
  getLastFrequency (reset p) = None /\
  detectPitch (reset p) = detectPitch p /\
  bufferSize (reset p) = bufferSize p /\
  rmsThreshold (reset p) = rmsThreshold p /\
  (forall buf f, reset (set_lastFrequency (set_buffer p buf) f) = reset p) /\
  reset (reset p) = reset p /\
  (detectPitch p = Some detect ->
   (length samples < bufferSize p)%nat ->
   exists p', process (reset p) samples = Normal (p', None) /\
              accumulatedSamples p' = samples).
Proof.
  repeat split; try reflexivity.
  intros Hd Hlen.
  rewrite (process_accumulating (reset p) detect samples Hd Hlen).
  eexists. split; reflexivity.
Qed.

Lemma reset_forgets_witness :
  exists p',
    process (reset (readyDetector (Some 110) (Some 110))) (repeat 1 512)
      = Normal (p', None) /\
    accumulatedSamples p' = repeat 1 512.
Proof.
  destruct (reset_forgets (readyDetector (Some 110) (Some 110))
              (fun _ => Some 110) (repeat 1 512))
    as (_ & _ & _ & _ & _ & _ & _ & H).
  apply H.
  - reflexivity.
  - rewrite repeat_length. cbn. lia.
Defined.

(** X19.  While the buffer stays shorter than the window, feeding a block
    and then another is feeding the two blocks at once: the estimator is
    indifferent to how the stream is cut into blocks. *)
Theorem process_blocks_compose
    (p p1 : PitchDetectorProcessor) (s1 s2 : list R) (r1 : option R) :
  (length (accumulatedSamples p ++ s1) < bufferSize p)%nat ->
  process p s1 = Normal (p1, r1) ->
  r1 = lastFrequency p /\
  process p1 s2 = process p (s1 ++ s2).
Proof.
  intros Hlen H.
  destruct (detectPitch p) as [detect|] eqn:Hd;
    [|unfold process in H; rewrite Hd in H; discriminate].
  rewrite (process_accumulating p detect s1 Hd Hlen) in H.
  injection H as <- <-. split; [reflexivity|].
  unfold process.
  cbn [detectPitch accumulatedSamples bufferSize set_buffer lastFrequency
       rmsThreshold].
  now rewrite <- app_assoc.
Qed.

Lemma process_blocks_compose_witness :
  exists p1 r1,
    process (readyDetector None None) (repeat 1%R 512) = Normal (p1, r1) /\
    process p1 (repeat 1%R 512)
    = process (readyDetector None None) (repeat 1%R 512 ++ repeat 1%R 512).
Proof.
  assert (Hlen : (length (accumulatedSamples (readyDetector None None)
                          ++ repeat 1%R 512)
                  < bufferSize (readyDetector None None))%nat).
  { cbn [readyDetector set_lastFrequency initialize
         new_PitchDetectorProcessor accumulatedSamples bufferSize app].
    rewrite repeat_length. lia. }
  pose proof (process_accumulating (readyDetector None None) (fun _ => None)
                (repeat 1%R 512) eq_refl Hlen) as Hp.
  eexists _, _. split; [exact Hp|].
  apply (process_blocks_compose _ _ _ _ _ Hlen Hp).
Defined.

End EstimatorProperties.

(** ** Sample conversion *)

Section SampleProperties.
Local Open Scope R_scope.
Local Open Scope list_scope.

Lemma pairs_ind {A} (P : list A -> Prop) :
  P [] -> (forall x, P [x]) -> (forall x y l, P l -> P (x :: y :: l)) ->
  forall l, P l.
Proof.
  intros H0 H1 H2.
  assert (H : forall l, P l /\ forall x, P (x :: l)).
  { induction l as [|y l [IH1 IH2]]; split; auto. }
  intros l. apply H.
Qed.

Lemma byte_bound (b : Byte.byte) : (0 <= Z.of_N (Byte.to_N b) <= 255)%Z.
Proof. pose proof (Byte.to_N_bounded b). lia. Qed.

Lemma byte_inj (a b : Byte.byte) :
  Z.of_N (Byte.to_N a) = Z.of_N (Byte.to_N b) -> a = b.
Proof.
  intros H. apply N2Z.inj in H.
  pose proof (Byte.of_to_N a) as Ha. pose proof (Byte.of_to_N b) as Hb.
  rewrite H in Ha. congruence.
Qed.

Lemma readInt16LE_range (lo hi : Byte.byte) :
  (-32768 <= readInt16LE lo hi <= 32767)%Z.
Proof.
  unfold readInt16LE. pose proof (byte_bound lo). pose proof (byte_bound hi).
  cbn zeta. destruct (Z.ltb_spec (Z.of_N (Byte.to_N lo) + 256 * Z.of_N (Byte.to_N hi)) 32768); lia.
Qed.

Lemma readInt16LE_inj (lo hi lo' hi' : Byte.byte) :
  readInt16LE lo hi = readInt16LE lo' hi' -> lo = lo' /\ hi = hi'.
Proof.
  unfold readInt16LE. cbn zeta.
  pose proof (byte_bound lo). pose proof (byte_bound hi).
  pose proof (byte_bound lo'). pose proof (byte_bound hi').
  intros Heq.
  assert (Z.of_N (Byte.to_N lo) = Z.of_N (Byte.to_N lo') /\
          Z.of_N (Byte.to_N hi) = Z.of_N (Byte.to_N hi')) as [E1 E2].
  { destruct (Z.ltb_spec (Z.of_N (Byte.to_N lo) + 256 * Z.of_N (Byte.to_N hi)) 32768);
    destruct (Z.ltb_spec (Z.of_N (Byte.to_N lo') + 256 * Z.of_N (Byte.to_N hi')) 32768);
    lia. }
  split; now apply byte_inj.
Qed.

(** X20.  [bufferToFloat32] gives one sample for every two bytes, leaving
    out a last odd byte, and every sample is a 16-bit signed integer over
    32768: it lies in the interval from -1, included, to 1, excluded. *)
Theorem bufferToFloat32_samples (buffer : list Byte.byte) :
  length (bufferToFloat32 buffer) = (length buffer / 2)%nat /\
  forall s, In s (bufferToFloat32 buffer) ->
    -1 <= s < 1 /\
    exists k : Z, (-32768 <= k <= 32767)%Z /\ s = IZR k / 32768.
Proof.
  induction buffer as [|x|lo hi l [IHlen IHs]] using pairs_ind.
  - split; [reflexivity | intros s []].
  - split; [reflexivity | intros s []].
  - split.
    + cbn [bufferToFloat32 length]. rewrite IHlen.
      change (S (S (length l))) with (1 * 2 + length l)%nat.
      now rewrite Nat.div_add_l by lia.
    + intros s [<- | Hs]; [|now apply IHs].
      pose proof (readInt16LE_range lo hi) as [Hlo Hhi].
      split.
      * apply IZR_le in Hlo. apply IZR_le in Hhi. lra.
      * exists (readInt16LE lo hi). split; [lia | reflexivity].
Qed.

Lemma bufferToFloat32_samples_witness :
  length (bufferToFloat32 [Byte.x00; Byte.x80; Byte.xff; Byte.x7f]) = 2%nat /\
  -1 <= IZR (readInt16LE Byte.x00 Byte.x80) / 32768 < 1.
Proof.
  destruct (bufferToFloat32_samples
              [Byte.x00; Byte.x80; Byte.xff; Byte.x7f]) as [Hl Hs].
  split; [exact Hl|]. apply Hs. left. reflexivity.
Defined.

(** X21.  On buffers of an even number of bytes [bufferToFloat32] loses
    nothing: two buffers that give the same samples are the same bytes. *)
Theorem bufferToFloat32_injective (b1 b2 : list Byte.byte) :
  Nat.Even (length b1) -> Nat.Even (length b2) ->
  bufferToFloat32 b1 = bufferToFloat32 b2 -> b1 = b2.
Proof.
  revert b2. induction b1 as [|x|lo hi l IH] using pairs_ind; intros b2 H1 H2 H.
  - destruct b2 as [|x [|y b2]]; [reflexivity| |discriminate].
    destruct H2 as [k Hk]. cbn in Hk. lia.
  - destruct H1 as [k Hk]. cbn in Hk. lia.
  - destruct b2 as [|lo' [|hi' b2]].
    + discriminate.
    + destruct H2 as [k Hk]. cbn in Hk. lia.
    + cbn [bufferToFloat32] in H. injection H as Hh Ht.
      assert (Hz : readInt16LE lo hi = readInt16LE lo' hi').
      { apply eq_IZR. lra. }
      apply readInt16LE_inj in Hz as [-> ->].
      f_equal. f_equal. apply IH; [| |exact Ht].
      * destruct H1 as [k Hk]. exists (k - 1)%nat. cbn [length] in Hk. lia.
      * destruct H2 as [k Hk]. exists (k - 1)%nat. cbn [length] in Hk. lia.
Qed.

Lemma bufferToFloat32_injective_witness :
  [Byte.xff; Byte.x7f] = [Byte.xff; Byte.x7f].
Proof.
  apply bufferToFloat32_injective.
  - exists 1%nat. reflexivity.
  - exists 1%nat. reflexivity.
  - reflexivity.
Defined.

End SampleProperties.

(** ** Starting and stopping *)

Section LifecycleProperties.
Local Open Scope list_scope.

(** The four ways [startSession] can go on a manager without a session. *)
Lemma startSession_cases env tuningId st :
  isActive st = false ->
  (getTuningById tuningId = None /\
   startSession env tuningId st =
     ({| start_success := false;
         start_message := ("Unknown tuning: " ++ tuningId)%string;
         start_tuning := None;
         start_error :=
           Some ("Available tunings: "
                 ++ String.concat ", " getTuningIds)%string |}, st))
  \/
  (exists t msg,
     getTuningById tuningId = Some t /\
     (soxInstalled env = false /\ msg = soxMissingMessage \/
      soxInstalled env = true /\ pitchfinder env = Throw msg \/
      soxInstalled env = true /\ (exists a, pitchfinder env = Normal a) /\
        micFailure env = Some msg) /\
     exists st0,
       startSession env tuningId st = startFailure st0 msg /\
       stableString st0 = stableString st /\
       stableStartTime st0 = stableStartTime st)
  \/
  (exists t algorithm,
     getTuningById tuningId = Some t /\
     soxInstalled env = true /\ pitchfinder env = Normal algorithm /\
     micFailure env = None /\
     startSession env tuningId st =
       ({| start_success := true;
           start_message := ("Started tuning session for "
                             ++ tuning_name t)%string;
           start_tuning := Some (tuningInfo t);
           start_error := None |},
        {| session := Some {| active := true; tuningId := id t;
                              tuningName := tuning_name t;
                              startedAt := startClock env |};
           mic := Some {| isRunning := true; audioListeners := 1;
                          errorListeners := 1 |};
           pitchDetector :=
             Some (initialize algorithm
                     (new_PitchDetectorProcessor DEFAULT_sampleRate));
           currentTuning := Some t;
           lastPitchResult := lastPitchResult st;
           stableString := stableString st;
           stableStartTime := stableStartTime st;
           tunedStrings := tunedStrings st |})).
Proof.
  intros Hact. unfold startSession. rewrite Hact.
  destruct (getTuningById tuningId) as [t|] eqn:Ht; [|left; auto].
  right. unfold mic_start, checkSoxInstalled.
  destruct (soxInstalled env) eqn:Hsox.
  - destruct (pitchfinder env) as [algorithm|msg] eqn:Hpf.
    + cbn [mic_on_error mic_on_audio new_MicrophoneCapture isRunning
           audioListeners errorListeners].
      destruct (micFailure env) as [msg|] eqn:Hmic.
      * left. exists t, msg. split; [reflexivity|]. split; [eauto 6|].
        eexists. split; [reflexivity|]. split; reflexivity.
      * right. exists t, algorithm. repeat split; reflexivity.
    + left. exists t, msg. split; [reflexivity|]. split; [auto|].
      eexists. split; [reflexivity|]. split; reflexivity.
  - left. exists t, soxMissingMessage. split; [reflexivity|]. split; [auto|].
    eexists. split; [reflexivity|]. split; reflexivity.
Qed.

Lemma fst_startFailure_success st msg :
  start_success (fst (startFailure st msg)) = false.
Proof.
  unfold startFailure. destruct (includes msg "sox"); [reflexivity|].
  destruct (_ || _); reflexivity.
Qed.

(** X22.  On a manager without an active session, [startSession]
    succeeds exactly when the tuning id is one of the catalog, sox is
    installed, pitchfinder loads and the recorder starts.  It then answers
    with the tuning's description and no error, and leaves an active
    session for that id and tuning, started at the clock's time, a running
    microphone with one ['audio'] and one ['error'] listener, and an
    initialised estimator; the cached result and the tuned set are those of
    before. *)
Theorem startSession_success_iff
    (env : StartEnv) (tuningId : string) (st : TuningSessionManager) :
  isActive st = false ->
  (start_success (fst (startSession env tuningId st)) = true <->
   In tuningId getTuningIds /\
   soxInstalled env = true /\
   (exists algorithm, pitchfinder env = Normal algorithm) /\
   micFailure env = None) /\
  (start_success (fst (startSession env tuningId st)) = true ->
   exists t algorithm,
     getTuningById tuningId = Some t /\
     pitchfinder env = Normal algorithm /\
     start_tuning (fst (startSession env tuningId st)) = Some (tuningInfo t) /\
     start_error (fst (startSession env tuningId st)) = None /\
     let st' := snd (startSession env tuningId st) in
     isActive st' = true /\
     session st' = Some {| active := true; tuningId := tuningId;
                           tuningName := tuning_name t;
                           startedAt := startClock env |} /\
     currentTuning st' = Some t /\
     mic st' = Some {| isRunning := true; audioListeners := 1;
                       errorListeners := 1 |} /\
     pitchDetector st' =
       Some (initialize algorithm
               (new_PitchDetectorProcessor DEFAULT_sampleRate)) /\
     lastPitchResult st' = lastPitchResult st /\
     tunedStrings st' = tunedStrings st).
Proof.
  intros Hact.
  destruct (startSession_cases env tuningId st Hact)
    as [[Ht ->] | [(t & msg & Ht & Hwhy & st0 & -> & _)
                  | (t & a & Ht & Hsox & Hpf & Hmic & ->)]].
  - split.
    + cbn [fst start_success]. split; [discriminate|].
      intros (Hin & _). apply getTuningById_None_iff in Ht. contradiction.
    + cbn [fst start_success]. discriminate.
  - rewrite fst_startFailure_success. split; [|discriminate].
    split; [discriminate|]. intros (_ & Hsox & (a & Hpf) & Hmic).
    destruct Hwhy as [[H _] | [[_ H] | (_ & _ & H)]]; congruence.
  - cbn [fst snd start_success start_tuning start_error].
    split.
    + split; [|reflexivity]. intros _.
      split; [|eauto].
      destruct (In_dec string_dec tuningId getTuningIds) as [Hin|Hin];
        [exact Hin|].
      apply getTuningById_None_iff in Hin. congruence.
    + intros _. exists t, a.
      rewrite (getTuningById_id _ _ Ht).
      repeat split; solve [reflexivity | assumption].
Qed.

Lemma startSession_success_iff_witness :
  start_success
    (fst (startSession (micAvailable None) "dadgad" tuningManager)) = true <->
  In "dadgad" getTuningIds /\
  soxInstalled (micAvailable None) = true /\
  (exists algorithm, pitchfinder (micAvailable None) = Normal algorithm) /\
  micFailure (micAvailable None) = None.
Proof.
  exact (proj1 (startSession_success_iff (micAvailable None) "dadgad"
                  tuningManager eq_refl)).
Defined.

(** X23.  A start that fails on a manager without an active session
    leaves no session active and reports no tuning; the tracker is as
    before.  For an unknown tuning id the manager is untouched; for a known
    one, whichever step failed, nothing is held afterwards: no session,
    microphone, estimator, tuning, cached result or tuned string. *)
Theorem startSession_failure_holds_nothing
    (env : StartEnv) (tuningId : string) (st : TuningSessionManager) :
  isActive st = false ->
  start_success (fst (startSession env tuningId st)) = false ->
  let st' := snd (startSession env tuningId st) in
  isActive st' = false /\
  start_tuning (fst (startSession env tuningId st)) = None /\
  stableString st' = stableString st /\
  stableStartTime st' = stableStartTime st /\
  (~ In tuningId getTuningIds -> st' = st) /\
  (In tuningId getTuningIds -> idle st').
Proof.
  intros Hact Hfail.
  destruct (startSession_cases env tuningId st Hact)
    as [[Ht ->] | [(t & msg & Ht & Hwhy & st0 & -> & Hs1 & Hs2)
                  | (t & a & Ht & Hsox & Hpf & Hmic & Heq)]].
  - cbn [fst snd start_tuning]. apply getTuningById_None_iff in Ht.
    split; [exact Hact|]. do 4 (split; [reflexivity|]).
    intros Hin. contradiction.
  - rewrite snd_startFailure. cbn zeta.
    destruct (cleanup_idle st0) as (Hi1 & Hi2 & Hi3 & Hi4 & Hi5 & Hi6).
    split; [unfold isActive; now rewrite Hi1|].
    split.
    { unfold startFailure. destruct (includes msg "sox"); [reflexivity|].
      destruct (_ || _); reflexivity. }
    split; [exact Hs1|]. split; [exact Hs2|].
    split; [|intros _; apply cleanup_idle].
    intros Hnot. apply getTuningById_None_iff in Hnot. congruence.
  - rewrite Heq in Hfail. discriminate.
Qed.

Lemma startSession_failure_holds_nothing_witness :
  idle (snd (startSession
               {| soxInstalled := false;
                  pitchfinder := Throw "Cannot find package";
                  micFailure := None; startClock := 0 |}
               "open-g" tuningManager)).
Proof.
  apply startSession_failure_holds_nothing.
  - reflexivity.
  - vm_compute. reflexivity.
  - vm_compute. tauto.
Defined.

(** X24.  What a failed start reports.  An unknown id is named in the
    message and the error lists the six ids of the catalog.  Missing sox is
    reported as such, with the install hint.  A failure of the pitchfinder
    import or of the recorder is classified by its message: one that
    mentions sox is reported as missing sox, even when it also mentions
    permission or access; otherwise one that mentions permission or access
    is reported as denied microphone access; any other is reported as a
    failed start, with the original message as the error. *)
Theorem startSession_failure_report
    (env : StartEnv) (tuningId : string) (st : TuningSessionManager) :
  isActive st = false ->
  let r := fst (startSession env tuningId st) in
  (~ In tuningId getTuningIds ->
   start_message r = ("Unknown tuning: " ++ tuningId)%string /\
   start_error r =
     Some ("Available tunings: "
           ++ "standard, drop-d, half-step-down, open-g, open-d, dadgad")%string)
  /\
  (In tuningId getTuningIds -> soxInstalled env = false ->
   start_message r = "sox is not installed" /\
   start_error r = Some "Install sox with: brew install sox")
  /\
  (forall msg,
     In tuningId getTuningIds -> soxInstalled env = true ->
     pitchfinder env = Throw msg \/
     (exists algorithm, pitchfinder env = Normal algorithm) /\
     micFailure env = Some msg ->
     (includes msg "sox" = true ->
      start_message r = "sox is not installed" /\
      start_error r = Some "Install sox with: brew install sox") /\
     (includes msg "sox" = false ->
      includes msg "permission" = true \/ includes msg "access" = true ->
      start_message r = "Microphone access denied") /\
     (includes msg "sox" = false -> includes msg "permission" = false ->
      includes msg "access" = false ->
      start_message r = "Failed to start tuning session" /\
      start_error r = Some msg)).
Proof.
  intros Hact r.
  destruct (startSession_cases env tuningId st Hact)
    as [[Ht Heq] | [(t & msg & Ht & Hwhy & st0 & Heq & _)
                   | (t & a & Ht & Hsox & Hpf & Hmic & Heq)]];
    subst r; rewrite Heq; clear Heq.
  - split; [intros _; split; reflexivity|].
    apply getTuningById_None_iff in Ht.
    split; [intros Hin; contradiction | intros m Hin; contradiction].
  - assert (Hcls :
      (includes msg "sox" = true ->
       start_message (fst (startFailure st0 msg)) = "sox is not installed" /\
       start_error (fst (startFailure st0 msg))
         = Some "Install sox with: brew install sox") /\
      (includes msg "sox" = false ->
       includes msg "permission" = true \/ includes msg "access" = true ->
       start_message (fst (startFailure st0 msg))
         = "Microphone access denied") /\
      (includes msg "sox" = false -> includes msg "permission" = false ->
       includes msg "access" = false ->
       start_message (fst (startFailure st0 msg))
         = "Failed to start tuning session" /\
       start_error (fst (startFailure st0 msg)) = Some msg)).
    { unfold startFailure.
      destruct (includes msg "sox"), (includes msg "permission"),
        (includes msg "access"); cbn [orb fst start_message start_error];
        repeat split; intros; try discriminate; try reflexivity;
        match goal with H : _ \/ _ |- _ => destruct H; discriminate end. }
    split; [|split].
    + intros Hnot. apply getTuningById_None_iff in Hnot. congruence.
    + intros _ Hsox.
      destruct Hwhy as [[_ ->] | [[H _] | (H & _)]]; try congruence.
      apply Hcls. vm_compute. reflexivity.
    + intros m _ Hsox Hm.
      assert (m = msg) as ->; [|exact Hcls].
      destruct Hwhy as [[H _] | [[_ H] | (_ & (a & Ha) & H)]];
        [congruence| |]; destruct Hm as [Hm | ((a' & Ha') & Hm)]; congruence.
  - split; [|split].
    + intros Hnot. apply getTuningById_None_iff in Hnot. congruence.
    + intros _ Hs. congruence.
    + intros m _ _ [Hm | (_ & Hm)]; congruence.
Qed.

Lemma startSession_failure_report_witness :
  start_message
    (fst (startSession
            {| soxInstalled := true;
               pitchfinder := Normal (fun _ _ => None);
               micFailure := Some "no access to the sox recorder";
               startClock := 0 |}
            "standard" tuningManager))
  = "sox is not installed".
Proof.
  pose proof (startSession_failure_report
                {| soxInstalled := true;
                   pitchfinder := Normal (fun _ _ => None);
                   micFailure := Some "no access to the sox recorder";
                   startClock := 0 |}
                "standard" tuningManager eq_refl) as (_ & _ & H).
  apply (H "no access to the sox recorder").
  - vm_compute. tauto.
  - reflexivity.
  - right. split; [eexists; reflexivity | reflexivity].
  - vm_compute. reflexivity.
Defined.

(** X25.  [stopSession] succeeds exactly when a session is active, and
    whatever the manager was, no session is active afterwards: a second
    stop fails with the "no active session" answer, releases nothing and
    leaves the manager as the first stop left it. *)
Theorem stopSession_twice (st : TuningSessionManager) :
  let st1 := snd (fst (stopSession st)) in
  stop_success (fst (fst (stopSession st))) = isActive st /\
  isActive st1 = false /\
  stopSession st1 =
    ({| stop_success := false;
        stop_message := "No active tuning session";
        stop_error := Some "Call start_tuning first to begin a session." |},
     st1, nothing_released).
Proof.
  cbn zeta.
  assert (Hidle : isActive (snd (fst (stopSession st))) = false).
  { destruct (isActive st) eqn:Hact.
    - rewrite (stopSession_active st Hact). reflexivity.
    - rewrite (stopSession_idle st Hact). exact Hact. }
  split; [|split; [exact Hidle | now apply stopSession_idle]].
  destruct (isActive st) eqn:Hact.
  - now rewrite (stopSession_active st Hact).
  - now rewrite (stopSession_idle st Hact).
Qed.

End LifecycleProperties.

(** ** Deadline and cancellation of a wait *)

Section WaitProperties.
Local Open Scope list_scope.

Lemma wait_loop_app startTime timeoutMs pre evs : forall st,
  wait_loop startTime timeoutMs (pre ++ evs) st =
  match wait_loop startTime timeoutMs pre st with
  | (st', Some r) => (st', Some r)
  | (st', None) => wait_loop startTime timeoutMs evs st'
  end.
Proof.
  induction pre as [|ev pre IH]; intros st; [reflexivity|].
  cbn [app wait_loop]. destruct ev as [now samples | | now1 now2].
  - apply IH.
  - apply IH.
  - destruct (checkStability startTime timeoutMs now1 now2 st) as [st1 [r|]];
      [reflexivity | apply IH].
Qed.

Lemma waitForPitch_app now timeoutMs first pre evs st st1 :
  waitForPitch now timeoutMs first pre st = (st1, None) ->
  waitForPitch now timeoutMs first (pre ++ evs) st =
  wait_loop now timeoutMs evs st1.
Proof.
  intros H. destruct (isActive st) eqn:Hact.
  - rewrite waitForPitch_active in * by exact Hact.
    rewrite app_comm_cons, wait_loop_app. now rewrite H.
  - rewrite waitForPitch_idle in H by exact Hact. discriminate.
Qed.

Lemma checkStability_timeout startTime timeoutMs now1 now2 st :
  timeoutMs < now1 - startTime ->
  checkStability startTime timeoutMs now1 now2 st
  = (st, Some (WaitTimeout timeoutResult)).
Proof.
  intros H. unfold checkStability.
  now replace (now1 - startTime >? timeoutMs) with true by lia.
Qed.

Lemma checkStability_timed_out startTime timeoutMs now1 now2 st st' r :
  checkStability startTime timeoutMs now1 now2 st = (st', Some (WaitTimeout r)) ->
  timeoutMs < now1 - startTime /\ st' = st /\ r = timeoutResult.
Proof.
  unfold checkStability.
  destruct (now1 - startTime >? timeoutMs) eqn:E.
  - intros [= <- <-]. repeat split; auto. lia.
  - destruct (negb (isActive st)); [discriminate|].
    destruct (stableString st); [|discriminate].
    destruct (lastPitchResult st); [|discriminate].
    destruct (_ && _); discriminate.
Qed.

(** X26.  The deadline of [waitForPitch].  A pending call resolves as
    timed out at the first poll that reads the clock more than [timeoutMs]
    after the call began, whatever has been heard or stopped, and the
    manager is left as it was.  Conversely a call that resolves as timed
    out was on an active session, returns the fixed timeout reading, and
    was resolved by a poll, the initial one or a later one, that read the
    clock strictly more than [timeoutMs] after the call began; the events
    before that poll produced the final manager. *)
Theorem waitForPitch_times_out (now timeoutMs : Z) (first : Z * Z) :
  (forall pre rest now1 now2 st st1,
     waitForPitch now timeoutMs first pre st = (st1, None) ->
     timeoutMs < now1 - now ->
     waitForPitch now timeoutMs first (pre ++ EvPoll now1 now2 :: rest) st
     = (st1, Some (WaitTimeout timeoutResult))) /\
  (forall evs st st' r,
     waitForPitch now timeoutMs first evs st = (st', Some (WaitTimeout r)) ->
     r = timeoutResult /\ isActive st = true /\
     exists consumed now1 now2 rest,
       EvPoll (fst first) (snd first) :: evs
       = consumed ++ EvPoll now1 now2 :: rest /\
       timeoutMs < now1 - now /\
       st' = after_events now timeoutMs consumed (set_stable st None 0)).
Proof.
  split.
  - intros pre rest now1 now2 st st1 Hpre Hlate.
    rewrite (waitForPitch_app _ _ _ _ _ _ _ Hpre). cbn [wait_loop].
    now rewrite checkStability_timeout.
  - intros evs st st' r H. destruct (isActive st) eqn:Hact.
    + rewrite waitForPitch_active in H by exact Hact.
      apply wait_loop_resolved in H
        as (consumed & n1 & n2 & rest & Hevs & Hc).
      apply checkStability_timed_out in Hc as (Hlate & -> & ->).
      split; [reflexivity|]. split; [reflexivity|].
      exists consumed, n1, n2, rest. auto.
    + rewrite waitForPitch_idle in H by exact Hact. discriminate.
Qed.

Lemma waitForPitch_times_out_witness :
  waitForPitch 0 30000 (0, 0) ([] ++ [EvPoll 30001 30001]) started
  = (started, Some (WaitTimeout timeoutResult)).
Proof.
  apply (proj1 (waitForPitch_times_out 0 30000 (0, 0))).
  - rewrite waitForPitch_active by reflexivity.
    change (set_stable started None 0) with started.
    cbn [wait_loop fst snd].
    now rewrite checkStability_nothing_held by (reflexivity || lia).
  - lia.
Defined.

(** After a stop, nothing of the session is left for a block to act on. *)
Lemma wait_loop_stopped startTime timeoutMs evs : forall st,
  isActive st = false ->
  exists st2, isActive st2 = false /\
    (wait_loop startTime timeoutMs evs st = (st2, None) /\
     (forall n1 n2, ~ In (EvPoll n1 n2) evs)
     \/ wait_loop startTime timeoutMs evs st
        = (st2, Some (WaitTimeout timeoutResult))
     \/ wait_loop startTime timeoutMs evs st
        = (st2, Some (WaitError "Tuning session was stopped."))).
Proof.
  induction evs as [|ev evs IH]; intros st Hact.
  - exists st. split; [exact Hact|]. left. split; [reflexivity | intros ? ? []].
  - destruct ev as [now samples | | now1 now2]; cbn [wait_loop].
    + assert (Hact' : isActive (onAudio now samples st) = false).
      { unfold isActive in *. unfold onAudio.
        destruct (pitchDetector st); [|exact Hact].
        destruct (currentTuning st); [|exact Hact].
        destruct (process _ _) as [[pd' freq]|]; [|exact Hact].
        destruct (closestString _);
          [destruct (bool_decide _)|]; exact Hact. }
      destruct (IH _ Hact') as (st2 & H2 & [[H Hn] | H]).
      * exists st2. split; [exact H2|]. left. split; [exact H|].
        intros n1 n2 [Hd | Hin]; [discriminate | exact (Hn n1 n2 Hin)].
      * exists st2. split; [exact H2|]. right. exact H.
    + rewrite (stopSession_idle st Hact). cbn [fst snd].
      destruct (IH _ Hact) as (st2 & H2 & [[H Hn] | H]).
      * exists st2. split; [exact H2|]. left. split; [exact H|].
        intros n1 n2 [Hd | Hin]; [discriminate | exact (Hn n1 n2 Hin)].
      * exists st2. split; [exact H2|]. right. exact H.
    + exists st. split; [exact Hact|]. right.
      unfold checkStability. rewrite Hact. cbn [negb].
      destruct (now1 - startTime >? timeoutMs); auto.
Qed.

(** X27.  When the session is stopped while a call of [waitForPitch] is
    pending, and no session is started meanwhile, the call never resolves
    with a reading: whatever blocks, stops and polls follow, it stays
    pending as long as no poll runs, and otherwise resolves as timed out or
    with "Tuning session was stopped."; no session is active at the end. *)
Theorem waitForPitch_cancelled
    (now timeoutMs : Z) (first : Z * Z) (pre rest : list WaitEvent)
    (st st1 : TuningSessionManager) :
  waitForPitch now timeoutMs first pre st = (st1, None) ->
  exists st2, isActive st2 = false /\
    (waitForPitch now timeoutMs first (pre ++ EvStop :: rest) st = (st2, None) /\
     (forall n1 n2, ~ In (EvPoll n1 n2) rest)
     \/ waitForPitch now timeoutMs first (pre ++ EvStop :: rest) st
        = (st2, Some (WaitTimeout timeoutResult))
     \/ waitForPitch now timeoutMs first (pre ++ EvStop :: rest) st
        = (st2, Some (WaitError "Tuning session was stopped."))).
Proof.
  intros Hpre. rewrite (waitForPitch_app _ _ _ _ _ _ _ Hpre).
  cbn [wait_loop]. apply wait_loop_stopped.
  destruct (isActive st1) eqn:Hact.
  - rewrite (stopSession_active st1 Hact). reflexivity.
  - rewrite (stopSession_idle st1 Hact). exact Hact.
Qed.

Lemma waitForPitch_cancelled_witness :
  exists st2, isActive st2 = false /\
    waitForPitch 0 30000 (0, 0) ([] ++ EvStop :: [EvPoll 50 50]) started
    = (st2, Some (WaitError "Tuning session was stopped.")).
Proof.
  assert (Hpre : waitForPitch 0 30000 (0, 0) [] started = (started, None)).
  { rewrite waitForPitch_active by reflexivity.
    change (set_stable started None 0) with started.
    cbn [wait_loop fst snd].
    now rewrite checkStability_nothing_held by (reflexivity || lia). }
  destruct (waitForPitch_cancelled 0 30000 (0, 0) [] [EvPoll 50 50]
              started started Hpre) as (st2 & H2 & [[_ Hn] | [H | H]]).
  - exfalso. apply (Hn 50 50). left. reflexivity.
  - exfalso. rewrite (waitForPitch_app _ _ _ _ _ _ _ Hpre) in H.
    cbn [wait_loop] in H.
    destruct (isActive started) eqn:Hact; [|discriminate].
    rewrite (stopSession_active started Hact) in H. cbn [fst snd] in H.
    unfold checkStability in H.
    change (50 - 0 >? 30000) with false in H. cbn in H. discriminate.
  - exists st2. split; assumption.
Defined.

End WaitProperties.

(** ** Blocks, steps and the get_pitch tool *)

Section SessionProperties.
Local Open Scope list_scope.

(** X28.  The ['audio'] listener never touches the session, the
    microphone, the tuning or the tuned set.  Either it leaves the whole
    manager as it was, or the estimator has processed the block: the cached
    result is the one made from the estimator's answer, the tracker holds
    exactly the string of that result, with start time 0 when there is no
    string, the earlier start time when the string is the one held before,
    and the block's time stamp when it is a different one. *)
Theorem onAudio_frame (now : Z) (samples : list R) (st : TuningSessionManager) :
  let st' := onAudio now samples st in
  session st' = session st /\ mic st' = mic st /\
  currentTuning st' = currentTuning st /\
  tunedStrings st' = tunedStrings st /\
  (st' = st \/
   exists pd pd' tuning freq,
     pitchDetector st = Some pd /\ currentTuning st = Some tuning /\
     process pd samples = Normal (pd', freq) /\
     pitchDetector st' = Some pd' /\
     lastPitchResult st' = Some (createPitchResult freq tuning) /\
     stableString st' = closestString (createPitchResult freq tuning) /\
     (stableString st' = None -> stableStartTime st' = 0) /\
     (stableString st' <> None -> stableString st' = stableString st ->
      stableStartTime st' = stableStartTime st) /\
     (stableString st' <> None -> stableString st' <> stableString st ->
      stableStartTime st' = now)).
Proof.
  cbn zeta. unfold onAudio.
  destruct (pitchDetector st) as [pd|] eqn:Hpd; [|repeat split; auto].
  destruct (currentTuning st) as [tuning|] eqn:Ht; [|repeat split; auto].
  destruct (process pd samples) as [[pd' freq]|] eqn:Hp; [|repeat split; auto].
  destruct (closestString (createPitchResult freq tuning)) as [c|] eqn:Hc.
  - destruct (bool_decide (stableString st = Some c)) eqn:Hb.
    + apply bool_decide_eq_true in Hb.
      cbn. repeat split; auto. right. exists pd, pd', tuning, freq.
      rewrite Hc. repeat split; auto; congruence.
    + apply bool_decide_eq_false in Hb.
      cbn. repeat split; auto. right. exists pd, pd', tuning, freq.
      rewrite Hc. repeat split; auto; congruence.
  - cbn. repeat split; auto. right. exists pd, pd', tuning, freq.
    rewrite Hc. repeat split; auto; congruence.
Qed.

Lemma onAudio_keeps now samples st :
  session (onAudio now samples st) = session st /\
  mic (onAudio now samples st) = mic st /\
  currentTuning (onAudio now samples st) = currentTuning st /\
  tunedStrings (onAudio now samples st) = tunedStrings st.
Proof.
  unfold onAudio.
  destruct (pitchDetector st) as [pd|]; [|auto].
  destruct (currentTuning st) as [tuning|] eqn:Ht; [|auto].
  destruct (process pd samples) as [[pd' freq]|]; [|auto].
  destruct (closestString _); [destruct (bool_decide _)|]; cbn; auto.
Qed.

Lemma checkStability_frame startTime timeoutMs now1 now2 st :
  let st' := fst (checkStability startTime timeoutMs now1 now2 st) in
  session st' = session st /\ mic st' = mic st /\
  currentTuning st' = currentTuning st /\
  tunedStrings st ⊆ tunedStrings st'.
Proof.
  cbn zeta. unfold checkStability.
  destruct (_ >? _); [cbn; repeat split; set_solver|].
  destruct (negb _); [cbn; repeat split; set_solver|].
  destruct (stableString st); [|cbn; repeat split; set_solver].
  destruct (lastPitchResult st) as [last|]; [|cbn; repeat split; set_solver].
  destruct (_ && _ && _); [|cbn; repeat split; set_solver].
  cbn. repeat split; auto.
  destruct (closestString last); [destruct (inTune last)|]; set_solver.
Qed.

(** X29.  An operation that begins and ends with an active session has
    not changed the session, the microphone or the tuning, and has lost no
    tuned string: progress only grows until the session is stopped. *)
Theorem step_within_session (st st' : TuningSessionManager) :
  step st st' -> isActive st = true -> isActive st' = true ->
  session st' = session st /\ mic st' = mic st /\
  currentTuning st' = currentTuning st /\
  tunedStrings st ⊆ tunedStrings st'.
Proof.
  intros Hstep Hact Hact'. destruct Hstep.
  - unfold startSession. rewrite Hact. cbn. repeat split; set_solver.
  - rewrite (stopSession_active st Hact) in Hact'. discriminate.
  - destruct (onAudio_keeps now samples st) as (H1 & H2 & H3 & H4).
    rewrite H4. repeat split; auto.
  - unfold waitForPitch_enter in H. rewrite Hact in H.
    injection H as <- _. cbn. repeat split; set_solver.
  - apply checkStability_frame.
Qed.

Lemma step_within_session_witness :
  session playing_A2 = session started /\ mic playing_A2 = mic started /\
  currentTuning playing_A2 = currentTuning started /\
  tunedStrings started ⊆ tunedStrings playing_A2.
Proof.
  apply step_within_session.
  - apply step_onAudio.
  - reflexivity.
  - apply playing_A2_active.
Defined.

Lemma descending_trans : Transitive descending.
Proof. intros x y z. unfold descending. lia. Qed.

Lemma descending_antisymm : AntiSymm (=) descending.
Proof. intros x y. unfold descending. lia. Qed.

Lemma descending_six (l : list Z) :
  Sorted descending l -> NoDup l -> (forall n, n ∈ l <-> 1 <= n <= 6) ->
  l = [6; 5; 4; 3; 2; 1].
Proof.
  intros Hs Hnd Hel.
  apply (@Sorted_unique Z descending descending_trans descending_antisymm);
    [exact Hs | |].
  - repeat constructor; unfold descending; lia.
  - apply NoDup_Permutation; [exact Hnd | |].
    + apply (bool_decide_unpack _). vm_compute. exact I.
    + intros n. rewrite Hel. rewrite !elem_of_cons, elem_of_nil. lia.
Qed.

(** X30.  [get_pitch] on a reachable manager answers with what
    [waitForPitch] resolved with for a 30000 ms timeout.  It adds the
    message, always "All 6 strings are in tune! Session ended.", exactly
    when the result is a reading whose [allInTune] is true; without the
    message the manager is the one the wait left.  With the message the
    session has been stopped and nothing is held, and the reading lists the
    tuned strings as 6, 5, 4, 3, 2, 1 with count six. *)
Theorem get_pitch_auto_stop
    (now : Z) (first : Z * Z) (evs : list WaitEvent)
    (st st' : TuningSessionManager) (resp : PitchResponse) :
  reachable st ->
  tool_get_pitch now first evs st = (st', Some resp) ->
  (exists st1,
     waitForPitch now 30000 first evs st
     = (st1, Some (response_result resp)) /\
     (response_message resp = None -> st' = st1)) /\
  (response_message resp = None \/
   response_message resp = Some "All 6 strings are in tune! Session ended.") /\
  (is_Some (response_message resp) <->
   exists p, response_result resp = WaitStable p /\ allInTune p = true) /\
  (is_Some (response_message resp) ->
   idle st' /\ isActive st' = false /\
   exists p, response_result resp = WaitStable p /\
             pg_tunedStrings p = [6; 5; 4; 3; 2; 1] /\
             tunedCount p = 6%nat).
Proof.
  intros Hreach. unfold tool_get_pitch.
  destruct (waitForPitch now 30000 first evs st) as [st1 [r|]] eqn:Hw;
    [|discriminate].
  destruct r as [e | r | p].
  - intros [= <- <-]. cbn. split; [eauto|]. split; [auto|].
    split; [split; [intros [? ?]; discriminate | intros (p & ? & _); discriminate]|].
    intros [? ?]; discriminate.
  - intros [= <- <-]. cbn. split; [eauto|]. split; [auto|].
    split; [split; [intros [? ?]; discriminate | intros (p & ? & _); discriminate]|].
    intros [? ?]; discriminate.
  - destruct (allInTune p) eqn:Hall.
    + intros [= <- <-]. cbn [response_result response_message].
      split; [exists st1; split; [reflexivity | discriminate]|].
      split; [auto|].
      split; [split; [intros _; eauto | intros _; eauto]|].
      intros _.
      destruct (waitForPitch_stable_poll _ _ _ _ _ _ _ Hw)
        as (Hact & consumed & n1 & n2 & rest & -> & Hc).
      assert (Hreach0 : reachable (after_events now 30000 consumed
                                     (set_stable st None 0))).
      { apply after_events_reachable.
        now apply waitForPitch_enter_reachable. }
      assert (Hreach1 : reachable st1).
      { unfold reachable. eapply rtc_r; [exact Hreach0|].
        replace st1 with (fst (checkStability now 30000 n1 n2
                                 (after_events now 30000 consumed
                                    (set_stable st None 0))))
          by now rewrite Hc.
        apply step_checkStability. }
      destruct (checkStability_stable _ _ _ _ _ _ _ Hc)
        as (s & Hact0 & _ & _ & _ & _ & _ & _ & _ & _ & _ & _ & Hsess & Hcur & _).
      destruct (checkStability_reading _ _ _ _ _ _ _ Hreach0 Hc)
        as (s' & t & _ & _ & _ & _ & _ & _ & Hsorted & Hnd & Hel & Hcount
            & _ & Hall6 & Ht & Hallpos).
      destruct (inv_active _ (reachable_inv _ Hreach0) Hact0)
        as (_ & _ & _ & t' & _ & _ & _ & _ & _ & Ht' & Hin & _).
      assert (t' = t) as -> by congruence.
      destruct (catalog_six_positions t Hin) as (_ & _ & Hpos).
      fold (positions t) in Hpos.
      assert (Hact1 : isActive st1 = true).
      { unfold isActive in *. now rewrite Hsess. }
      rewrite (stopSession_active st1 Hact1). cbn [fst snd].
      split; [apply cleanup_idle|]. split; [reflexivity|].
      exists p. split; [reflexivity|]. split; [|now apply Hall6].
      apply descending_six; [exact Hsorted | exact Hnd |].
      intros n. rewrite Hel. rewrite <- Hpos. split.
      * intros Hn. apply (inv_tuned st1 (reachable_inv _ Hreach1) t n);
          [now rewrite Hcur | exact Hn].
      * apply Hallpos. exact Hall.
    + intros [= <- <-]. cbn [response_result response_message].
      split; [eauto|]. split; [auto|].
      split; [split; [intros [? ?]; discriminate
                     | intros (p' & [= <-] & ?); congruence]|].
      intros [? ?]; discriminate.
Qed.

Lemma get_pitch_auto_stop_witness :
  exists st' resp st1,
    tool_get_pitch 900 (900, 900)
      [EvAudio 1000 (repeat 1%R 4096); EvPoll 1400 1400] started
    = (st', Some resp) /\
    waitForPitch 900 30000 (900, 900)
      [EvAudio 1000 (repeat 1%R 4096); EvPoll 1400 1400] started
    = (st1, Some (response_result resp)).
Proof.
  destruct waitForPitch_started_run as (st1 & p & Hrun).
  assert (Hg : exists st' resp,
            tool_get_pitch 900 (900, 900)
              [EvAudio 1000 (repeat 1%R 4096); EvPoll 1400 1400] started
            = (st', Some resp)).
  { unfold tool_get_pitch. rewrite Hrun.
    destruct (allInTune p); eauto. }
  destruct Hg as (st' & resp & Hg).
  destruct (get_pitch_auto_stop _ _ _ _ _ _ started_reachable Hg)
    as ((st2 & H2 & _) & _).
  now exists st', resp, st2.
Defined.

End SessionProperties.
